(** * run-clang-tidy.py: the parallel clang-tidy runner

    A shallow embedding of [tooling/run-clang-tidy.py] and the properties of
    its command-line builder, its file selection, its replacement-merging
    helper and its thread pool. *)

From Stdlib Require Import Ascii ZArith.
From stdpp Require Import base option list strings gmap.

Open Scope nat_scope.

(** ** Invocation builder *)

Module Invocation.

(** [get_tidy_invocation(f, clang_tidy_binary, header_filter)]: Python's
    [None] is [None], any string (the empty one too) is [Some]. *)
Definition get_tidy_invocation (f clang_tidy_binary : string)
    (header_filter : option string) : list string :=
  let start := [clang_tidy_binary; f] in
  let start :=
    match header_filter with
    | Some h => start ++ ["-header-filter=" +:+ h]
    | None => start
    end in
  let start := start ++ ["--"] in
  start ++ ["-Icugl/include"].

(** A token of an argument vector that carries the header-filter option. *)
Definition is_header_filter_token (t : string) : bool :=
  String.prefix "-header-filter=" t.

(** The options of an invocation: what follows the binary and the file. *)
Definition tool_options (argv : list string) : list string := drop 2 argv.

Definition header_filter_tokens (argv : list string) : list string :=
  filter (fun t => is_header_filter_token t = true) (tool_options argv).

End Invocation.

(** ** File selection: the regular expression built from the positional
    arguments

    [re.compile('|'.join(args.files))] and [file_name_re.search(name)].
    Python's [re] is modelled on the fragment of its syntax made of literal
    characters, [.], the postfix repetitions [*], [+], [?] and the
    alternation [|], each repetition sign standing after an atom and not
    after another repetition sign. On a pattern of this fragment
    [re_compile] answers [None] exactly when [re] raises ("nothing to
    repeat"); on a pattern outside of it ([\ ( ) [ ] { } ^ $], [*?], [*+])
    it answers [None] too, which then says nothing about [re]: the
    properties of the selection are stated for the patterns of the
    fragment. A pattern and a file name are sequences of characters of
    [ascii]; a character stands for itself up to 127, and the properties of
    the selection are stated for ASCII patterns and names. *)

Module Re.

Inductive regex : Type :=
  | Fail : regex                      (* matches nothing; only a derivative *)
  | Eps : regex                       (* the empty pattern *)
  | Chr : ascii -> regex              (* a literal character *)
  | Any : regex                       (* [.]: any character but a newline *)
  | Cat : regex -> regex -> regex
  | Alt : regex -> regex -> regex
  | Star : regex -> regex.

Definition newline : ascii := "010"%char.

(** Characters with a meaning of their own that the fragment leaves out. *)
Definition is_unsupported (c : ascii) : bool :=
  existsb (Ascii.eqb c)
    ["\"; "("; ")"; "["; "]"; "{"; "}"; "^"; "$"]%char.

Definition is_repeat (c : ascii) : bool :=
  existsb (Ascii.eqb c) ["*"; "+"; "?"]%char.

Definition atom_of (c : ascii) : regex :=
  if Ascii.eqb c "." then Any else Chr c.

Definition repeat_of (q : ascii) (r : regex) : regex :=
  if Ascii.eqb q "*" then Star r
  else if Ascii.eqb q "+" then Cat r (Star r)
  else Alt r Eps.

(** One alternative: a sequence of atoms, each with at most one repetition
    sign. A repetition sign with nothing before it is an error of [re]
    ("nothing to repeat", "multiple repeat"). *)
Fixpoint parse_branch (s : list ascii) : option regex :=
  match s with
  | [] => Some Eps
  | c :: rest =>
      if is_unsupported c || is_repeat c then None
      else
        match rest with
        | q :: rest' =>
            if is_repeat q
            then r ← parse_branch rest'; Some (Cat (repeat_of q (atom_of c)) r)
            else r ← parse_branch rest; Some (Cat (atom_of c) r)
        | [] => Some (Cat (atom_of c) Eps)
        end
  end.

(** The alternatives of a pattern: the pieces between its [|] signs. *)
Fixpoint split_bar (s : list ascii) : list (list ascii) :=
  match s with
  | [] => [[]]
  | c :: rest =>
      if Ascii.eqb c "|" then [] :: split_bar rest
      else
        match split_bar rest with
        | b :: bs => (c :: b) :: bs
        | [] => [[c]]
        end
  end.

Fixpoint alt_of (rs : list regex) : regex :=
  match rs with
  | [] => Fail
  | [r] => r
  | r :: rs' => Alt r (alt_of rs')
  end.

Definition parse (s : list ascii) : option regex :=
  rs ← mapM parse_branch (split_bar s); Some (alt_of rs).

Definition re_compile (pattern : string) : option regex :=
  parse (String.list_ascii_of_string pattern).

(** Matching by derivatives. *)
Fixpoint nullable (r : regex) : bool :=
  match r with
  | Fail => false
  | Eps => true
  | Chr _ => false
  | Any => false
  | Cat r1 r2 => nullable r1 && nullable r2
  | Alt r1 r2 => nullable r1 || nullable r2
  | Star _ => true
  end.

Fixpoint deriv (c : ascii) (r : regex) : regex :=
  match r with
  | Fail => Fail
  | Eps => Fail
  | Chr d => if Ascii.eqb c d then Eps else Fail
  | Any => if Ascii.eqb c newline then Fail else Eps
  | Cat r1 r2 =>
      if nullable r1 then Alt (Cat (deriv c r1) r2) (deriv c r2)
      else Cat (deriv c r1) r2
  | Alt r1 r2 => Alt (deriv c r1) (deriv c r2)
  | Star r1 => Cat (deriv c r1) (Star r1)
  end.

(** [match_here r s]: some prefix of [s] matches [r] ([pattern.match]). *)
Fixpoint match_here (r : regex) (s : list ascii) : bool :=
  nullable r ||
  match s with
  | [] => false
  | c :: s' => match_here (deriv c r) s'
  end.

(** [search_from r s]: [r] matches at some position of [s], the positions
    tried from left to right ([pattern.search], as a truth value). *)
Fixpoint search_from (r : regex) (s : list ascii) : bool :=
  match_here r s ||
  match s with
  | [] => false
  | _ :: s' => search_from r s'
  end.

Definition re_search (r : regex) (name : string) : bool :=
  search_from r (String.list_ascii_of_string name).

(** The words a pattern matches in full. *)
Inductive matches : regex -> list ascii -> Prop :=
  | m_eps : matches Eps []
  | m_chr c : matches (Chr c) [c]
  | m_any c : c <> newline -> matches Any [c]
  | m_cat r1 r2 u v : matches r1 u -> matches r2 v -> matches (Cat r1 r2) (u ++ v)
  | m_alt_l r1 r2 u : matches r1 u -> matches (Alt r1 r2) u
  | m_alt_r r1 r2 u : matches r2 u -> matches (Alt r1 r2) u
  | m_star_nil r : matches (Star r) []
  | m_star_cons r u v : matches r u -> matches (Star r) v -> matches (Star r) (u ++ v).

(** Some alternative among [bs] is well-formed and matches [u]. *)
Definition branch_matches (bs : list (list ascii)) (u : list ascii) : Prop :=
  exists b r, b ∈ bs /\ parse_branch b = Some r /\ matches r u.

(** [file_name_re = re.compile('|'.join(args.files))]. *)
Definition file_name_re (files : list string) : option regex :=
  re_compile (String.concat "|" files).

(** The test of the enqueue loop, [file_name_re.search(name)]; [None] when
    [re.compile] raised. *)
Definition selected (files : list string) (name : string) : option bool :=
  r ← file_name_re files; Some (re_search r name).

(** [re.compile] as [main] uses it: whether it raises and, if not, the
    [search] of the compiled pattern. *)
Definition library (pattern : string) : option (string -> bool) :=
  re_search <$> re_compile pattern.

End Re.

(** ** Command line

    The four [add_argument] declarations of [main]. A command line is taken
    after its options are told apart: what matters here is which options are
    present and the default each absent one gets from [argparse]. *)

Module Cli.

Record cmdline : Type := {
  given_clang_tidy_binary : option string; (* [-clang-tidy-binary PATH] *)
  given_header_filter : option string;     (* [-header-filter PATTERN] *)
  given_files : list string;               (* the positional patterns *)
  given_cpp : option (list string)         (* [-cpp [FILE ...]] *)
}.

Record Namespace : Type := {
  clang_tidy_binary : string;
  header_filter : option string;
  files : list string;
  cpp : option (list string)
}.

Definition parse_args (c : cmdline) : Namespace :=
  {| clang_tidy_binary := default "clang-tidy" (given_clang_tidy_binary c);
     header_filter := given_header_filter c;
     files := match given_files c with [] => [".*"] | fs => fs end;
     cpp := given_cpp c |}.

(** A command line without [-cpp]. *)
Definition example_no_cpp : cmdline :=
  {| given_clang_tidy_binary := None; given_header_filter := None;
     given_files := []; given_cpp := None |}.

End Cli.

(** ** Decoding of the captured output

    [bytes.decode('utf-8')] raises on a byte string that is not well-formed
    UTF-8. A [string] is a sequence of bytes; a decoded text is kept as its
    UTF-8 bytes. *)

Module Utf8.

Definition between (lo hi : N) (c : ascii) : bool :=
  (lo <=? N_of_ascii c)%N && (N_of_ascii c <=? hi)%N.

Definition cont : ascii -> bool := between 128 191.

Fixpoint well_formed (s : string) : bool :=
  match s with
  | EmptyString => true
  | String b0 s1 =>
      if between 0 127 b0 then well_formed s1
      else
        match s1 with
        | EmptyString => false
        | String b1 s2 =>
            if between 194 223 b0 then cont b1 && well_formed s2
            else
              match s2 with
              | EmptyString => false
              | String b2 s3 =>
                  if between 224 239 b0 then
                    (if between 224 224 b0 then between 160 191 b1
                     else if between 237 237 b0 then between 128 159 b1
                     else cont b1)
                    && cont b2 && well_formed s3
                  else
                    match s3 with
                    | EmptyString => false
                    | String b3 s4 =>
                        between 240 244 b0
                        && (if between 240 240 b0 then between 144 191 b1
                            else if between 244 244 b0 then between 128 143 b1
                            else cont b1)
                        && cont b2 && cont b3 && well_formed s4
                    end
              end
        end
  end.

Definition decode (b : string) : option string :=
  if well_formed b then Some b else None.

End Utf8.

(** ** The thread pool of [main] and [run_tidy]

    The program is a transition system: the main thread and the worker
    threads each have a program point, and a run is a sequence of actions,
    one thread stepping at a time. The result of an external process is an
    input of the step that launches it, and so is a [write] or a [flush]
    that raises. *)

Module Pool.

Import Cli.

Definition nl : string := String Re.newline EmptyString.

Inductive exn : Type :=
  | TypeError            (* iteration over [None] *)
  | ReError              (* [re.compile] rejected the pattern *)
  | OSError              (* [subprocess.Popen] could not start the binary *)
  | UnicodeDecodeError   (* [decode('utf-8')] *)
  | ValueError           (* [task_done()] called too many times *)
  | KeyboardInterrupt
  | WriteError.          (* [write] or [flush] raised: [UnicodeEncodeError],
                            [BrokenPipeError] or another [OSError] *)

(** [subprocess.Popen(invocation, ...)] then [proc.communicate()]. *)
Inductive proc_result : Type :=
  | LaunchFailure
  | Exited (returncode : Z) (output err : string).

Inductive thread : Type :=
  | MainThread
  | Worker (i : nat).

Inductive output : Type :=
  | StdoutWrite (text : string)
  | StdoutFlush
  | StderrWrite (text : string).

(** Program points of [run_tidy], with the locals that are live there. *)
Inductive worker_pc : Type :=
  | WGet                                             (* l.109 [queue.get()] *)
  | WPopen (name : string)                           (* l.110-113 *)
  | WCheck (name : string) (returncode : Z) (out err : string) (* l.114-115 *)
  | WAcquire (name out err : string)                 (* l.116 [with lock] *)
  | WWrite (name out err : string)                   (* l.117 *)
  | WFlush (name out err : string)                   (* l.119 *)
  | WWriteErr (name out err : string)                (* l.120 *)
  | WRelease (name out err : string)                 (* end of [with lock] *)
  | WTaskDone (name : string)                        (* l.121 *)
  | WDead (e : exn) (task : option string).          (* the thread has ended *)

(** Program points of [main] from the [try] on. *)
Inductive main_pc : Type :=
  | MSpawn (remaining : nat)       (* l.159-163; at 0, l.166 [iter(files)] *)
  | MEnqueue (rest : list string)  (* l.166-168 *)
  | MJoin                          (* l.171 *)
  | MCheck                         (* l.172-173, 184-186 *)
  | MHandler                       (* l.178 *)
  | MKill                          (* l.181 *)
  | MKilled                        (* the process group got signal 9 *)
  | MRaised (e : exn)              (* uncaught: traceback and exit *)
  | MExited (return_code : Z).     (* [sys.exit(return_code)] *)

Record state : Type := mkState {
  main : main_pc;
  workers : list worker_pc;        (* the threads, in the order of spawning *)
  task_queue : list string;        (* the items of [task_queue], oldest first *)
  unfinished_tasks : nat;          (* the counter behind [join]/[task_done] *)
  failed_files : list string;
  lock : option nat;               (* [None]: free; [Some i]: taken, by worker [i] *)
  console : list (thread * output); (* the calls on the two streams that
                                       returned, in order *)
  (* history, read by no step *)
  gets : list (nat * string);      (* worker [i] dequeued [name] *)
  popens : list (nat * string * proc_result) (* worker [i] ran the tool on [name] *)
}.

(** What the run is given: the parsed command line, the number of
    processors and the [re] module. Of [re.compile(pattern)] the program uses
    whether it raises ([None]) and, if not, the [search] of the compiled
    pattern, as a truth value. *)
Record config : Type := {
  args : Namespace;
  max_task : nat;                  (* [multiprocessing.cpu_count()] *)
  re_compile : string -> option (string -> bool)
}.

Inductive action : Type :=
  | Main                           (* the main thread steps *)
  | Interrupt                      (* SIGINT: [KeyboardInterrupt] in the main thread *)
  | Work (i : nat)                 (* worker [i] steps *)
  | Run (i : nat) (r : proc_result) (* worker [i] runs the tool, with result [r] *)
  | Fault (t : thread).            (* the [write] or [flush] thread [t] is at raises *)

Definition set_main (m : main_pc) (s : state) : state :=
  mkState m (workers s) (task_queue s) (unfinished_tasks s) (failed_files s)
    (lock s) (console s) (gets s) (popens s).

Definition set_worker (i : nat) (pc : worker_pc) (s : state) : state :=
  mkState (main s) (<[i := pc]> (workers s)) (task_queue s) (unfinished_tasks s)
    (failed_files s) (lock s) (console s) (gets s) (popens s).

Definition set_lock (b : option nat) (s : state) : state :=
  mkState (main s) (workers s) (task_queue s) (unfinished_tasks s)
    (failed_files s) b (console s) (gets s) (popens s).

Definition emit (t : thread) (o : output) (s : state) : state :=
  mkState (main s) (workers s) (task_queue s) (unfinished_tasks s)
    (failed_files s) (lock s) (console s ++ [(t, o)]) (gets s) (popens s).

(** [Queue.put]: blocks (no step) while a bounded queue is full. *)
Definition queue_full (maxsize : nat) (s : state) : bool :=
  (0 <? maxsize) && (maxsize <=? length (task_queue s)).

Definition put (name : string) (s : state) : state :=
  mkState (main s) (workers s) (task_queue s ++ [name])
    (S (unfinished_tasks s)) (failed_files s) (lock s) (console s) (gets s)
    (popens s).

Definition invocation (cfg : config) (name : string) : list string :=
  Invocation.get_tidy_invocation name (clang_tidy_binary (args cfg))
    (header_filter (args cfg)).

(** [file_name_re = re.compile('|'.join(args.files))], l.150. *)
Definition file_name_re (cfg : config) : option (string -> bool) :=
  re_compile cfg (String.concat "|" (files (args cfg))).

(** [file_name_re.search(name)], l.167. *)
Definition search_name (cfg : config) (name : string) : bool :=
  match file_name_re cfg with
  | Some search => search name
  | None => false
  end.

(** [print('\nCtrl-C detected, goodbye.')]: the text, then the end of
    line, each with a [write] of its own. *)
Definition notice : string := nl +:+ "Ctrl-C detected, goodbye.".

Definition print_notice : list (thread * output) :=
  [(MainThread, StdoutWrite notice); (MainThread, StdoutWrite nl)].

(** The state at the [try] of [main]: nothing spawned, nothing queued. *)
Definition init (cfg : config) : state :=
  mkState
    (match file_name_re cfg with
     | Some _ => MSpawn (max_task cfg)
     | None => MRaised ReError
     end)
    [] [] 0 [] None [] [] [].

(** One step of [main]. *)
Definition main_step (cfg : config) (s : state) : option state :=
  match main s with
  | MSpawn (S k) =>
      Some (mkState (MSpawn k) (workers s ++ [WGet]) (task_queue s)
              (unfinished_tasks s) (failed_files s) (lock s) (console s)
              (gets s) (popens s))
  | MSpawn 0 =>
      match cpp (args cfg) with
      | None => Some (set_main (MRaised TypeError) s)
      | Some names => Some (set_main (MEnqueue names) s)
      end
  | MEnqueue [] => Some (set_main MJoin s)
  | MEnqueue (name :: rest) =>
      if search_name cfg name then
        if queue_full (max_task cfg) s then None
        else Some (set_main (MEnqueue rest) (put name s))
      else Some (set_main (MEnqueue rest) s)
  | MJoin =>
      if unfinished_tasks s =? 0 then Some (set_main MCheck s) else None
  | MCheck =>
      Some (set_main
              (MExited (if length (failed_files s) =? 0 then 0%Z else 1%Z)) s)
  | MHandler =>
      Some (set_main MKill
              (emit MainThread (StdoutWrite nl)
                 (emit MainThread (StdoutWrite notice) s)))
  | MKill => Some (set_main MKilled s)
  | MKilled | MRaised _ | MExited _ => None
  end.

Definition interrupt_step (s : state) : option state :=
  match main s with
  | MSpawn _ | MEnqueue _ | MJoin | MCheck => Some (set_main MHandler s)
  | MHandler | MKill => Some (set_main (MRaised KeyboardInterrupt) s)
  | MKilled | MRaised _ | MExited _ => None
  end.

(** One step of [run_tidy] in worker [i] standing at [pc]; [input] is the
    result of the external process, given exactly at the step that launches
    it. *)
Definition run_tidy_step (cfg : config) (i : nat) (input : option proc_result)
    (pc : worker_pc) (s : state) : option state :=
  match pc, input with
  | WGet, None =>
      match task_queue s with
      | [] => None
      | name :: q =>
          Some (mkState (main s) (<[i := WPopen name]> (workers s)) q
                  (unfinished_tasks s) (failed_files s) (lock s) (console s)
                  (gets s ++ [(i, name)]) (popens s))
      end
  | WPopen name, Some r =>
      Some (mkState (main s)
              (<[i := match r with
                      | LaunchFailure => WDead OSError (Some name)
                      | Exited rc out err => WCheck name rc out err
                      end]> (workers s))
              (task_queue s) (unfinished_tasks s) (failed_files s) (lock s)
              (console s) (gets s) (popens s ++ [(i, name, r)]))
  | WCheck name rc out err, None =>
      Some (mkState (main s) (<[i := WAcquire name out err]> (workers s))
              (task_queue s) (unfinished_tasks s)
              (if (rc =? 0)%Z then failed_files s else failed_files s ++ [name])
              (lock s) (console s) (gets s) (popens s))
  | WAcquire name out err, None =>
      match lock s with
      | Some _ => None
      | None => Some (set_worker i (WWrite name out err) (set_lock (Some i) s))
      end
  | WWrite name out err, None =>
      match Utf8.decode out with
      | None =>
          Some (set_worker i (WDead UnicodeDecodeError (Some name))
                  (set_lock None s))
      | Some text =>
          Some (set_worker i
                  (if String.length err =? 0 then WRelease name out err
                   else WFlush name out err)
                  (emit (Worker i)
                     (StdoutWrite
                        (String.concat " " (invocation cfg name) +:+ nl +:+ text))
                     s))
      end
  | WFlush name out err, None =>
      Some (set_worker i (WWriteErr name out err)
              (emit (Worker i) StdoutFlush s))
  | WWriteErr name out err, None =>
      match Utf8.decode err with
      | None =>
          Some (set_worker i (WDead UnicodeDecodeError (Some name))
                  (set_lock None s))
      | Some text =>
          Some (set_worker i (WRelease name out err)
                  (emit (Worker i) (StderrWrite text) s))
      end
  | WRelease name out err, None =>
      Some (set_worker i (WTaskDone name) (set_lock None s))
  | WTaskDone name, None =>
      match unfinished_tasks s with
      | 0 => Some (set_worker i (WDead ValueError None) s)
      | S n =>
          Some (mkState (main s) (<[i := WGet]> (workers s)) (task_queue s) n
                  (failed_files s) (lock s) (console s) (gets s) (popens s))
      end
  | _, _ => None
  end.

(** The [print] of the handler raises: the exception leaves the handler
    and [main], and [os.kill] is not reached. *)
Definition main_fault (s : state) : option state :=
  match main s with
  | MHandler => Some (set_main (MRaised WriteError) s)
  | _ => None
  end.

(** The [write] of l.117 or l.120 (its argument decoded) or the [flush] of
    l.119 raises in worker [i]: nothing is written, [with lock] gives the
    lock back and the thread ends. *)
Definition run_tidy_fault (i : nat) (pc : worker_pc) (s : state) : option state :=
  match pc with
  | WWrite name out _ =>
      match Utf8.decode out with
      | Some _ => Some (set_worker i (WDead WriteError (Some name)) (set_lock None s))
      | None => None
      end
  | WFlush name _ _ =>
      Some (set_worker i (WDead WriteError (Some name)) (set_lock None s))
  | WWriteErr name _ err =>
      match Utf8.decode err with
      | Some _ => Some (set_worker i (WDead WriteError (Some name)) (set_lock None s))
      | None => None
      end
  | _ => None
  end.

(** Once the process has ended no thread of it steps. *)
Definition process_ended (s : state) : bool :=
  match main s with
  | MKilled | MRaised _ | MExited _ => true
  | _ => false
  end.

Definition exec (cfg : config) (a : action) (s : state) : option state :=
  if process_ended s then None
  else
    match a with
    | Main => main_step cfg s
    | Interrupt => interrupt_step s
    | Work i => pc ← workers s !! i; run_tidy_step cfg i None pc s
    | Run i r => pc ← workers s !! i; run_tidy_step cfg i (Some r) pc s
    | Fault MainThread => main_fault s
    | Fault (Worker i) => pc ← workers s !! i; run_tidy_fault i pc s
    end.

(** A run: the actions of a schedule, one after the other. *)
Fixpoint run (cfg : config) (sched : list action) (s : state) : option state :=
  match sched with
  | [] => Some s
  | a :: sched' => s' ← exec cfg a s; run cfg sched' s'
  end.

Definition reachable (cfg : config) (s : state) : Prop :=
  exists sched, run cfg sched (init cfg) = Some s.

(** The status the process ends with: the argument of [sys.exit], or 1
    after the traceback of an exception that nothing catches. For a
    [KeyboardInterrupt] that nothing catches, and for the process that
    signal 9 killed, the model gives none. *)
Definition exit_status (m : main_pc) : option Z :=
  match m with
  | MExited c => Some c
  | MRaised KeyboardInterrupt => None
  | MRaised _ => Some 1%Z
  | _ => None
  end.

(** What was written to [sys.stdout], by whatever thread, since its last
    flush: what a stream that does not pass its text on at once still
    holds. *)
Definition buffer_step (buf : list string) (e : thread * output) : list string :=
  match e.2 with
  | StdoutWrite text => buf ++ [text]
  | StdoutFlush => []
  | StderrWrite _ => buf
  end.

Definition stdout_buffer (con : list (thread * output)) : list string :=
  foldl buffer_step [] con.

(** *** What the threads hold *)

(** The task a worker has taken out of the queue and not marked as done. *)
Definition task_of (pc : worker_pc) : option string :=
  match pc with
  | WGet => None
  | WPopen n | WCheck n _ _ _ | WAcquire n _ _ | WWrite n _ _
  | WFlush n _ _ | WWriteErr n _ _ | WRelease n _ _ | WTaskDone n => Some n
  | WDead _ t => t
  end.

Definition holds_task (pc : worker_pc) : nat :=
  match task_of pc with Some _ => 1 | None => 0 end.

(** The number of workers between a [get] and its [task_done]. *)
Definition holding (ws : list worker_pc) : nat := sum_list_with holds_task ws.

(** The name a worker has dequeued and not yet run the tool on. *)
Definition pending_popen (pc : worker_pc) : list string :=
  match pc with WPopen n => [n] | _ => [] end.

(** The name a worker is about to append to [failed_files]. *)
Definition pending_fail (pc : worker_pc) : list string :=
  match pc with
  | WCheck n rc _ _ => if (rc =? 0)%Z then [] else [n]
  | _ => []
  end.

(** The program points inside [with lock]. *)
Definition in_region (pc : worker_pc) : bool :=
  match pc with
  | WWrite _ _ _ | WFlush _ _ _ | WWriteErr _ _ _ | WRelease _ _ _ => true
  | _ => false
  end.

(** *** The history of a run *)

Definition popen_name (e : nat * string * proc_result) : string := e.1.2.

Definition exited_nonzero (r : proc_result) : bool :=
  match r with
  | Exited rc _ _ => negb (rc =? 0)%Z
  | LaunchFailure => false
  end.

Definition exited_zero (r : proc_result) : bool :=
  match r with
  | Exited rc _ _ => (rc =? 0)%Z
  | LaunchFailure => false
  end.

(** The names the tool was launched on, in the order of the launches. *)
Definition launched (s : state) : list string := popen_name <$> popens s.

(** The names whose run of the tool ended with a status other than zero. *)
Definition failures (s : state) : list string :=
  popen_name <$> filter (fun e => exited_nonzero e.2 = true) (popens s).

(** The names put in the queue so far, in the order of the puts: those
    taken out, then those still in. *)
Definition enqueued (s : state) : list string := (gets s).*2 ++ task_queue s.

(** The candidate file names: [args.cpp]. *)
Definition candidates (cfg : config) : list string := default [] (cpp (args cfg)).

(** The candidates the selection keeps. *)
Definition matching (cfg : config) : list string :=
  filter (fun name => search_name cfg name = true) (candidates cfg).

(** What the enqueue loop has still to look at, as far as the program point
    of the main thread tells. *)
Definition todo_of (cfg : config) (m : main_pc) (todo : list string) : Prop :=
  match m with
  | MSpawn _ => todo = candidates cfg
  | MEnqueue rest => todo = rest
  | MJoin | MCheck | MExited _ => todo = []
  | MHandler | MKill | MKilled | MRaised _ => True
  end.

(** The drained state: [join] has returned. *)
Definition drained (m : main_pc) : bool :=
  match m with
  | MCheck | MExited _ => true
  | _ => false
  end.

(** *** What an emission writes *)

Definition header (cfg : config) (name : string) : string :=
  String.concat " " (invocation cfg name).

Definition wrote (cfg : config) (i : nat) (name out : string) : thread * output :=
  (Worker i, StdoutWrite (header cfg name +:+ nl +:+ out)).

(** The writes of one pass through [with lock]: the invocation and the
    standard output of the tool in one write, then, when the tool wrote to
    its standard error, a flush and that text (nothing after the flush when
    the text does not decode). *)
Definition emission (cfg : config) (i : nat) (name out err : string)
    : list (thread * output) :=
  wrote cfg i name out ::
  if String.length err =? 0 then []
  else (Worker i, StdoutFlush) ::
       match Utf8.decode err with
       | Some text => [(Worker i, StderrWrite text)]
       | None => []
       end.

Definition by_worker (e : thread * output) : bool :=
  match e.1 with
  | Worker _ => true
  | MainThread => false
  end.

(** What the workers wrote, in order. *)
Definition worker_console (s : state) : list (thread * output) :=
  filter (fun e => by_worker e = true) (console s).

(** The writes already made by worker [i] in its current pass through
    [with lock] are [cur]. *)
Definition partial_emission (cfg : config) (i : nat) (pc : worker_pc)
    (cur : list (thread * output)) : Prop :=
  match pc with
  | WWrite _ _ _ => cur = []
  | WFlush n o e => String.length e <> 0 /\ cur = [wrote cfg i n o]
  | WWriteErr n o e =>
      String.length e <> 0 /\ cur = [wrote cfg i n o; (Worker i, StdoutFlush)]
  | WRelease n o e => cur = emission cfg i n o e
  | _ => False
  end.

Definition current_emission (cfg : config) (s : state)
    (cur : list (thread * output)) : Prop :=
  match lock s with
  | None => cur = []
  | Some i => exists pc, workers s !! i = Some pc /\ partial_emission cfg i pc cur
  end.

(** *** A schedule that runs the workers one task at a time *)

(** The steps of worker [i] on one task whose run of the tool gives [r]. *)
Definition serve (i : nat) (r : proc_result) : list action :=
  match r with
  | LaunchFailure => [Work i; Run i r]
  | Exited _ _ err =>
      [Work i; Run i r; Work i; Work i; Work i]
      ++ (if String.length err =? 0 then [] else [Work i; Work i])
      ++ [Work i; Work i]
  end.

(** The main thread spawns the pool, then hands every selected name to
    worker 0 and lets it finish before going on; [tool] gives the result of
    the external process on each name. *)
Definition feed (cfg : config) (tool : string -> proc_result)
    (names : list string) : list action :=
  names ≫= (fun name =>
    if search_name cfg name then Main :: serve 0 (tool name) else [Main]).

Definition sequential (cfg : config) (tool : string -> proc_result) : list action :=
  replicate (max_task cfg) Main ++ [Main]
  ++ feed cfg tool (candidates cfg) ++ [Main; Main; Main].

(** A tool that always starts and whose output decodes. *)
Definition well_behaved (tool : string -> proc_result) : Prop :=
  forall name, exists rc out err,
    tool name = Exited rc out err /\
    Utf8.well_formed out = true /\ Utf8.well_formed err = true.

(** The names on which [tool] ends with a status other than zero. *)
Definition failing (tool : string -> proc_result) (names : list string)
    : list string :=
  filter (fun name => exited_nonzero (tool name) = true) names.

(** The exit code of a run on which the tool behaves as [tool]. *)
Definition expected_code (cfg : config) (tool : string -> proc_result) : Z :=
  if existsb (fun name => exited_nonzero (tool name)) (matching cfg)
  then 1%Z else 0%Z.

(** *** A run, for example *)

Definition example_cfg : config :=
  {| args := parse_args
       {| given_clang_tidy_binary := None;
          given_header_filter := None;
          given_files := ["a.*"; "b.*"];
          given_cpp := Some ["apple.cpp"; "cherry.hpp"; "banana.cpp"] |};
     max_task := 2;
     re_compile := Re.library |}.

Definition example_cfg_no_cpp : config :=
  {| args := parse_args example_no_cpp; max_task := 2;
     re_compile := Re.library |}.

(** The tool fails on [banana.cpp] and writes to its standard error. *)
Definition example_tool (name : string) : proc_result :=
  if String.eqb name "banana.cpp" then Exited 1 "warning" "1 error"
  else Exited 0 "" "".

(** Both workers busy at once; the second to start is the first to
    write. *)
Definition example_sched : list action :=
  [Main; Main; Main; Main; Work 1; Main; Main; Work 0;
   Run 0 (example_tool "banana.cpp"); Run 1 (example_tool "apple.cpp");
   Work 0; Work 1; Work 0; Work 0; Work 0; Work 0; Work 0; Work 1; Work 1;
   Main; Work 0; Work 1; Work 1; Main; Main].

Definition example_final : state :=
  Eval vm_compute in
    default (init example_cfg) (run example_cfg example_sched (init example_cfg)).

(** The same run, cut when worker 0 has dequeued [apple.cpp]. *)
Definition example_start : state :=
  Eval vm_compute in
    default (init example_cfg)
      (run example_cfg [Main; Main; Main; Main; Work 0] (init example_cfg)).

(** The same run, cut when worker 0 has flushed the standard output and
    worker 1 waits for the lock. *)
Definition example_middle : state :=
  Eval vm_compute in
    default (init example_cfg)
      (run example_cfg (take 15 example_sched) (init example_cfg)).

(** The same run, interrupted when worker 0 has dequeued [apple.cpp], the
    handler run to its end. *)
Definition example_killed : state :=
  Eval vm_compute in
    default (init example_cfg)
      (run example_cfg
         [Main; Main; Main; Main; Work 0; Interrupt; Main; Main]
         (init example_cfg)).

(** One worker and two candidates, no pattern given. *)
Definition one_worker_cfg : config :=
  {| args := parse_args
       {| given_clang_tidy_binary := None;
          given_header_filter := None;
          given_files := [];
          given_cpp := Some ["a.cpp"; "b.cpp"] |};
     max_task := 1;
     re_compile := Re.library |}.

(** The binary cannot be started on [a.cpp]. *)
Definition stranded_sched : list action :=
  [Main; Main; Main; Work 0; Main; Main; Run 0 LaunchFailure].

Definition stranded : state :=
  Eval vm_compute in
    default (init one_worker_cfg)
      (run one_worker_cfg stranded_sched (init one_worker_cfg)).

(** The tool ends with status zero on [a.cpp], with an output that is not
    UTF-8. *)
Definition garbled_sched : list action :=
  [Main; Main; Main; Work 0; Main; Main;
   Run 0 (Exited 0 (String "255" "") ""); Work 0; Work 0; Work 0].

Definition garbled : state :=
  Eval vm_compute in
    default (init one_worker_cfg)
      (run one_worker_cfg garbled_sched (init one_worker_cfg)).

End Pool.
(** ** Merging of the replacement files

    [merge_replacement_files(tmpdir, mergefile)]. The directory is given by
    its entries, in the order in which [glob.iglob] meets them; the result is
    what the call leaves in [mergefile], or the exception it raises. *)

Module Merge.

(** What [yaml.safe_load] can return: Python values. A mapping has string
    keys. *)
#[warnings="-register-all"]
Inductive yaml : Type :=
  | YNull : yaml
  | YBool : bool -> yaml
  | YInt : Z -> yaml
  | YStr : string -> yaml
  | YSeq : list yaml -> yaml
  | YMap : gmap string yaml -> yaml.

(** The content of a file, as far as [yaml] tells contents apart. *)
Inductive file_content : Type :=
  | Blank                (* no byte at all *)
  | Document (doc : yaml)  (* the text [yaml.safe_dump] gives for [doc] *)
  | Malformed.           (* a text that is no YAML *)

Inductive exn : Type :=
  | AttributeError
  | TypeError
  | YAMLError.

Inductive result (A : Type) : Type :=
  | Returns (a : A)
  | Raises (e : exn).
Arguments Returns {A} a.
Arguments Raises {A} e.

#[global] Instance result_bind : MBind result := fun A B k r =>
  match r with
  | Returns a => k a
  | Raises e => Raises e
  end.

(** [yaml.safe_load(open(replacefile, 'r'))]; [yaml] is [None] when the
    import of the module failed. *)
Definition safe_load (yaml_imported : bool) (c : file_content) : result yaml :=
  if yaml_imported then
    match c with
    | Blank => Returns YNull
    | Document doc => Returns doc
    | Malformed => Raises YAMLError
    end
  else Raises AttributeError.

(** Truth value of a Python value ([if not content]). *)
Definition truthy (v : yaml) : bool :=
  match v with
  | YNull => false
  | YBool b => b
  | YInt z => negb (z =? 0)%Z
  | YStr s => negb (String.length s =? 0)
  | YSeq l => negb (length l =? 0)
  | YMap m => negb (size m =? 0)
  end.

(** [content.get(mergekey, [])]: only a mapping has [get]. *)
Definition get (content : yaml) (key : string) (dflt : yaml) : result yaml :=
  match content with
  | YMap m => Returns (default dflt (m !! key))
  | _ => Raises AttributeError
  end.

(** The elements [merged.extend(v)] appends: those of an iterable. Of a
    mapping these are the keys, here in the order of [map_to_list] where
    Python has the order of insertion; of a string, its characters, here one
    for each element of the [string]. *)
Definition iterate (v : yaml) : result (list yaml) :=
  match v with
  | YSeq l => Returns l
  | YStr s => Returns ((fun c => YStr (String c EmptyString)) <$> String.list_ascii_of_string s)
  | YMap m => Returns (YStr <$> (map_to_list m).*1)
  | YNull | YBool _ | YInt _ => Raises TypeError
  end.

(** [fnmatch] of a name of the directory against [*.yaml], as [glob] does
    it: a name that starts with a dot is hidden from a pattern that does
    not. *)
Definition ends_with (suffix s : string) : bool :=
  let n := String.length s in
  let k := String.length suffix in
  (k <=? n) && String.eqb (String.substring (n - k) k s) suffix.

Definition glob_yaml (name : string) : bool :=
  negb (String.prefix "." name) && ends_with ".yaml" name.

Definition mergekey : string := "Diagnostics".

(** The loop of l.87-91, over the files [glob.iglob] yields. *)
Fixpoint merge_loop (yaml_imported : bool) (globbed : list (string * file_content))
    (merged : list yaml) : result (list yaml) :=
  match globbed with
  | [] => Returns merged
  | (replacefile, c) :: rest =>
      content ← safe_load yaml_imported c;
      if negb (truthy content) then merge_loop yaml_imported rest merged
      else
        v ← get content mergekey (YSeq []);
        items ← iterate v;
        merge_loop yaml_imported rest (merged ++ items)
  end.

Definition merge_replacement_files (yaml_imported : bool)
    (tmpdir : list (string * file_content)) : result file_content :=
  merged ← merge_loop yaml_imported
             (filter (fun e => glob_yaml e.1 = true) tmpdir) [];
  if negb (length merged =? 0) then
    Returns (Document (YMap {[ "MainSourceFile" := YStr ""; mergekey := YSeq merged ]}))
  else Returns Blank.

(** The ['Diagnostics'] list of a replacement file: that of a mapping that
    has one. *)
Definition diagnostics (c : file_content) : list yaml :=
  match c with
  | Document (YMap m) =>
      match m !! mergekey with
      | Some (YSeq l) => l
      | _ => []
      end
  | _ => []
  end.

(** A file as clang-tidy writes them: empty, or a mapping whose
    ['Diagnostics'], if any, is a list. *)
Definition replacement_file (c : file_content) : Prop :=
  match c with
  | Blank => True
  | Document doc =>
      truthy doc = false \/
      exists m, doc = YMap m /\
        (m !! mergekey = None \/ exists l, m !! mergekey = Some (YSeq l))
  | Malformed => False
  end.

(** The document written for a non-empty list of diagnostics. *)
Definition merged_document (merged : list yaml) : gmap string yaml :=
  {[ "MainSourceFile" := YStr ""; "Diagnostics" := YSeq merged ]}.

(** The diagnostics of the [*.yaml] files of a directory, in the order of
    the files. *)
Definition all_diagnostics (tmpdir : list (string * file_content)) : list yaml :=
  filter (fun e => glob_yaml e.1 = true) tmpdir ≫= (fun e => diagnostics e.2).

End Merge.


(** ** Invariants of the thread pool *)

Module PoolInv.

Import Cli Pool.

(** The counter of unfinished tasks counts the names in the queue and the
    names the workers hold; it is zero once [join] has returned. *)
Definition accounting (s : state) : Prop :=
  unfinished_tasks s = length (task_queue s) + holding (workers s) /\
  (drained (main s) = true -> unfinished_tasks s = 0).

(** The names put in the queue so far and the selected ones among those the
    enqueue loop has still to look at are the selected candidates. *)
Definition fifo (cfg : config) (s : state) : Prop :=
  exists todo, todo_of cfg (main s) todo /\
    enqueued s ++ filter (fun name => search_name cfg name = true) todo
    = matching cfg.

(** Every name taken out of the queue was run once, or is about to be. *)
Definition launches (s : state) : Prop :=
  (gets s).*2 ≡ₚ launched s ++ (workers s ≫= pending_popen).

(** The failure list holds the names whose run ended with a status other
    than zero, but for those about to be appended. *)
Definition failure_list (s : state) : Prop :=
  failed_files s ++ (workers s ≫= pending_fail) ≡ₚ failures s.

(** A worker whose launch failed has ended, its task in hand. *)
Definition dead_launches (s : state) : Prop :=
  forall i n, (i, n, LaunchFailure) ∈ popens s ->
    workers s !! i = Some (WDead OSError (Some n)).

(** The exit code is the one the failure list gives. *)
Definition exit_code (s : state) : Prop :=
  forall c, main s = MExited c ->
    c = if length (failed_files s) =? 0 then 0%Z else 1%Z.

Definition emission_of (cfg : config) (b : nat * string * string * string)
    : list (thread * output) :=
  emission cfg b.1.1.1 b.1.1.2 b.1.2 b.2.

(** A worker inside [with lock] is the one that took the lock, and what
    the workers wrote is a sequence of whole emissions, then the writes the
    holder of the lock has made so far. (The writes of a pass that a [flush]
    or a [write] that raised cut short are those of the emission of a run
    without standard error, or of one whose standard error does not
    decode.) *)
Definition exclusion (cfg : config) (s : state) : Prop :=
  (forall j pc, workers s !! j = Some pc -> in_region pc = true -> lock s = Some j) /\
  exists blocks cur,
    worker_console s = (blocks ≫= emission_of cfg) ++ cur /\
    current_emission cfg s cur.

(** Without [-cpp] the main thread never gets into the enqueue loop. *)
Definition needs_cpp (cfg : config) (s : state) : Prop :=
  cpp (args cfg) = None ->
  match main s with
  | MSpawn _ | MRaised _ | MHandler | MKill | MKilled => True
  | MEnqueue _ | MJoin | MCheck | MExited _ => False
  end.

(** The pool has at most [max_task] threads, all of them once the main
    thread is past the spawning, and only they take names. *)
Definition pool_size (cfg : config) (s : state) : Prop :=
  match main s with
  | MSpawn k => length (workers s) + k = max_task cfg
  | MEnqueue _ | MJoin | MCheck | MExited _ => length (workers s) = max_task cfg
  | MHandler | MKill | MKilled | MRaised _ => length (workers s) <= max_task cfg
  end /\
  Forall (fun e => e.1 < length (workers s)) (gets s).

(** The names worker [i] took out of the queue, and those it ran the tool
    on. *)
Definition got (i : nat) (s : state) : list string :=
  (filter (fun e => e.1 = i) (gets s)).*2.

Definition ran (i : nat) (s : state) : list string :=
  popen_name <$> filter (fun e => e.1.1 = i) (popens s).

(** A worker runs the tool on the names it took itself, in the order it
    took them. *)
Definition own_launches (s : state) : Prop :=
  forall i, got i s = ran i s ++ from_option pending_popen [] (workers s !! i).

(** The main thread after a [KeyboardInterrupt] in the [try]: in the
    handler, or out of it on an exception, the notice printed once past its
    first line. *)
Definition interrupted (s : state) : Prop :=
  match main s with
  | MHandler | MRaised KeyboardInterrupt | MRaised WriteError => True
  | MKill | MKilled => exists con con', console s = con ++ print_notice ++ con'
  | _ => False
  end.

(** The exceptions of the main thread that no interrupt brings about:
    that of [re.compile], and that of the loop over a list of candidates
    that is [None]. *)
Definition raised_cause (cfg : config) (s : state) : Prop :=
  match main s with
  | MRaised ReError => file_name_re cfg = None
  | MRaised TypeError => cpp (args cfg) = None
  | _ => True
  end.

Record invariant (cfg : config) (s : state) : Prop := {
  inv_own_launches : own_launches s;
  inv_accounting : accounting s;
  inv_fifo : fifo cfg s;
  inv_launches : launches s;
  inv_failure_list : failure_list s;
  inv_dead_launches : dead_launches s;
  inv_exit_code : exit_code s;
  inv_exclusion : exclusion cfg s;
  inv_needs_cpp : needs_cpp cfg s;
  inv_pool_size : pool_size cfg s
}.

End PoolInv.

(** ** More on the thread pool: bounds, deaths, output *)

Module PoolMore.

Import Cli Pool PoolInv.

(** A bounded queue never holds more names than its size. *)
Definition queue_bounded (cfg : config) (s : state) : Prop :=
  1 <= max_task cfg -> length (task_queue s) <= max_task cfg.

(** A worker ends only on a launch that fails, an output that does not
    decode or a [write] or [flush] that raises, and then with its task in
    hand. *)
Definition deaths_hold_task (s : state) : Prop :=
  forall i e t, workers s !! i = Some (WDead e t) ->
    (e = OSError \/ e = UnicodeDecodeError \/ e = WriteError) /\ is_Some t.

(** A worker at a point where it can step whatever the queue and the lock
    are. *)
Definition busy (pc : worker_pc) : bool :=
  match pc with
  | WGet | WAcquire _ _ _ | WDead _ _ => false
  | _ => true
  end.

Definition wants_lock (pc : worker_pc) : bool :=
  match pc with
  | WAcquire _ _ _ => true
  | _ => false
  end.

Definition alive (pc : worker_pc) : bool :=
  match pc with
  | WDead _ _ => false
  | _ => true
  end.

(** An action of a thread of the program, as opposed to a signal and to
    a [write] or a [flush] that raises. *)
Definition of_thread (a : action) : bool :=
  match a with
  | Interrupt | Fault _ => false
  | _ => true
  end.

(** A schedule on which no [write] and no [flush] raises. *)
Definition no_fault (a : action) : bool :=
  match a with
  | Fault _ => false
  | _ => true
  end.

(** *** What is written, and what is to be *)

(** The texts the workers wrote to the standard output, and to the standard
    error, in order. *)
Definition stdout_of (e : thread * output) : option string :=
  match e with
  | (Worker _, StdoutWrite text) => Some text
  | _ => None
  end.

Definition stderr_of (e : thread * output) : option string :=
  match e with
  | (Worker _, StderrWrite text) => Some text
  | _ => None
  end.

Definition stdout_writes (s : state) : list string := omap stdout_of (console s).

Definition stderr_writes (s : state) : list string := omap stderr_of (console s).

(** What the main thread wrote. *)
Definition main_writes (s : state) : list (thread * output) :=
  filter (fun e => by_worker e = false) (console s).

(** The text of l.117 for a run of the tool on [name] that printed [out]. *)
Definition stdout_text (cfg : config) (name out : string) : string :=
  header cfg name +:+ nl +:+ out.

(** What the runs of the tool so far call for on the standard output, and
    on the standard error. *)
Definition expected_stdout (cfg : config)
    (p : list (nat * string * proc_result)) : list string :=
  p ≫= (fun e => match e.2 with
                 | Exited _ out _ => [stdout_text cfg e.1.2 out]
                 | LaunchFailure => []
                 end).

Definition stderr_text (err : string) : list string :=
  if String.length err =? 0 then [] else [err].

Definition expected_stderr (p : list (nat * string * proc_result)) : list string :=
  p ≫= (fun e => match e.2 with
                 | Exited _ _ err => stderr_text err
                 | LaunchFailure => []
                 end).

(** What a worker has still to write of the run it holds. *)
Definition unwritten_out (cfg : config) (pc : worker_pc) : list string :=
  match pc with
  | WCheck n _ o _ | WAcquire n o _ | WWrite n o _ => [stdout_text cfg n o]
  | _ => []
  end.

Definition unwritten_err (pc : worker_pc) : list string :=
  match pc with
  | WCheck _ _ _ e | WAcquire _ _ e | WWrite _ _ e => stderr_text e
  | WFlush _ _ e | WWriteErr _ _ e => [e]
  | _ => []
  end.

(** A worker that ended inside [with lock], on an output that does not
    decode or on a [write] or a [flush] that raised. *)
Definition undecoded (pc : worker_pc) : nat :=
  match pc with
  | WDead UnicodeDecodeError _ | WDead WriteError _ => 1
  | _ => 0
  end.

(** Nothing is written that no run of the tool calls for, and what is
    called for is written, about to be, or lost with a worker that ended. *)
Definition written (cfg : config) (s : state) : Prop :=
  stdout_writes s ++ (workers s ≫= unwritten_out cfg)
    ⊆+ expected_stdout cfg (popens s) /\
  length (expected_stdout cfg (popens s))
    <= length (stdout_writes s) + length (workers s ≫= unwritten_out cfg)
       + sum_list_with undecoded (workers s) /\
  stderr_writes s ++ (workers s ≫= unwritten_err)
    ⊆+ expected_stderr (popens s) /\
  length (expected_stderr (popens s))
    <= length (stderr_writes s) + length (workers s ≫= unwritten_err)
       + sum_list_with undecoded (workers s).

(** The main thread writes nothing but the notice of the handler. *)
Definition main_silent (s : state) : Prop :=
  match main s with
  | MKill | MKilled | MRaised KeyboardInterrupt =>
      main_writes s = [] \/ main_writes s = print_notice
  | _ => main_writes s = []
  end.

(** *** How many steps are left *)

(** The steps a worker has still to take on the task it holds. *)
Definition rank_worker (pc : worker_pc) : nat :=
  match pc with
  | WGet | WDead _ _ => 0
  | WPopen _ => 8
  | WCheck _ _ _ _ => 7
  | WAcquire _ _ _ => 6
  | WWrite _ _ _ => 5
  | WFlush _ _ _ => 4
  | WWriteErr _ _ _ => 3
  | WRelease _ _ _ => 2
  | WTaskDone _ => 1
  end.

(** The steps the main thread has still to take, with those of the tasks
    it has still to put in the queue: one step for the [put] and nine for
    the worker that takes the task. *)
Definition rank_main (cfg : config) (m : main_pc) : nat :=
  match m with
  | MSpawn k => k + 6 + 10 * length (candidates cfg)
  | MEnqueue rest => 5 + 10 * length rest
  | MJoin => 4
  | MCheck => 3
  | MHandler => 2
  | MKill => 1
  | MKilled | MRaised _ | MExited _ => 0
  end.

Definition steps_left (cfg : config) (s : state) : nat :=
  rank_main cfg (main s) + 9 * length (task_queue s)
  + sum_list_with rank_worker (workers s).

(** *** Where the locals of a worker come from *)

(** What a worker holds of a run of the tool is what that run gave, and a
    worker that has ended did so on a launch that failed, on an output of
    its own run that does not decode, or on a [write] or a [flush] that
    raised while it emitted its own run. *)
Definition came_from (p : list (nat * string * proc_result)) (i : nat)
    (pc : worker_pc) : Prop :=
  match pc with
  | WCheck n rc o e => (i, n, Exited rc o e) ∈ p
  | WAcquire n o e | WWrite n o e | WFlush n o e | WWriteErr n o e
  | WRelease n o e =>
      exists rc, (i, n, Exited rc o e) ∈ p
  | WDead OSError t => exists n, t = Some n /\ (i, n, LaunchFailure) ∈ p
  | WDead UnicodeDecodeError t =>
      exists n rc o e, t = Some n /\ (i, n, Exited rc o e) ∈ p /\
        (Utf8.decode o = None \/ Utf8.decode e = None)
  | WDead WriteError t =>
      exists n rc o e, t = Some n /\ (i, n, Exited rc o e) ∈ p
  | _ => True
  end.

Definition provenance (s : state) : Prop :=
  forall i pc, workers s !! i = Some pc -> came_from (popens s) i pc.

(** No [write] and no [flush] has raised. *)
Definition no_write_error (s : state) : Prop :=
  main s <> MRaised WriteError /\
  forall i t, workers s !! i <> Some (WDead WriteError t).

(** A run of the tool that started and whose output decodes. *)
Definition decodable (r : proc_result) : bool :=
  match r with
  | LaunchFailure => false
  | Exited _ out err => Utf8.well_formed out && Utf8.well_formed err
  end.

(** The program points of the main thread on a run without interrupt, the
    patterns compiled and [-cpp] given. *)
Definition on_course (m : main_pc) : bool :=
  match m with
  | MSpawn _ | MEnqueue _ | MJoin | MCheck | MExited _ => true
  | _ => false
  end.

(** The invariants of this part, together. *)
Record invariant_more (cfg : config) (s : state) : Prop := {
  more_base : invariant cfg s;
  more_queue_bounded : queue_bounded cfg s;
  more_deaths_hold_task : deaths_hold_task s;
  more_written : written cfg s;
  more_main_silent : main_silent s
}.

End PoolMore.

(** ** Paths: [make_absolute]

    [os.path] is modelled as [posixpath]: [isabs], [join] of two paths and
    [normpath], on strings. *)

Module Path.

(** [os.path.isabs(s)]: [s.startswith('/')]. *)
Definition isabs (s : string) : bool := String.prefix "/" s.

(** [os.path.join(a, b)]. *)
Definition join (a b : string) : string :=
  if String.prefix "/" b then b
  else if (String.length a =? 0) || Merge.ends_with "/" a then a +:+ b
  else a +:+ "/" +:+ b.

(** [path.split('/')]. *)
Fixpoint split (path : string) : list string :=
  match path with
  | EmptyString => [EmptyString]
  | String c rest =>
      if Ascii.eqb c "/" then EmptyString :: split rest
      else
        match split rest with
        | comp :: comps => String c comp :: comps
        | [] => [String c EmptyString]
        end
  end.

(** One or two initial slashes are kept, three or more are one. *)
Definition initial_slashes (path : string) : nat :=
  if String.prefix "/" path then
    if String.prefix "//" path && negb (String.prefix "///" path) then 2 else 1
  else 0.

(** The body of the loop of [normpath] over the components. *)
Definition push (initial : nat) (new_comps : list string) (comp : string)
    : list string :=
  if String.eqb comp "" || String.eqb comp "." then new_comps
  else if negb (String.eqb comp "..")
          || ((initial =? 0) && (length new_comps =? 0))
          || (negb (length new_comps =? 0)
              && from_option (String.eqb "..") false (last new_comps))
  then new_comps ++ [comp]
  else removelast new_comps.

Fixpoint slashes (n : nat) : string :=
  match n with
  | 0 => EmptyString
  | S n' => String "/" (slashes n')
  end.

(** [os.path.normpath(path)]. *)
Definition normpath (path : string) : string :=
  if String.length path =? 0 then "."
  else
    let initial := initial_slashes path in
    let comps := foldl (push initial) [] (split path) in
    let path := String.concat "/" comps in
    let path := if initial =? 0 then path else slashes initial +:+ path in
    if String.length path =? 0 then "." else path.

Definition make_absolute (f directory : string) : string :=
  if isabs f then f else normpath (join directory f).

(** A component of a normal path: a name without separator, other than
    [.] and [..]. *)
Fixpoint no_sep (comp : string) : bool :=
  match comp with
  | EmptyString => true
  | String c rest => negb (Ascii.eqb c "/") && no_sep rest
  end.

Definition plain_comp (comp : string) : bool :=
  negb (String.eqb comp "") && negb (String.eqb comp ".")
  && negb (String.eqb comp "..") && no_sep comp.

(** A component the loop of [normpath] keeps is a name; in an absolute
    path no [..] is kept. *)
Definition kept (initial : nat) (comp : string) : Prop :=
  comp <> "" /\ comp <> "." /\ no_sep comp = true /\
  (initial <> 0 -> comp <> "..").

End Path.

(** ** More on the parts of the program *)

Module More.

Import Merge.

(** A file the helper can merge: empty, a document that Python treats as
    false, or a mapping whose ['Diagnostics'], if it has one, can be
    iterated over. *)
Definition mergeable (c : file_content) : bool :=
  match c with
  | Blank => true
  | Malformed => false
  | Document doc =>
      negb (truthy doc) ||
      match doc with
      | YMap m =>
          match m !! mergekey with
          | None | Some (YSeq _) | Some (YStr _) | Some (YMap _) => true
          | Some _ => false
          end
      | _ => false
      end
  end.

(** A pattern with none of the characters that have a meaning of their own
    for [re]. *)
Definition is_literal (c : ascii) : bool :=
  negb (Re.is_unsupported c || Re.is_repeat c
        || Ascii.eqb c "." || Ascii.eqb c "|").

Definition plain (pattern : string) : bool :=
  forallb is_literal (String.list_ascii_of_string pattern).

(** The expression of a sequence of literal characters. *)
Definition literal (cs : list ascii) : Re.regex :=
  foldr (fun c r => Re.Cat (Re.Chr c) r) Re.Eps cs.

(** [bytes.isascii()]. *)
Fixpoint isascii (b : string) : bool :=
  match b with
  | EmptyString => true
  | String c rest => Utf8.between 0 127 c && isascii rest
  end.

(** The fragment of the patterns: made of ASCII characters, none of
    [\ ( ) [ ] { } ^ $], and with no repetition sign right after another
    (so without the lazy [*?] and the possessive [*+]). *)
Fixpoint single_repeats (s : list ascii) : bool :=
  match s with
  | c :: rest =>
      match rest with
      | q :: _ => negb (Re.is_repeat c && Re.is_repeat q)
      | [] => true
      end && single_repeats rest
  | [] => true
  end.

Definition supported (s : list ascii) : bool :=
  forallb (fun c => negb (Re.is_unsupported c)) s.

Definition in_fragment (pattern : string) : bool :=
  supported (String.list_ascii_of_string pattern)
  && single_repeats (String.list_ascii_of_string pattern)
  && isascii pattern.

(** [re]'s error "nothing to repeat": an alternative of the pattern starts
    with a repetition sign. *)
Definition starts_with_repeat (b : list ascii) : bool :=
  match b with
  | c :: _ => Re.is_repeat c
  | [] => false
  end.

Definition nothing_to_repeat (pattern : string) : bool :=
  existsb starts_with_repeat
    (Re.split_bar (String.list_ascii_of_string pattern)).

End More.
(** * Properties *)

(** ** The invocation builder *)

Module InvocationFacts.

Import Invocation.

Lemma header_filter_token_prefix (h : string) :
  is_header_filter_token ("-header-filter=" +:+ h) = true.
Proof. unfold is_header_filter_token. simpl. by destruct h. Qed.

(** C5: for every file name, binary path and header filter, the argument
    vector starts with the binary path and the file name, goes on with the
    header-filter token if there is one, then with the separator [--], and
    ends with the fixed include flag. *)
Theorem get_tidy_invocation_layout (f b : string) (hf : option string) :
  let argv := get_tidy_invocation f b hf in
  argv !! 0 = Some b /\ argv !! 1 = Some f /\
  argv = [b; f]
           ++ match hf with Some h => ["-header-filter=" +:+ h] | None => [] end
           ++ ["--"; "-Icugl/include"] /\
  last argv = Some "-Icugl/include" /\
  argv !! (length argv - 2) = Some "--".
Proof. by destruct hf. Qed.

(** C4, as amended: the header-filter token is appended exactly when a
    header filter is given, be it the empty string: without one the
    options hold no such token, with one they hold exactly one, right
    after the file name, carrying the pattern as it is. *)
Theorem header_filter_token_iff_given (f b : string) (hf : option string) :
  let argv := get_tidy_invocation f b hf in
  match hf with
  | None => header_filter_tokens argv = []
  | Some h =>
      header_filter_tokens argv = ["-header-filter=" +:+ h] /\
      argv !! 2 = Some ("-header-filter=" +:+ h)
  end.
Proof.
  destruct hf as [h|]; [|done].
  split; [|done].
  unfold header_filter_tokens, tool_options, get_tidy_invocation; simpl.
  rewrite filter_cons_True by apply header_filter_token_prefix.
  done.
Qed.

(** C4, as stated, fails: with the empty string for header filter the
    token is appended all the same. *)
Lemma empty_header_filter_is_appended :
  get_tidy_invocation "a.cpp" "clang-tidy" (Some "")
    = ["clang-tidy"; "a.cpp"; "-header-filter="; "--"; "-Icugl/include"] /\
  header_filter_tokens (get_tidy_invocation "a.cpp" "clang-tidy" (Some ""))
    = ["-header-filter="].
Proof. done. Qed.

End InvocationFacts.

(** ** File selection *)

Module ReFacts.

Import Re More.

Lemma matches_nil_cat r1 r2 :
  matches (Cat r1 r2) [] <-> matches r1 [] /\ matches r2 [].
Proof.
  split.
  - intros H. remember (Cat r1 r2) as r eqn:Hr. remember [] as w eqn:Hw.
    destruct H as [| | |? ? u v H1 H2| | | |]; try discriminate.
    injection Hr as -> ->. apply app_eq_nil in Hw as [-> ->]. done.
  - intros [H1 H2]. apply (m_cat _ _ [] [] H1 H2).
Qed.

Lemma nullable_spec r : nullable r = true <-> matches r [].
Proof.
  induction r as [| | c | | r1 IH1 r2 IH2 | r1 IH1 r2 IH2 | r IH]; simpl.
  - split; [done | inversion 1].
  - split; [constructor | done].
  - split; [done | inversion 1].
  - split; [done | inversion 1].
  - rewrite andb_true_iff, IH1, IH2, matches_nil_cat. done.
  - rewrite orb_true_iff, IH1, IH2. split.
    + intros [H|H]; [by apply m_alt_l | by apply m_alt_r].
    + inversion 1; subst; auto.
  - split; [constructor | done].
Qed.

(** A word of a starred pattern that starts with [c] splits after a
    non-empty first round. *)
Lemma matches_star_cons_inv r c s :
  matches (Star r) (c :: s) ->
  exists u v, s = u ++ v /\ matches r (c :: u) /\ matches (Star r) v.
Proof.
  intros H. remember (Star r) as r' eqn:Hr. remember (c :: s) as w eqn:Hw.
  revert s Hw.
  induction H as [| | | | | | |r0 u v Hu _ Hv IHv]; try discriminate.
  injection Hr as ->. intros s Hw.
  destruct u as [|c' u]; simplify_eq/=.
  - apply IHv; done.
  - eauto.
Qed.

Lemma deriv_spec c r s : matches (deriv c r) s <-> matches r (c :: s).
Proof.
  revert s.
  induction r as [| | d | | r1 IH1 r2 IH2 | r1 IH1 r2 IH2 | r IH];
    intros s; simpl.
  - split; inversion 1.
  - split; inversion 1.
  - destruct (Ascii.eqb_spec c d) as [->|Hne].
    + split; inversion 1; subst; constructor.
    + split; inversion 1; subst; done.
  - destruct (Ascii.eqb_spec c newline) as [->|Hne].
    + split; inversion 1; subst; done.
    + split; inversion 1; subst; by constructor.
  - assert (Hcat : matches (Cat (deriv c r1) r2) s ->
                   matches (Cat r1 r2) (c :: s)).
    { intros H. remember (Cat (deriv c r1) r2) as r eqn:Hr.
      destruct H as [| | |? ? u v H1 H2| | | |]; try discriminate.
      injection Hr as -> ->.
      apply IH1 in H1. apply (m_cat _ _ (c :: u) v H1 H2). }
    assert (Hinv : matches (Cat r1 r2) (c :: s) ->
                   matches (Cat (deriv c r1) r2) s \/
                   (matches r1 [] /\ matches r2 (c :: s))).
    { intros H. remember (Cat r1 r2) as r eqn:Hr.
      remember (c :: s) as w eqn:Heq.
      destruct H as [| | |? ? u v H1 H2| | | |]; try discriminate.
      injection Hr as -> ->.
      destruct u as [|c' u]; simplify_eq/=.
      - right. done.
      - left. apply m_cat; [by apply IH1 | done]. }
    destruct (nullable r1) eqn:Hn.
    + split.
      * inversion 1; subst; [by apply Hcat|].
        apply (m_cat _ _ [] (c :: s)); [by apply nullable_spec | by apply IH2].
      * intros H. destruct (Hinv H) as [H'|[_ H']];
          [by apply m_alt_l | apply m_alt_r; by apply IH2].
    + split; [apply Hcat|].
      intros H. destruct (Hinv H) as [H'|[H' _]]; [done|].
      apply nullable_spec in H'. congruence.
  - split.
    + inversion 1; subst; [apply m_alt_l; by apply IH1 | apply m_alt_r; by apply IH2].
    + inversion 1; subst; [apply m_alt_l; by apply IH1 | apply m_alt_r; by apply IH2].
  - split.
    + intros H. remember (Cat (deriv c r) (Star r)) as r' eqn:Hr.
      destruct H as [| | |? ? u v H1 H2| | | |]; try discriminate.
      injection Hr as -> ->.
      apply IH in H1. apply (m_star_cons _ (c :: u) v H1 H2).
    + intros H. apply matches_star_cons_inv in H as (u & v & -> & H1 & H2).
      apply m_cat; [by apply IH | done].
Qed.

Lemma match_here_spec r s :
  match_here r s = true <-> exists u v, s = u ++ v /\ matches r u.
Proof.
  revert r. induction s as [|c s IH]; intros r; simpl.
  - rewrite orb_false_r, nullable_spec. split.
    + intros H. exists [], []. done.
    + intros (u & v & Heq & H). symmetry in Heq.
      apply app_eq_nil in Heq as [-> _]. done.
  - rewrite orb_true_iff, nullable_spec, IH. split.
    + intros [H | (u & v & -> & H)].
      * exists [], (c :: s). done.
      * exists (c :: u), v. split; [done | by apply deriv_spec].
    + intros (u & v & Heq & H). destruct u as [|c' u]; simplify_eq/=.
      * by left.
      * right. exists u, v. split; [done | by apply deriv_spec].
Qed.

(** [search] succeeds exactly when some substring matches. *)
Lemma search_from_spec r s :
  search_from r s = true <->
  exists pre u post, s = pre ++ u ++ post /\ matches r u.
Proof.
  induction s as [|c s IH]; cbn [search_from].
  - rewrite orb_false_r, match_here_spec. split.
    + intros (u & v & Heq & H). exists [], u, v. done.
    + intros (pre & u & post & Heq & H). symmetry in Heq.
      apply app_eq_nil in Heq as [-> Heq].
      apply app_eq_nil in Heq as [-> ->]. exists [], []. done.
  - rewrite orb_true_iff, match_here_spec, IH. split.
    + intros [(u & v & Heq & H) | (pre & u & post & -> & H)].
      * exists [], u, v. done.
      * exists (c :: pre), u, post. done.
    + intros (pre & u & post & Heq & H).
      destruct pre as [|c' pre]; simplify_eq/=.
      * left. eauto.
      * right. eauto.
Qed.

Lemma re_search_spec r name :
  re_search r name = true <->
  exists pre u post,
    String.list_ascii_of_string name = pre ++ u ++ post /\ matches r u.
Proof. apply search_from_spec. Qed.

(** The alternatives of a joined pattern are those of its parts. *)
Lemma chars_append (a b : string) :
  String.list_ascii_of_string (a +:+ b)
  = String.list_ascii_of_string a ++ String.list_ascii_of_string b.
Proof. induction a as [|c a IH]; simpl; [done | by rewrite IH]. Qed.

Lemma split_bar_cons_inv s : exists b bs, split_bar s = b :: bs.
Proof.
  induction s as [|c s (b & bs & IH)]; simpl; [by eauto|].
  destruct (Ascii.eqb c "|"); [by eauto|]. rewrite IH. eauto.
Qed.

Lemma split_bar_app_bar u v :
  split_bar (u ++ "|"%char :: v) = split_bar u ++ split_bar v.
Proof.
  induction u as [|c u IH]; simpl; [done|].
  destruct (Ascii.eqb c "|"); [by rewrite IH|].
  rewrite IH. destruct (split_bar_cons_inv u) as (b & bs & ->). done.
Qed.

Lemma split_bar_join (ps : list string) :
  ps <> [] ->
  split_bar (String.list_ascii_of_string (String.concat "|" ps))
  = ps ≫= (fun p => split_bar (String.list_ascii_of_string p)).
Proof.
  induction ps as [|p ps IH]; [done|]. intros _.
  destruct ps as [|q ps].
  - simpl. by rewrite app_nil_r.
  - change (String.concat "|" (p :: q :: ps))
      with (p +:+ "|" +:+ String.concat "|" (q :: ps)).
    rewrite chars_append. change (String.list_ascii_of_string ("|" +:+ ?t))
      with ("|"%char :: String.list_ascii_of_string t).
    rewrite split_bar_app_bar, IH by done. done.
Qed.

Lemma alt_of_spec rs u : matches (alt_of rs) u <-> Exists (fun r => matches r u) rs.
Proof.
  induction rs as [|r rs IH]; simpl.
  - split; inversion 1.
  - destruct rs as [|r' rs].
    + rewrite Exists_cons, Exists_nil. tauto.
    + rewrite Exists_cons, <- IH. split.
      * inversion 1; subst; auto.
      * intros [H|H]; [by apply m_alt_l | by apply m_alt_r].
Qed.

Lemma Forall2_branch_matches bs rs u :
  Forall2 (fun b r => parse_branch b = Some r) bs rs ->
  Exists (fun r => matches r u) rs <-> branch_matches bs u.
Proof.
  unfold branch_matches. induction 1 as [|b r bs rs Hb _ IH].
  - rewrite Exists_nil. split; [done|]. intros (b & r & Hin & _).
    by apply elem_of_nil in Hin.
  - rewrite Exists_cons, IH. split.
    + intros [H | (b' & r' & Hin & Hb' & H)].
      * exists b, r. split; [apply list_elem_of_here | done].
      * exists b', r'. split; [by apply list_elem_of_further | done].
    + intros (b' & r' & Hin & Hb' & H).
      apply elem_of_cons in Hin as [->|Hin]; [left; congruence | right; eauto].
Qed.

Lemma parse_spec s R u :
  parse s = Some R -> matches R u <-> branch_matches (split_bar s) u.
Proof.
  unfold parse. intros H. apply bind_Some in H as (rs & Hrs & [= <-]).
  apply mapM_Some in Hrs. rewrite alt_of_spec.
  by apply Forall2_branch_matches.
Qed.

Lemma parse_is_Some s :
  is_Some (parse s) <-> Forall (is_Some ∘ parse_branch) (split_bar s).
Proof.
  unfold parse. rewrite <- mapM_is_Some.
  destruct (mapM parse_branch (split_bar s)); simpl; split;
    intros [? ?]; by eauto.
Qed.

(** A joined pattern compiles exactly when each part does, and then it
    matches what some part matches. *)
Lemma file_name_re_spec (ps : list string) (R : regex) :
  ps <> [] -> file_name_re ps = Some R ->
  (forall p, p ∈ ps -> is_Some (re_compile p)) /\
  (forall u, matches R u <->
     exists p r, p ∈ ps /\ re_compile p = Some r /\ matches r u).
Proof.
  unfold file_name_re, re_compile. intros Hne HR.
  assert (Hall : forall p, p ∈ ps -> is_Some (parse (String.list_ascii_of_string p))).
  { intros p Hp. apply parse_is_Some.
    assert (His : is_Some (parse (String.list_ascii_of_string (String.concat "|" ps))))
      by eauto.
    apply parse_is_Some in His. rewrite split_bar_join in His by done.
    rewrite Forall_forall in His |- *. intros b Hb. apply His.
    apply list_elem_of_bind. eauto. }
  split; [done|]. intros u.
  rewrite (parse_spec _ _ _ HR), split_bar_join by done.
  unfold branch_matches. split.
  - intros (b & r & Hb & Hr & Hu).
    apply list_elem_of_bind in Hb as (p & Hb & Hp).
    destruct (Hall p Hp) as [rp Hrp]. exists p, rp. split_and!; [done..|].
    apply (parse_spec _ _ _ Hrp). exists b, r. done.
  - intros (p & rp & Hp & Hrp & Hu).
    apply (parse_spec _ _ _ Hrp) in Hu as (b & r & Hb & Hr & Hu).
    exists b, r. split_and!; [|done..].
    apply list_elem_of_bind. eauto.
Qed.

(** *** The patterns of the fragment *)

Lemma starts_with_repeat_None b :
  starts_with_repeat b = true -> parse_branch b = None.
Proof.
  destruct b as [|c b]; [done|]. simpl. intros ->.
  by rewrite orb_true_r.
Qed.

Lemma parse_branch_fragment_le n b :
  length b <= n -> supported b = true -> single_repeats b = true ->
  starts_with_repeat b = false -> is_Some (parse_branch b).
Proof.
  revert b. induction n as [|n IH]; intros b Hn Hs Hr Hst.
  { destruct b; [by eexists | simpl in Hn; lia]. }
  destruct b as [|c rest]; [by eexists|].
  simpl in Hn, Hst. cbn [supported forallb] in Hs.
  apply andb_true_iff in Hs as [Hc Hs]. apply negb_true_iff in Hc.
  cbn [single_repeats] in Hr. apply andb_true_iff in Hr as [Hcq Hr].
  cbn [parse_branch]. rewrite Hc, Hst. cbn [orb].
  destruct rest as [|q rest']; [by eexists|].
  destruct (is_repeat q) eqn:Hq.
  - assert (Hrest : is_Some (parse_branch rest')).
    { apply IH.
      - simpl in Hn. lia.
      - cbn [supported forallb] in Hs. by apply andb_true_iff in Hs as [_ ?].
      - cbn [single_repeats] in Hr. by apply andb_true_iff in Hr as [_ ?].
      - cbn [single_repeats] in Hr. apply andb_true_iff in Hr as [Hqq _].
        destruct rest' as [|q' rest'']; [done|]. simpl.
        rewrite Hq in Hqq. cbn [andb] in Hqq. by apply negb_true_iff in Hqq. }
    destruct Hrest as [r ->]. by eexists.
  - assert (Hrest : is_Some (parse_branch (q :: rest'))).
    { apply IH; [simpl in *; lia | done | done | done]. }
    destruct Hrest as [r ->]. by eexists.
Qed.

Lemma parse_branch_fragment b :
  supported b = true -> single_repeats b = true ->
  parse_branch b = None <-> starts_with_repeat b = true.
Proof.
  intros Hs Hr. split; [|apply starts_with_repeat_None].
  intros Hn. destruct (starts_with_repeat b) eqn:Hst; [done|].
  destruct (parse_branch_fragment_le (length b) b) as [r Hb]; try done.
  congruence.
Qed.

Lemma split_bar_fragment s :
  supported s = true -> single_repeats s = true ->
  Forall (fun b => supported b = true /\ single_repeats b = true) (split_bar s).
Proof.
  induction s as [|c s IH]; intros Hs Hr; [by repeat constructor|].
  cbn [supported forallb] in Hs. apply andb_true_iff in Hs as [Hc Hs].
  cbn [single_repeats] in Hr. apply andb_true_iff in Hr as [Hcq Hr].
  specialize (IH Hs Hr). cbn [split_bar].
  destruct (Ascii.eqb c "|") eqn:Hbar; [by constructor|].
  destruct (split_bar_cons_inv s) as (b & bs & Hsplit).
  rewrite Hsplit in IH |- *. apply Forall_cons in IH as [[Hb1 Hb2] Hbs].
  constructor; [|done]. split.
  - cbn [supported forallb]. by rewrite Hc.
  - cbn [single_repeats]. rewrite Hb2, andb_true_r.
    destruct b as [|q b']; [done|].
    destruct s as [|q' s']; [done|]. cbn [split_bar] in Hsplit.
    destruct (Ascii.eqb q' "|"); [done|].
    destruct (split_bar s'); by simplify_eq.
Qed.

Lemma mapM_None {A B} (f : A -> option B) (l : list A) :
  mapM f l = None <-> Exists (fun x => f x = None) l.
Proof.
  induction l as [|x l IH]; simpl.
  - split; [done | by inversion 1].
  - rewrite Exists_cons, <- IH. destruct (f x); simpl.
    + destruct (mapM f l); simpl.
      * split; [done | by intros [?|?]].
      * split; [by right | done].
    + split; [by left | done].
Qed.

Lemma existsb_Exists {A} (f : A -> bool) (l : list A) :
  existsb f l = true <-> Exists (fun x => f x = true) l.
Proof.
  induction l as [|x l IH]; simpl.
  - split; [done | by inversion 1].
  - by rewrite orb_true_iff, Exists_cons, IH.
Qed.

Lemma split_bar_chars_fragment pattern :
  in_fragment pattern = true ->
  Forall (fun b => supported b = true /\ single_repeats b = true)
    (split_bar (String.list_ascii_of_string pattern)).
Proof.
  unfold in_fragment. intros H.
  apply andb_true_iff in H as [H _]. apply andb_true_iff in H as [Hs Hr].
  by apply split_bar_fragment.
Qed.

(** In the fragment the branches that do not compile are those that start
    with a repetition sign. *)
Lemma branches_None bs :
  Forall (fun b => supported b = true /\ single_repeats b = true) bs ->
  mapM parse_branch bs = None <-> existsb starts_with_repeat bs = true.
Proof.
  intros Hall. rewrite mapM_None, existsb_Exists, !Exists_exists.
  rewrite Forall_forall in Hall.
  split; intros (b & Hin & Hb); exists b; (split; [done|]);
    destruct (Hall b Hin) as [H1 H2]; by apply parse_branch_fragment.
Qed.

Lemma parse_None s : parse s = None <-> mapM parse_branch (split_bar s) = None.
Proof.
  unfold parse. destruct (mapM parse_branch (split_bar s)); simpl; done.
Qed.

Lemma re_compile_fragment pattern :
  in_fragment pattern = true ->
  re_compile pattern = None <-> nothing_to_repeat pattern = true.
Proof.
  intros H. unfold re_compile, nothing_to_repeat.
  rewrite parse_None. by apply branches_None, split_bar_chars_fragment.
Qed.

Lemma file_name_re_fragment (ps : list string) :
  ps <> [] -> Forall (fun p => in_fragment p = true) ps ->
  file_name_re ps = None <-> Exists (fun p => nothing_to_repeat p = true) ps.
Proof.
  intros Hne Hall. unfold file_name_re, re_compile.
  rewrite parse_None, split_bar_join by done.
  rewrite branches_None.
  - rewrite existsb_Exists, !Exists_exists. split.
    + intros (b & Hin & Hb). apply list_elem_of_bind in Hin as (p & Hin & Hp).
      exists p. split; [done|]. unfold nothing_to_repeat.
      apply existsb_Exists, Exists_exists. eauto.
    + intros (p & Hp & Hn). unfold nothing_to_repeat in Hn.
      apply existsb_Exists, Exists_exists in Hn as (b & Hin & Hb).
      exists b. split; [|done]. apply list_elem_of_bind. eauto.
  - apply Forall_forall. intros b Hin.
    apply list_elem_of_bind in Hin as (p & Hin & Hp).
    rewrite Forall_forall in Hall.
    pose proof (split_bar_chars_fragment p (Hall p Hp)) as Hf.
    rewrite Forall_forall in Hf. by apply Hf.
Qed.

(** The selection by patterns of the fragment. *)
Lemma selected_fragment (ps : list string) (name : string) :
  ps <> [] -> Forall (fun p => in_fragment p = true) ps ->
  (selected ps name = None <->
     Exists (fun p => nothing_to_repeat p = true) ps) /\
  (selected ps name = Some true <->
     Forall (fun p => nothing_to_repeat p = false) ps /\
     exists p r pre u post, p ∈ ps /\ re_compile p = Some r /\
       String.list_ascii_of_string name = pre ++ u ++ post /\ matches r u).
Proof.
  intros Hne Hfrag.
  pose proof (file_name_re_fragment ps Hne Hfrag) as Hraise.
  assert (Hnone : selected ps name = None <-> file_name_re ps = None).
  { unfold selected. by destruct (file_name_re ps). }
  assert (Hall : Forall (fun p => nothing_to_repeat p = false) ps
                 <-> file_name_re ps <> None).
  { rewrite Hraise, <- Forall_Exists_neg. apply Forall_iff. intros p.
    by destruct (nothing_to_repeat p). }
  split; [by rewrite Hnone|].
  destruct (file_name_re ps) as [R|] eqn:HR.
  - destruct (file_name_re_spec ps R Hne HR) as [_ HRm].
    assert (Hok : Forall (fun p => nothing_to_repeat p = false) ps)
      by (by apply Hall).
    assert (Hsel : selected ps name = Some true <-> re_search R name = true).
    { unfold selected. rewrite HR. simpl. split; [by intros [= ->] | by intros ->]. }
    rewrite Hsel, re_search_spec. split.
    + intros (pre & u & post & Heq & Hu). split; [done|].
      apply HRm in Hu as (p & r & Hp & Hr & Hu). by exists p, r, pre, u, post.
    + intros (_ & p & r & pre & u & post & Hp & Hr & Heq & Hu).
      exists pre, u, post. split; [done|]. apply HRm. eauto.
  - assert (Hsel : selected ps name = None) by (by apply Hnone).
    rewrite Hsel. split; [done|]. intros [Hok _]. by apply Hall in Hok.
Qed.

(** C3, as amended: for patterns of the fragment (ASCII characters, none
    of [\ ( ) [ ] { } ^ $], no repetition sign right after another) and an
    ASCII name, [re.compile] raises exactly when an alternative of some
    pattern starts with a repetition sign, and otherwise the name is
    selected exactly when the pattern of some positional argument matches
    somewhere in it ([search] looks for the match at every position, not
    for a match of the whole name or of its start). So the patterns [a.*]
    and [b.*] select [apple.cpp] and [banana.cpp], and [carrot.cpp] too, for
    the [a] it contains; they do not select [cherry.cpp]. *)
Theorem selected_iff_some_pattern_found :
  (forall (ps : list string) (name : string),
     ps <> [] -> Forall (fun p => in_fragment p = true) ps ->
     isascii name = true ->
     (selected ps name = None <->
        Exists (fun p => nothing_to_repeat p = true) ps) /\
     (selected ps name = Some true <->
        Forall (fun p => nothing_to_repeat p = false) ps /\
        exists p r, p ∈ ps /\ re_compile p = Some r /\ re_search r name = true) /\
     (selected ps name = Some true <->
        Forall (fun p => nothing_to_repeat p = false) ps /\
        exists p r pre u post, p ∈ ps /\ re_compile p = Some r /\
          String.list_ascii_of_string name = pre ++ u ++ post /\ matches r u)) /\
  selected ["a.*"; "b.*"] "apple.cpp" = Some true /\
  selected ["a.*"; "b.*"] "banana.cpp" = Some true /\
  selected ["a.*"; "b.*"] "carrot.cpp" = Some true /\
  selected ["a.*"; "b.*"] "cherry.cpp" = Some false.
Proof.
  split; [|by vm_compute].
  intros ps name Hne Hfrag Hname.
  destruct (selected_fragment ps name Hne Hfrag) as [Hnone Hsub].
  split_and!; [done| |done].
  rewrite Hsub. split; intros [Hok Hex]; (split; [done|]).
  - destruct Hex as (p & r & pre & u & post & Hp & Hr & Heq & Hu).
    exists p, r. split_and!; [done..|]. apply re_search_spec. eauto.
  - destruct Hex as (p & r & Hp & Hr & Hs).
    apply re_search_spec in Hs as (pre & u & post & Heq & Hu).
    by exists p, r, pre, u, post.
Qed.

Lemma selected_iff_some_pattern_found_witness :
  selected ["a.*"; "b.*"] "carrot.cpp" = Some true <->
  Forall (fun p => nothing_to_repeat p = false) ["a.*"; "b.*"] /\
  exists p r, p ∈ ["a.*"; "b.*"] /\ re_compile p = Some r /\
    re_search r "carrot.cpp" = true.
Proof.
  refine (proj1 (proj2 (proj1 selected_iff_some_pattern_found ["a.*"; "b.*"]
            "carrot.cpp" _ _ _))).
  - discriminate.
  - repeat constructor.
  - reflexivity.
Defined.

(** C3, as stated, fails: [carrot.cpp] is selected by [a.*] and [b.*]. *)
Lemma carrot_is_selected :
  selected ["a.*"; "b.*"] "carrot.cpp" = Some true.
Proof. reflexivity. Qed.

End ReFacts.

(** ** Merging of the replacement files *)

Module MergeFacts.

Import Merge.

Lemma merged_document_lookup merged :
  merged_document merged !! "MainSourceFile" = Some (YStr "") /\
  merged_document merged !! "Diagnostics" = Some (YSeq merged) /\
  forall k, k <> "MainSourceFile" -> k <> "Diagnostics" ->
    merged_document merged !! k = None.
Proof.
  unfold merged_document. split_and!.
  - by rewrite lookup_insert_eq.
  - rewrite lookup_insert_ne by done. by rewrite lookup_singleton_eq.
  - intros k H1 H2. rewrite lookup_insert_ne by done.
    by rewrite lookup_singleton_ne.
Qed.

Lemma truthy_empty_map (m : gmap string yaml) :
  truthy (YMap m) = false -> m !! mergekey = None.
Proof.
  simpl. intros H. apply negb_false_iff, Nat.eqb_eq, map_size_empty_iff in H.
  subst m. apply lookup_empty.
Qed.

Lemma falsy_diagnostics doc :
  truthy doc = false -> diagnostics (Document doc) = [].
Proof.
  destruct doc; try done. intros H. simpl.
  by rewrite (truthy_empty_map _ H).
Qed.

Lemma merge_loop_replacement_files globbed merged :
  Forall (fun e => replacement_file e.2) globbed ->
  merge_loop true globbed merged
  = Returns (merged ++ (globbed ≫= (fun e => diagnostics e.2))).
Proof.
  intros Hall. revert merged.
  induction Hall as [|[name c] globbed Hc _ IH]; intros merged.
  - simpl. by rewrite app_nil_r.
  - rewrite bind_cons. cbn [merge_loop snd].
    destruct c as [|doc|]; [apply IH| |done].
    unfold safe_load, mbind at 1, result_bind.
    destruct (truthy doc) eqn:Ht; cbn [negb].
    + destruct Hc as [?|(m & -> & Hm)]; [congruence|]. simpl.
      destruct Hm as [Hm|(l & Hm)]; rewrite Hm; simpl.
      * rewrite IH. by rewrite app_nil_r.
      * rewrite IH. by rewrite app_assoc.
    + rewrite (falsy_diagnostics _ Ht). apply IH.
Qed.

(** C10, as amended: for every directory whose [*.yaml] files are
    replacement files (each empty, or a mapping whose ['Diagnostics'], if it
    has one, is a list), and with the [yaml] module imported, the helper
    writes to the target the mapping of ['MainSourceFile'] to the empty
    string and of ['Diagnostics'] to the concatenation of the ['Diagnostics']
    lists of these files, whenever this concatenation is non-empty;
    otherwise it leaves the target empty. *)
Theorem merge_replacement_files_spec (tmpdir : list (string * file_content)) :
  Forall (fun e => glob_yaml e.1 = true -> replacement_file e.2) tmpdir ->
  merge_replacement_files true tmpdir
  = Returns (match all_diagnostics tmpdir with
             | [] => Blank
             | _ :: _ => Document (YMap (merged_document (all_diagnostics tmpdir)))
             end) /\
  merged_document (all_diagnostics tmpdir) !! "MainSourceFile" = Some (YStr "") /\
  merged_document (all_diagnostics tmpdir) !! "Diagnostics"
    = Some (YSeq (all_diagnostics tmpdir)).
Proof.
  intros Hall. split; [|split; apply merged_document_lookup].
  unfold merge_replacement_files, all_diagnostics.
  rewrite merge_loop_replacement_files.
  - simpl. by destruct (_ ≫= _).
  - apply Forall_forall. intros e He.
    apply list_elem_of_filter in He as [Hg He].
    rewrite Forall_forall in Hall. by apply Hall.
Qed.

Lemma merge_replacement_files_spec_witness :
  merge_replacement_files true
    [("a.yaml", Document (YMap {[ "Diagnostics" := YSeq [YInt 1; YInt 2] ]}));
     ("notes.txt", Malformed);
     ("b.yaml", Blank);
     ("c.yaml", Document (YMap {[ "Diagnostics" := YSeq [YInt 3] ]}))]
  = Returns (Document (YMap (merged_document [YInt 1; YInt 2; YInt 3]))).
Proof.
  refine (proj1 (merge_replacement_files_spec
    [("a.yaml", Document (YMap {[ "Diagnostics" := YSeq [YInt 1; YInt 2] ]}));
     ("notes.txt", Malformed);
     ("b.yaml", Blank);
     ("c.yaml", Document (YMap {[ "Diagnostics" := YSeq [YInt 3] ]}))] _)).
  repeat apply Forall_cons_2; [| | | |apply Forall_nil_2]; intros Hg;
    [| discriminate Hg | exact I |];
    (right; eexists; split; [reflexivity|]; right; eexists; reflexivity).
Defined.

(** C10, as stated, fails: a [*.yaml] file that holds a list at its top
    level makes the helper raise, and nothing is written. *)
Lemma merge_replacement_files_raises :
  merge_replacement_files true [("fixes.yaml", Document (YSeq [YStr "x"]))]
  = Raises AttributeError.
Proof. reflexivity. Qed.

End MergeFacts.

(** ** The thread pool *)

Module PoolFacts.

Import Cli Pool PoolInv.

(** *** Steps, case by case *)

Lemma exec_inv cfg a s s' :
  exec cfg a s = Some s' ->
  process_ended s = false /\
  match a with
  | Main => main_step cfg s = Some s'
  | Interrupt => interrupt_step s = Some s'
  | Work i => exists pc, workers s !! i = Some pc /\ run_tidy_step cfg i None pc s = Some s'
  | Run i r => exists pc, workers s !! i = Some pc /\ run_tidy_step cfg i (Some r) pc s = Some s'
  | Fault MainThread => main_fault s = Some s'
  | Fault (Worker i) => exists pc, workers s !! i = Some pc /\ run_tidy_fault i pc s = Some s'
  end.
Proof.
  unfold exec. destruct (process_ended s); [done|]. intros H. split; [done|].
  destruct a as [| |i|i r|[|i]]; try done.
  - destruct (workers s !! i) as [pc|]; [eauto | done].
  - destruct (workers s !! i) as [pc|]; [eauto | done].
  - destruct (workers s !! i) as [pc|]; [eauto | done].
Qed.

(** From [H : exec cfg a s = Some s'] to one goal for each way to step,
    the state [s] split in its fields. *)
Ltac step_cases H s :=
  let Hend := fresh "Hend" in
  let Hpc := fresh "Hpc" in
  apply exec_inv in H as [Hend H];
  match type of H with
  | match ?a with _ => _ end =>
      destruct a as [| |?i|?i ?r|[|?i]];
      [ | | destruct H as (?pc & Hpc & H) | destruct H as (?pc & Hpc & H)
      | | destruct H as (?pc & Hpc & H) ]
  end;
  [ unfold main_step in H
  | unfold interrupt_step in H
  | unfold run_tidy_step in H
  | unfold run_tidy_step in H
  | unfold main_fault in H
  | unfold run_tidy_fault in H ];
  destruct s as [?m ?ws ?q ?u ?ff ?lk ?con ?g ?p];
  unfold set_worker, set_main, set_lock, emit, put, queue_full in *;
  cbn [main workers task_queue unfinished_tasks failed_files lock console
       gets popens process_ended] in *;
  repeat match type of H with
  | context [match ?x with _ => _ end] =>
      first [ is_var x; destruct x | destruct x eqn:? ]
  | context [if ?x then _ else _] => destruct x eqn:?
  end;
  try discriminate;
  try (injection H as <-);
  cbn [main workers task_queue unfinished_tasks failed_files lock console
       gets popens process_ended] in *.

(** *** Counting and collecting over the workers *)

Lemma sum_list_with_insert (f : worker_pc -> nat) ws i old new :
  ws !! i = Some old ->
  sum_list_with f (<[i := new]> ws) + f old = sum_list_with f ws + f new.
Proof.
  revert i. induction ws as [|w ws IH]; intros [|i] Hi; simplify_eq/=.
  - lia.
  - specialize (IH _ Hi). lia.
Qed.

Lemma bind_insert_perm {X} (f : worker_pc -> list X) ws i old new :
  ws !! i = Some old ->
  (<[i := new]> ws ≫= f) ++ f old ≡ₚ (ws ≫= f) ++ f new.
Proof.
  revert i. induction ws as [|w ws IH]; intros [|i] Hi; simplify_eq/=.
  - solve_Permutation.
  - rewrite <- !app_assoc. f_equiv. by apply IH.
Qed.

Lemma holding_insert ws i old new :
  ws !! i = Some old ->
  holding (<[i := new]> ws) + holds_task old = holding ws + holds_task new.
Proof. apply sum_list_with_insert. Qed.

Lemma holding_app ws ws' : holding (ws ++ ws') = holding ws + holding ws'.
Proof. apply sum_list_with_app. Qed.

Lemma holding_zero ws i pc :
  holding ws = 0 -> ws !! i = Some pc -> task_of pc = None.
Proof.
  revert i. induction ws as [|w ws IH]; intros i H Hi; [done|].
  unfold holding in *. simpl in H. destruct i as [|i]; simplify_eq/=.
  - unfold holds_task in H. destruct (task_of pc); [lia | done].
  - apply (IH i); [lia | done].
Qed.

(** *** The counter of unfinished tasks *)

Lemma accounting_init cfg : accounting (init cfg).
Proof.
  unfold accounting, init; simpl. split; [done|].
  by destruct (file_name_re _).
Qed.

Lemma accounting_step cfg a s s' :
  accounting s -> exec cfg a s = Some s' -> accounting s'.
Proof.
  intros [Hu Hd] H. unfold accounting.
  step_cases H s; simpl in *;
    try match goal with
        | |- context [<[?i := ?new]> ?ws] =>
            pose proof (holding_insert ws i _ new Hpc) as Hh;
            unfold holds_task in Hh; simpl in Hh
        end;
    rewrite ?holding_app, ?length_app in *; simpl in *;
    rewrite ?Nat.eqb_eq in *;
    (split; [lia | intros Hdr; try specialize (Hd Hdr); first [done | lia]]).
Qed.

(** *** First in, first out *)

Lemma fifo_init cfg : fifo cfg (init cfg).
Proof.
  unfold fifo, init, enqueued, matching; simpl.
  destruct (file_name_re _) eqn:Hre; simpl.
  - by exists (candidates cfg).
  - exists []. split; [done|]. simpl.
    induction (candidates cfg) as [|name l IH]; [done|].
    rewrite filter_cons_False; [done|].
    unfold search_name. by rewrite Hre.
Qed.

Lemma fifo_step cfg a s s' :
  fifo cfg s -> exec cfg a s = Some s' -> fifo cfg s'.
Proof.
  intros (todo & Htodo & Heq) H. unfold fifo, enqueued in *.
  step_cases H s; simpl in *; subst;
    try (by exists todo);
    try (by eexists; split; [reflexivity | done]).
  - exists l. split; [done|]. unfold candidates in Heq.
    by rewrite Heqo in Heq.
  - eexists; split; [reflexivity|].
    rewrite filter_cons_True in Heq by done.
    by rewrite <- Heq, <- !app_assoc.
  - eexists; split; [reflexivity|].
    rewrite filter_cons_False in Heq by congruence. done.
  - exists todo. split; [done|].
    by rewrite fmap_app, <- Heq, <- !app_assoc.
Qed.

(** *** Launches and failures *)

Lemma launches_init cfg : launches (init cfg).
Proof. unfold launches, launched, init; simpl. done. Qed.

Lemma launches_step cfg a s s' :
  launches s -> exec cfg a s = Some s' -> launches s'.
Proof.
  unfold launches, launched. intros Hl H.
  step_cases H s; simpl in *; try done;
    try match goal with
        | |- context [<[?i := ?new]> ?ws] =>
            pose proof (bind_insert_perm pending_popen ws i _ new Hpc) as Hp;
            simpl in Hp; rewrite ?app_nil_r in Hp
        end;
    rewrite ?fmap_app, ?bind_app; simpl; rewrite ?app_nil_r;
    try done; try (by rewrite Hp).
  - rewrite Hl, Hp. by rewrite app_assoc.
  - rewrite Hl, <- Hp. unfold popen_name at 2; simpl. solve_Permutation.
  - rewrite Hl, <- Hp. unfold popen_name at 2; simpl. solve_Permutation.
Qed.

Lemma failure_list_init cfg : failure_list (init cfg).
Proof. unfold failure_list, failures, init; simpl. done. Qed.

Lemma failure_list_step cfg a s s' :
  failure_list s -> exec cfg a s = Some s' -> failure_list s'.
Proof.
  unfold failure_list, failures. intros Hl H.
  step_cases H s; simpl in *; try done;
    try match goal with
        | |- context [<[?i := ?new]> ?ws] =>
            pose proof (bind_insert_perm pending_fail ws i _ new Hpc) as Hp;
            simpl in Hp; rewrite ?app_nil_r in Hp
        end;
    rewrite ?filter_app, ?fmap_app, ?bind_app; simpl; rewrite ?app_nil_r;
    try done; try (by rewrite Hp).
  - rewrite Heqb in Hp. rewrite app_nil_r in Hp. by rewrite Hp.
  - rewrite Heqb in Hp. rewrite <- Hl, <- Hp. solve_Permutation.
  - destruct (returncode =? 0)%Z eqn:Hrc.
    + rewrite filter_cons_False, filter_nil by (simpl; rewrite Hrc; done).
      simpl. rewrite !app_nil_r in *. by rewrite Hp.
    + rewrite filter_cons_True, filter_nil by (simpl; by rewrite Hrc).
      rewrite <- Hl, Hp. unfold popen_name; simpl. by rewrite app_assoc.
Qed.

Lemma dead_launches_init cfg : dead_launches (init cfg).
Proof. intros i n Hin. by apply elem_of_nil in Hin. Qed.

Lemma dead_launches_step cfg a s s' :
  dead_launches s -> exec cfg a s = Some s' -> dead_launches s'.
Proof.
  unfold dead_launches. intros Hd H.
  step_cases H s; simpl in *; try done; intros j n' Hin;
    try (apply elem_of_app in Hin as [Hin|Hin];
         [|apply list_elem_of_singleton in Hin; simplify_eq]);
    try (apply lookup_app_l_Some; by apply Hd);
    try (destruct (decide (i = j)) as [->|Hne];
         [ try (specialize (Hd _ _ Hin); congruence)
         | rewrite list_lookup_insert_ne by done; by apply Hd ]).
  - apply list_lookup_insert_eq. by eapply lookup_lt_Some.
Qed.

Lemma exit_code_init cfg : exit_code (init cfg).
Proof.
  unfold exit_code, init; simpl. intros c. by destruct (file_name_re _).
Qed.

Lemma exit_code_step cfg a s s' :
  exit_code s -> exec cfg a s = Some s' -> exit_code s'.
Proof.
  unfold exit_code. intros He H.
  step_cases H s; simpl in *; try done; intros c Hc; simplify_eq/=;
    by rewrite Heqb.
Qed.

Lemma needs_cpp_init cfg : needs_cpp cfg (init cfg).
Proof.
  unfold needs_cpp, init; simpl. intros _. by destruct (file_name_re _).
Qed.

Lemma needs_cpp_step cfg a s s' :
  needs_cpp cfg s -> exec cfg a s = Some s' -> needs_cpp cfg s'.
Proof.
  unfold needs_cpp. intros Hn H.
  step_cases H s; simpl in *; try done; intros Hc;
    try (by specialize (Hn Hc)); congruence.
Qed.

Lemma pool_size_init cfg : pool_size cfg (init cfg).
Proof.
  unfold pool_size, init; simpl. split; [|done].
  destruct (file_name_re _); simpl; lia.
Qed.

Lemma pool_size_step cfg a s s' :
  pool_size cfg s -> exec cfg a s = Some s' -> pool_size cfg s'.
Proof.
  unfold pool_size. intros [Hn Hg] H.
  step_cases H s; simpl in *;
    rewrite ?length_app, ?length_insert in *; simpl in *;
    (split; [first [lia | by destruct m; simpl in *; lia | done] |]);
    try done.
  - eapply Forall_impl; [done|]. simpl. intros; lia.
  - apply Forall_app. split; [done|]. apply Forall_singleton. simpl.
    by eapply lookup_lt_Some.
Qed.

(** *** Mutual exclusion and the shape of the output *)

Lemma decode_Some b text : Utf8.decode b = Some text -> text = b.
Proof. unfold Utf8.decode. destruct (Utf8.well_formed b); congruence. Qed.

Lemma exclusion_init cfg : exclusion cfg (init cfg).
Proof.
  split; [done|]. exists [], []. done.
Qed.

(** A step of a worker outside [with lock] that leaves the lock and the
    console alone. *)
Lemma exclusion_outside cfg m ws q u ff lk con g p i old new m' q' u' ff' g' p' :
  ws !! i = Some old -> in_region old = false -> in_region new = false ->
  exclusion cfg (mkState m ws q u ff lk con g p) ->
  exclusion cfg (mkState m' (<[i := new]> ws) q' u' ff' lk con g' p').
Proof.
  intros Hi Hold Hnew [Hex (blocks & cur & Hcon & Hcur)].
  unfold exclusion, current_emission, worker_console in *; simpl in *. split.
  - intros j pc Hj Hr. apply list_lookup_insert_Some in Hj as [(-> & <- & _)|[Hne Hj]].
    + congruence.
    + by apply (Hex j pc).
  - exists blocks, cur. split; [done|].
    destruct lk as [k|]; [|done]. destruct Hcur as (pc & Hk & Hpart).
    exists pc. split; [|done].
    rewrite list_lookup_insert_ne; [done|]. intros ->.
    rewrite Hi in Hk. injection Hk as <-. by destruct old.
Qed.

(** A step of the worker that holds the lock, inside [with lock]. *)
Lemma exclusion_inside cfg m ws q u ff lk con g p i old new out cur' :
  ws !! i = Some old -> in_region old = true -> in_region new = true ->
  (forall cur, partial_emission cfg i old cur ->
     cur' = cur ++ filter (fun e => by_worker e = true) out /\
     partial_emission cfg i new cur') ->
  exclusion cfg (mkState m ws q u ff lk con g p) ->
  exclusion cfg (mkState m (<[i := new]> ws) q u ff lk (con ++ out) g p).
Proof.
  intros Hi Hold Hnew Hstep [Hex (blocks & cur & Hcon & Hcur)].
  pose proof (Hex i old Hi Hold) as Hlk. simpl in Hlk. subst lk.
  unfold exclusion, current_emission, worker_console in *; simpl in *. split.
  - intros j pc Hj Hr. apply list_lookup_insert_Some in Hj as [(-> & <- & _)|[Hne Hj]].
    + done.
    + by apply (Hex j pc).
  - destruct Hcur as (pc & Hk & Hpart). rewrite Hi in Hk. injection Hk as <-.
    destruct (Hstep cur Hpart) as [-> Hnewp].
    exists blocks, (cur ++ filter (fun e => by_worker e = true) out).
    split; [by rewrite filter_app, Hcon, app_assoc|].
    exists new. split; [|done].
    apply list_lookup_insert_eq. by eapply lookup_lt_Some.
Qed.

(** The worker that holds the lock gives it back: its writes make a
    whole emission. *)
Lemma exclusion_leave cfg m ws q u ff lk con g p i old new b :
  ws !! i = Some old -> in_region old = true -> in_region new = false ->
  (forall cur, partial_emission cfg i old cur ->
     cur = [] \/ cur = emission_of cfg b) ->
  exclusion cfg (mkState m ws q u ff lk con g p) ->
  exclusion cfg (mkState m (<[i := new]> ws) q u ff None con g p).
Proof.
  intros Hi Hold Hnew Hstep [Hex (blocks & cur & Hcon & Hcur)].
  pose proof (Hex i old Hi Hold) as Hlk. simpl in Hlk. subst lk.
  unfold exclusion, current_emission, worker_console in *; simpl in *. split.
  - intros j pc Hj Hr. apply list_lookup_insert_Some in Hj as [(-> & <- & _)|[Hne Hj]].
    + congruence.
    + specialize (Hex j pc Hj Hr). congruence.
  - destruct Hcur as (pc & Hk & Hpart). rewrite Hi in Hk. injection Hk as <-.
    destruct (Hstep cur Hpart) as [->| ->].
    + exists blocks, []. done.
    + exists (blocks ++ [b]), []. split; [|done].
      rewrite Hcon, bind_app. simpl. by rewrite !app_nil_r.
Qed.

Lemma exclusion_step cfg a s s' :
  exclusion cfg s -> exec cfg a s = Some s' -> exclusion cfg s'.
Proof.
  intros Hx H.
  step_cases H s; try done;
    try (eapply exclusion_outside; by eauto).
  - (* a thread is spawned *)
    destruct Hx as [Hex (blocks & cur & Hcon & Hcur)].
    unfold exclusion, current_emission, worker_console in *; simpl in *. split.
    + intros j pc Hj Hr. apply lookup_app_Some in Hj as [Hj|[_ Hj]].
      * by apply (Hex j pc).
      * apply list_lookup_singleton_Some in Hj as [_ <-]. done.
    + exists blocks, cur. split; [done|]. destruct lk as [k|]; [|done].
      destruct Hcur as (pc & Hk & Hpart). exists pc.
      split; [by apply lookup_app_l_Some | done].
  - (* the notice of the handler *)
    destruct Hx as [Hex (blocks & cur & Hcon & Hcur)].
    unfold exclusion, current_emission, worker_console in *; simpl in *.
    rewrite !filter_app. simpl. rewrite !app_nil_r.
    split; [done|]. by exists blocks, cur.
  - (* the lock is taken *)
    destruct Hx as [Hex (blocks & cur & Hcon & Hcur)].
    unfold exclusion, current_emission, worker_console in *; simpl in *.
    subst cur. split.
    + intros j pc Hj Hr. apply list_lookup_insert_Some in Hj as [(-> & <- & _)|[Hne Hj]].
      * done.
      * by specialize (Hex j pc Hj Hr).
    + exists blocks, []. split; [done|]. exists (WWrite name out err).
      split; [|done]. apply list_lookup_insert_eq. by eapply lookup_lt_Some.
  - (* the write, nothing on the standard error *)
    apply decode_Some in Heqo as ->.
    eapply exclusion_inside; eauto. simpl. intros cur ->. split; [done|].
    unfold emission. by rewrite Heqb.
  - (* the write, then the standard error *)
    apply decode_Some in Heqo as ->.
    eapply exclusion_inside; eauto. simpl. intros cur ->. split; [done|].
    split; [|done]. by apply Nat.eqb_neq.
  - (* the standard output does not decode *)
    eapply (exclusion_leave _ _ _ _ _ _ _ _ _ _ _ _ _ (i, name, out, err));
      eauto; simpl; auto.
  - (* the flush *)
    eapply exclusion_inside; eauto. simpl. intros cur [Hne ->]. done.
  - (* the write of the standard error *)
    eapply exclusion_inside; eauto. simpl. intros cur [Hne ->]. split; [done|].
    unfold emission. apply Nat.eqb_neq in Hne. by rewrite Hne, Heqo.
  - (* the standard error does not decode *)
    eapply (exclusion_leave _ _ _ _ _ _ _ _ _ _ _ _ _ (i, name, out, err));
      eauto. simpl. intros cur [Hne ->]. right.
    unfold emission_of, emission; simpl.
    apply Nat.eqb_neq in Hne. by rewrite Hne, Heqo.
  - (* the lock is given back *)
    eapply (exclusion_leave _ _ _ _ _ _ _ _ _ _ _ _ _ (i, name, out, err));
      eauto.
  - (* the write raises: nothing was written *)
    eapply (exclusion_leave _ _ _ _ _ _ _ _ _ _ _ _ _ (i, name, out, err));
      eauto; simpl; auto.
  - (* the flush raises: the writes so far are those of an emission
       without standard error *)
    eapply (exclusion_leave _ _ _ _ _ _ _ _ _ _ _ _ _ (i, name, out, ""));
      eauto. simpl. intros cur [Hne ->]. by right.
  - (* the write of the standard error raises: the writes so far are those
       of an emission whose standard error does not decode *)
    eapply (exclusion_leave _ _ _ _ _ _ _ _ _ _ _ _ _
              (i, name, out, String "255" ""));
      eauto. simpl. intros cur [Hne ->]. by right.
Qed.

(** *** Each worker runs what it took *)

Lemma own_launches_init cfg : own_launches (init cfg).
Proof. intros i. done. Qed.

Lemma own_launches_step cfg a s s' :
  own_launches s -> exec cfg a s = Some s' -> own_launches s'.
Proof.
  unfold own_launches, got, ran. intros Ho H.
  step_cases H s; simpl in *; try done; intros j; specialize (Ho j);
    rewrite ?filter_app, ?fmap_app;
    try (destruct (decide (i = j)) as [->|Hne];
         [ rewrite list_lookup_insert_eq by (by eapply lookup_lt_Some);
           rewrite Hpc in Ho
         | rewrite list_lookup_insert_ne by done ]);
    simpl in *; rewrite ?app_nil_r in *;
    rewrite ?filter_cons_True, ?filter_cons_False, ?filter_nil by (simpl; congruence);
    simpl; rewrite ?app_nil_r; try done.
  - destruct (decide (j < length ws)) as [Hlt|Hge].
    + by rewrite lookup_app_l.
    + rewrite lookup_ge_None_2 in Ho by lia.
      destruct (decide (j = length ws)) as [->|Hne].
      * rewrite lookup_app_r, Nat.sub_diag by lia. simpl. done.
      * rewrite lookup_ge_None_2; [done|]. rewrite length_app. simpl. lia.
  - by rewrite Ho.
Qed.

(** *** The invariant of the runs *)

Lemma invariant_init cfg : invariant cfg (init cfg).
Proof.
  split; auto using own_launches_init, accounting_init, fifo_init,
    launches_init, failure_list_init, dead_launches_init, exit_code_init,
    exclusion_init, needs_cpp_init, pool_size_init.
Qed.

Lemma invariant_step cfg a s s' :
  invariant cfg s -> exec cfg a s = Some s' -> invariant cfg s'.
Proof.
  intros [] H.
  split; eauto using own_launches_step, accounting_step, fifo_step,
    launches_step, failure_list_step, dead_launches_step, exit_code_step,
    exclusion_step, needs_cpp_step, pool_size_step.
Qed.

Lemma invariant_run cfg sched s s' :
  invariant cfg s -> run cfg sched s = Some s' -> invariant cfg s'.
Proof.
  revert s. induction sched as [|a sched IH]; intros s Hinv H; simpl in H.
  - by injection H as <-.
  - destruct (exec cfg a s) as [s1|] eqn:Hs1; [|done].
    eauto using invariant_step.
Qed.

Lemma reachable_invariant cfg s : reachable cfg s -> invariant cfg s.
Proof. intros [sched H]. eauto using invariant_run, invariant_init. Qed.

Lemma run_app cfg sched1 sched2 s :
  run cfg (sched1 ++ sched2) s = s1 ← run cfg sched1 s; run cfg sched2 s1.
Proof.
  revert s. induction sched1 as [|a sched1 IH]; intros s; simpl; [done|].
  destruct (exec cfg a s); simpl; [apply IH | done].
Qed.

Lemma run_app_Some cfg sched1 sched2 s s1 :
  run cfg sched1 s = Some s1 ->
  run cfg (sched1 ++ sched2) s = run cfg sched2 s1.
Proof. intros H. by rewrite run_app, H. Qed.

(** *** The exceptions of the main thread *)

Lemma raised_cause_init cfg : raised_cause cfg (init cfg).
Proof.
  unfold raised_cause, init; simpl. by destruct (file_name_re cfg) eqn:H.
Qed.

Lemma raised_cause_step cfg a s s' :
  raised_cause cfg s -> exec cfg a s = Some s' -> raised_cause cfg s'.
Proof.
  unfold raised_cause. intros Hr H.
  step_cases H s; simpl in *; done.
Qed.

Lemma raised_cause_run cfg sched s s' :
  raised_cause cfg s -> run cfg sched s = Some s' -> raised_cause cfg s'.
Proof.
  revert s. induction sched as [|a sched IH]; intros s Hr H; simpl in H.
  - by injection H as <-.
  - destruct (exec cfg a s) as [s1|] eqn:Hs1; [|done].
    eauto using raised_cause_step.
Qed.

End PoolFacts.

(** ** The thread pool: what a run does *)

Module PoolClaims.

Import Cli Pool PoolInv PoolFacts.

(** *** A run that has drained the queue *)

Lemma no_task_no_pending ws :
  (forall i pc, ws !! i = Some pc -> task_of pc = None) ->
  ws ≫= pending_popen = [] /\ ws ≫= pending_fail = [].
Proof.
  induction ws as [|w ws IH]; intros H; [done|].
  destruct IH as [IH1 IH2]; [intros i pc Hi; by apply (H (S i))|].
  specialize (H 0 w eq_refl). rewrite !bind_cons, IH1, IH2.
  by destruct w.
Qed.

Lemma drained_quiet cfg s :
  invariant cfg s -> drained (main s) = true ->
  unfinished_tasks s = 0 /\ task_queue s = [] /\
  (forall i pc, workers s !! i = Some pc -> task_of pc = None).
Proof.
  intros Hinv Hd. destruct (inv_accounting _ _ Hinv) as [Hu Hz].
  specialize (Hz Hd). rewrite Hz in Hu. split_and!; [done|..].
  - apply length_zero_iff_nil. lia.
  - intros i pc. apply holding_zero. lia.
Qed.

Lemma drained_complete cfg s :
  invariant cfg s -> drained (main s) = true ->
  (gets s).*2 = matching cfg /\
  launched s ≡ₚ matching cfg /\
  failed_files s ≡ₚ failures s /\
  Forall (fun e => e.2 <> LaunchFailure) (popens s) /\
  (forall i, got i s = ran i s).
Proof.
  intros Hinv Hd.
  destruct (drained_quiet _ _ Hinv Hd) as (_ & Hq & Hno).
  destruct (no_task_no_pending _ Hno) as [Hpp Hpf].
  assert (Hgets : (gets s).*2 = matching cfg).
  { destruct (inv_fifo _ _ Hinv) as (todo & Htodo & Heq).
    unfold enqueued in Heq. rewrite Hq in Heq.
    destruct (main s); try done; simpl in Htodo; subst todo;
      by rewrite !app_nil_r in Heq. }
  split_and!; [done|..].
  - pose proof (inv_launches _ _ Hinv) as Hl. unfold launches in Hl.
    rewrite Hpp, app_nil_r, Hgets in Hl. done.
  - pose proof (inv_failure_list _ _ Hinv) as Hl. unfold failure_list in Hl.
    by rewrite Hpf, app_nil_r in Hl.
  - apply Forall_forall. intros [[i n] r] Hin Hr. simpl in Hr. subst r.
    apply (inv_dead_launches _ _ Hinv) in Hin.
    by specialize (Hno _ _ Hin).
  - intros i. rewrite (inv_own_launches _ _ Hinv i).
    destruct (workers s !! i) as [pc|] eqn:Hi; simpl; [|by rewrite app_nil_r].
    specialize (Hno _ _ Hi). destruct pc; try done; simpl; by rewrite app_nil_r.
Qed.

(** *** A run to completion exists *)

Lemma run_spawn cfg k ws :
  run cfg (replicate k Main) (mkState (MSpawn k) ws [] 0 [] None [] [] [])
  = Some (mkState (MSpawn 0) (ws ++ replicate k WGet) [] 0 [] None [] [] []).
Proof.
  revert ws. induction k as [|k IH]; intros ws; simpl.
  - by rewrite app_nil_r.
  - unfold exec, main_step; simpl. rewrite IH.
    by rewrite <- app_assoc.
Qed.

(** Worker 0 takes the oldest name of the queue and sees it through. *)
Lemma run_serve cfg m ws name q u ff con g p rc out err :
  process_ended (mkState m (WGet :: ws) (name :: q) (S u) ff None con g p) = false ->
  Utf8.well_formed out = true -> Utf8.well_formed err = true ->
  run cfg (serve 0 (Exited rc out err))
    (mkState m (WGet :: ws) (name :: q) (S u) ff None con g p)
  = Some (mkState m (WGet :: ws) q u
            (if (rc =? 0)%Z then ff else ff ++ [name]) None
            (con ++ emission cfg 0 name out err)
            (g ++ [(0, name)]) (p ++ [(0, name, Exited rc out err)])).
Proof.
  intros Hend Hout Herr. unfold serve, emission, wrote, header.
  destruct m; try discriminate Hend;
    destruct (String.length err =? 0) eqn:Hlen;
    simpl; unfold exec, run_tidy_step, Utf8.decode; simpl;
    rewrite ?Hout, ?Herr, ?Hlen; simpl;
    rewrite ?Hout, ?Herr, ?Hlen; simpl;
    rewrite <- ?app_assoc; done.
Qed.

Lemma run_feed cfg tool k names ff con g p :
  max_task cfg = S k -> well_behaved tool ->
  Forall (fun e => e.2 = tool e.1.2) p ->
  exists con' g' p',
    run cfg (feed cfg tool names)
      (mkState (MEnqueue names) (replicate (S k) WGet) [] 0 ff None con g p)
    = Some (mkState (MEnqueue []) (replicate (S k) WGet) [] 0
              (ff ++ failing tool
                       (filter (fun name => search_name cfg name = true) names))
              None con' g' p') /\
    Forall (fun e => e.2 = tool e.1.2) p'.
Proof.
  intros Hk Htool. revert ff con g p.
  induction names as [|name names IH]; intros ff con g p Hp.
  - exists con, g, p. simpl. by rewrite app_nil_r.
  - unfold feed. rewrite bind_cons. fold (feed cfg tool names).
    destruct (search_name cfg name) eqn:Hsel.
    + rewrite filter_cons_True by done.
      destruct (Htool name) as (rc & out & err & Hr & Hout & Herr).
      rewrite Hr. change (Main :: ?l) with ([Main] ++ l).
      rewrite <- !app_assoc.
      assert (Hput : run cfg [Main]
         (mkState (MEnqueue (name :: names)) (replicate (S k) WGet) [] 0 ff
            None con g p)
         = Some (mkState (MEnqueue names) (WGet :: replicate k WGet) [name] 1
                   ff None con g p)).
      { simpl. unfold exec, main_step; simpl. rewrite Hsel.
        unfold queue_full; simpl. rewrite Hk. done. }
      rewrite (run_app_Some _ _ _ _ _ Hput).
      erewrite run_app_Some; [|by apply run_serve].
      destruct (IH (if (rc =? 0)%Z then ff else ff ++ [name])
                  (con ++ emission cfg 0 name out err) (g ++ [(0, name)])
                  (p ++ [(0, name, Exited rc out err)])) as
        (con' & g' & p' & Hrun & Hp').
      { apply Forall_app. split; [done|]. apply Forall_singleton. by simpl. }
      exists con', g', p'. split; [|done].
      change (WGet :: replicate k WGet) with (replicate (S k) WGet).
      rewrite Hrun. do 2 f_equal. unfold failing.
      destruct (rc =? 0)%Z eqn:Hrc; simpl.
      * by rewrite filter_cons_False by (rewrite Hr; simpl; by rewrite Hrc).
      * rewrite filter_cons_True by (rewrite Hr; simpl; by rewrite Hrc).
        by rewrite <- app_assoc.
    + rewrite filter_cons_False by congruence.
      erewrite run_app_Some; [by apply IH|].
      simpl. unfold exec, main_step; simpl. by rewrite Hsel.
Qed.

Lemma existsb_filter_length {A} (f : A -> bool) (l : list A) :
  existsb f l = negb (length (filter (fun x => f x = true) l) =? 0).
Proof.
  induction l as [|x l IH]; [done|]. simpl. destruct (f x) eqn:Hx.
  - by rewrite filter_cons_True.
  - by rewrite filter_cons_False by congruence.
Qed.

(** For every pool of at least one worker and every tool that starts and
    whose output decodes, the sequential schedule runs to the exit. *)
Lemma sequential_exits cfg tool names R :
  1 <= max_task cfg -> cpp (args cfg) = Some names ->
  file_name_re cfg = Some R -> well_behaved tool ->
  exists s,
    run cfg (sequential cfg tool) (init cfg) = Some s /\
    main s = MExited (expected_code cfg tool) /\
    Forall (fun e => e.2 = tool e.1.2) (popens s).
Proof.
  intros Hk Hcpp Hre Htool.
  destruct (max_task cfg) as [|k] eqn:Hmax; [lia|].
  unfold sequential, init, candidates. rewrite Hre, Hcpp, Hmax. simpl default.
  destruct (run_feed cfg tool k names [] [] [] [] Hmax Htool) as
    (con' & g' & p' & Hfeed & Hp'); [done|].
  exists (mkState
    (MExited (if length (failing tool
                 (filter (fun name => search_name cfg name = true) names)) =? 0
              then 0%Z else 1%Z))
    (replicate (S k) WGet) [] 0
    (failing tool (filter (fun name => search_name cfg name = true) names))
    None con' g' p').
  split_and!; [|simpl|done].
  - rewrite (run_app_Some _ _ _ _ _ (run_spawn cfg (S k) [])).
    erewrite run_app_Some;
      [|simpl; unfold exec, main_step; simpl; by rewrite Hcpp].
    rewrite (run_app_Some _ _ _ _ _ Hfeed).
    simpl. unfold exec, main_step; simpl. done.
  - unfold expected_code, matching, candidates. rewrite Hcpp. simpl default.
    rewrite existsb_filter_length. unfold failing.
    by destruct (length _ =? 0).
Qed.

(** *** Every selected file is run once *)

(** With the [re] of the model for [re.compile], the test of the enqueue
    loop is the selection of [Re.selected]. *)
Lemma search_name_library cfg name :
  re_compile cfg = Re.library ->
  search_name cfg name = true <->
  Re.selected (files (args cfg)) name = Some true.
Proof.
  unfold search_name, file_name_re, Re.selected, Re.file_name_re, Re.library.
  intros ->. destruct (Re.re_compile _) as [r|]; simpl; [|done].
  split; [by intros -> | by intros [= ->]].
Qed.

Lemma launched_submseteq cfg s :
  invariant cfg s -> launched s ⊆+ matching cfg.
Proof.
  intros Hinv. destruct (inv_fifo _ _ Hinv) as (todo & _ & <-).
  unfold enqueued. rewrite <- app_assoc.
  apply submseteq_inserts_r.
  pose proof (inv_launches _ _ Hinv) as Hl. unfold launches in Hl.
  rewrite Hl. by apply submseteq_inserts_r.
Qed.

Lemma matching_cpp cfg names :
  cpp (args cfg) = Some names ->
  matching cfg = filter (fun name => search_name cfg name = true) names.
Proof. unfold matching, candidates. by intros ->. Qed.

(** *** The exit code *)

Lemma failures_nil_iff s :
  Forall (fun e => e.2 <> LaunchFailure) (popens s) ->
  failures s = [] <-> Forall (fun e => exited_zero e.2 = true) (popens s).
Proof.
  unfold failures. induction 1 as [|[[i n] r] p Hr _ IH].
  - done.
  - rewrite Forall_cons. simpl in *.
    destruct r as [|rc out err]; [done|]. simpl.
    destruct (rc =? 0)%Z eqn:Hrc; simpl.
    + rewrite filter_cons_False by (simpl; rewrite Hrc; done). tauto.
    + rewrite filter_cons_True by (simpl; rewrite Hrc; done).
      simpl. split; [done | by intros [? _]].
Qed.

Lemma failures_cons_iff s :
  failures s <> [] <-> Exists (fun e => exited_nonzero e.2 = true) (popens s).
Proof.
  unfold failures. induction (popens s) as [|e p IH].
  - rewrite Exists_nil. simpl. tauto.
  - rewrite Exists_cons. destruct (exited_nonzero e.2) eqn:He.
    + rewrite filter_cons_True by done. simpl. split; [auto | done].
    + rewrite filter_cons_False by congruence. rewrite IH.
      split; [auto | intros [?|?]; [done | auto]].
Qed.

Lemma failures_of_tool tool s :
  Forall (fun e => e.2 = tool e.1.2) (popens s) ->
  failures s = failing tool (launched s).
Proof.
  unfold failures, failing, launched.
  induction 1 as [|[[i n] r] p Hr _ IH]; [done|].
  cbn [fst snd] in Hr. subst r. rewrite fmap_cons.
  change (popen_name (i, n, tool n)) with n.
  destruct (exited_nonzero (tool n)) eqn:Hn.
  - rewrite !filter_cons_True by done. rewrite fmap_cons, IH. done.
  - rewrite !filter_cons_False by (cbn [fst snd]; congruence). done.
Qed.

Lemma nil_length_eqb {A} (l : list A) : l = [] <-> (length l =? 0) = true.
Proof. rewrite Nat.eqb_eq. by destruct l. Qed.

(** *** A launch that fails *)

Lemma reachable_exec cfg a s s' :
  reachable cfg s -> exec cfg a s = Some s' -> reachable cfg s'.
Proof.
  intros [sched H] Hs. exists (sched ++ [a]).
  rewrite (run_app_Some _ _ _ _ _ H). simpl. by rewrite Hs.
Qed.

Lemma reachable_run cfg sched s s' :
  reachable cfg s -> run cfg sched s = Some s' -> reachable cfg s'.
Proof.
  intros [sched0 H] Hs. exists (sched0 ++ sched).
  by rewrite (run_app_Some _ _ _ _ _ H).
Qed.

Lemma dead_step cfg a s s' i e t :
  workers s !! i = Some (WDead e t) -> exec cfg a s = Some s' ->
  workers s' !! i = Some (WDead e t).
Proof.
  intros Hi H. step_cases H s; simpl in *; try done;
    try (by apply lookup_app_l_Some);
    (destruct (decide (i0 = i)) as [->|Hne];
     [congruence | by rewrite list_lookup_insert_ne]).
Qed.

Lemma dead_run cfg sched s s' i e t :
  workers s !! i = Some (WDead e t) -> run cfg sched s = Some s' ->
  workers s' !! i = Some (WDead e t).
Proof.
  revert s. induction sched as [|a sched IH]; intros s Hi H; simpl in H.
  - by injection H as <-.
  - destruct (exec cfg a s) as [s1|] eqn:Hs1; [|done].
    eauto using dead_step.
Qed.

(** A worker that ended with a task in hand keeps the queue from
    draining. *)
Lemma dead_with_task_never_drained cfg s i e name :
  invariant cfg s -> workers s !! i = Some (WDead e (Some name)) ->
  drained (main s) = false.
Proof.
  intros Hinv Hi. destruct (drained (main s)) eqn:Hd; [|done].
  destruct (drained_quiet _ _ Hinv Hd) as (_ & _ & Hno).
  by specialize (Hno _ _ Hi).
Qed.

(** *** Runs that do not come to the exit *)

(** C1, as amended: for every list of candidates given with [-cpp] and
    every pool of at least one worker, on a run that comes to [sys.exit] the
    tool was launched as many times as there are selected candidates, on
    each of them once; each of them was put in the queue once and taken out
    once, by one worker of the pool, the one that ran the tool on it. At no
    point of a run was a name launched more often than it is selected. A run
    that comes to [sys.exit] exists whenever the patterns compile, the tool
    starts and its output decodes; and once a worker has ended on an
    exception, its task in hand, no run comes to [sys.exit]. *)
Theorem every_selected_file_is_run_once (cfg : config) (names : list string) :
  1 <= max_task cfg -> cpp (args cfg) = Some names ->
  let selected := filter (fun name => search_name cfg name = true) names in
  (forall sched s c,
     run cfg sched (init cfg) = Some s -> main s = MExited c ->
     length (popens s) = length selected /\
     launched s ≡ₚ selected /\
     (gets s).*2 = selected /\ task_queue s = [] /\
     Forall (fun e => e.1 < max_task cfg) (gets s) /\
     (forall i, got i s = ran i s)) /\
  (forall sched s,
     run cfg sched (init cfg) = Some s -> launched s ⊆+ selected) /\
  (forall tool R,
     file_name_re cfg = Some R -> well_behaved tool ->
     exists sched s c,
       run cfg sched (init cfg) = Some s /\ main s = MExited c) /\
  (forall sched s i e name,
     run cfg sched (init cfg) = Some s ->
     workers s !! i = Some (WDead e (Some name)) ->
     forall sched' s', run cfg sched' s = Some s' ->
       forall c, main s' <> MExited c).
Proof.
  intros Hk Hcpp selected. subst selected.
  rewrite <- (matching_cpp _ _ Hcpp). split_and!.
  - intros sched s c Hrun Hc.
    assert (Hinv : invariant cfg s) by (apply reachable_invariant; by exists sched).
    assert (Hd : drained (main s) = true) by (by rewrite Hc).
    destruct (drained_complete _ _ Hinv Hd) as (Hg & Hl & _ & _ & Hown).
    destruct (drained_quiet _ _ Hinv Hd) as (_ & Hq & _).
    split_and!; try done.
    + apply Permutation_length in Hl. unfold launched in Hl.
      by rewrite length_fmap in Hl.
    + destruct (inv_pool_size _ _ Hinv) as [Hn Hall]. rewrite Hc in Hn.
      by rewrite Hn in Hall.
  - intros sched s Hrun. apply launched_submseteq.
    apply reachable_invariant. by exists sched.
  - intros tool R HR Htool.
    destruct (sequential_exits cfg tool names R Hk Hcpp HR Htool)
      as (s & Hrun & Hc & _).
    by exists (sequential cfg tool), s, (expected_code cfg tool).
  - intros sched s i e name Hrun Hi sched' s' Hrun' c Hc.
    assert (Hinv : invariant cfg s').
    { apply reachable_invariant. eapply reachable_run; [|exact Hrun'].
      by exists sched. }
    pose proof (dead_run _ _ _ _ _ _ _ Hi Hrun') as Hdead.
    pose proof (dead_with_task_never_drained _ _ _ _ _ Hinv Hdead) as Hd.
    by rewrite Hc in Hd.
Qed.

Lemma every_selected_file_is_run_once_witness :
  1 <= max_task example_cfg /\
  cpp (args example_cfg) = Some ["apple.cpp"; "cherry.hpp"; "banana.cpp"] /\
  run example_cfg example_sched (init example_cfg) = Some example_final /\
  main example_final = MExited 1 /\
  length (popens example_final)
  = length (filter (fun name => search_name example_cfg name = true)
              ["apple.cpp"; "cherry.hpp"; "banana.cpp"]).
Proof.
  assert (Hk : 1 <= max_task example_cfg) by (simpl; lia).
  assert (Hrun : run example_cfg example_sched (init example_cfg)
                 = Some example_final) by (vm_compute; reflexivity).
  split_and!; [exact Hk | reflexivity | exact Hrun | reflexivity |].
  exact (proj1 (proj1 (every_selected_file_is_run_once example_cfg
                         ["apple.cpp"; "cherry.hpp"; "banana.cpp"] Hk eq_refl)
                  example_sched example_final 1%Z Hrun eq_refl)).
Defined.

(** Once the only worker has ended on [a.cpp], [b.cpp] stays in the queue
    and nothing more is launched. *)
Lemma stranded_step a s s' :
  workers s = [WDead OSError (Some "a.cpp")] ->
  task_queue s = ["b.cpp"] -> unfinished_tasks s = 2 ->
  match main s with MSpawn _ | MEnqueue _ => False | _ => True end ->
  exec one_worker_cfg a s = Some s' ->
  workers s' = [WDead OSError (Some "a.cpp")] /\
  task_queue s' = ["b.cpp"] /\ unfinished_tasks s' = 2 /\
  match main s' with MSpawn _ | MEnqueue _ => False | _ => True end /\
  popens s' = popens s /\ (a = Interrupt \/ a = Main \/ a = Fault MainThread) /\
  (a = Main -> main s <> MJoin).
Proof.
  intros Hw Hq Hu Hm H.
  step_cases H s; simpl in *; subst; simpl in *; try done;
    try (destruct i as [|i]; simplify_eq/=; done);
    split_and!; try done; auto.
Qed.

(** C1, as stated, fails: with one worker, two selected candidates and a
    binary that cannot be started, the tool is launched once, [b.cpp] is
    never taken out of the queue, no thread can step, and whatever happens
    next nothing more is launched and the main thread never exits with a
    code. *)
Lemma a_failed_launch_strands_the_queue :
  run one_worker_cfg stranded_sched (init one_worker_cfg) = Some stranded /\
  matching one_worker_cfg = ["a.cpp"; "b.cpp"] /\
  launched stranded = ["a.cpp"] /\ task_queue stranded = ["b.cpp"] /\
  main stranded = MJoin /\
  (forall a, a <> Interrupt -> exec one_worker_cfg a stranded = None) /\
  (forall sched s',
     run one_worker_cfg sched stranded = Some s' ->
     launched s' = ["a.cpp"] /\ task_queue s' = ["b.cpp"] /\
     forall c, main s' <> MExited c).
Proof.
  split_and!; try (vm_compute; reflexivity).
  - intros a Ha. destruct a as [| |[|i]|[|i] r|[|[|i]]]; try done.
  - intros sched s' Hrun.
    assert (Hgen : forall sched s,
      workers s = [WDead OSError (Some "a.cpp")] ->
      task_queue s = ["b.cpp"] -> unfinished_tasks s = 2 ->
      match main s with MSpawn _ | MEnqueue _ => False | _ => True end ->
      run one_worker_cfg sched s = Some s' ->
      popens s' = popens s /\ task_queue s' = ["b.cpp"] /\
      unfinished_tasks s' = 2 /\
      match main s' with MSpawn _ | MEnqueue _ => False | _ => True end).
    { clear. induction sched as [|a sched IH]; intros s Hw Hq Hu Hm H; simpl in H.
      - by injection H as <-.
      - destruct (exec one_worker_cfg a s) as [s1|] eqn:Hs1; [|done]. simpl in H.
        destruct (stranded_step _ _ _ Hw Hq Hu Hm Hs1)
          as (Hw1 & Hq1 & Hu1 & Hm1 & Hp1 & _).
        rewrite <- Hp1. by apply IH. }
    destruct (Hgen sched stranded eq_refl eq_refl eq_refl I Hrun)
      as (Hp & Hq & Hu & Hm).
    split_and!; [|done|].
    + unfold launched. by rewrite Hp.
    + intros c Hc.
      assert (Hinv : invariant one_worker_cfg s').
      { apply reachable_invariant. eapply reachable_run; [|exact Hrun].
        exists stranded_sched. vm_compute. reflexivity. }
      assert (Hd : drained (main s') = true) by (by rewrite Hc).
      destruct (drained_quiet _ _ Hinv Hd) as (Hu0 & _). lia.
Qed.

(** *** The exit code *)

(** Nothing is selected, nothing launched and nothing failed when the
    patterns do not compile or [-cpp] is absent. *)
Lemma nothing_selected cfg s :
  invariant cfg s ->
  file_name_re cfg = None \/ cpp (args cfg) = None ->
  popens s = [] /\ failed_files s = [].
Proof.
  intros Hinv Hcause.
  assert (Hm : matching cfg = []).
  { unfold matching, candidates. destruct Hcause as [Hre|Hcpp].
    - induction (default [] (cpp (args cfg))) as [|n l IH]; [done|].
      rewrite filter_cons_False; [done|]. unfold search_name. by rewrite Hre.
    - by rewrite Hcpp. }
  pose proof (launched_submseteq _ _ Hinv) as Hl. rewrite Hm in Hl.
  apply submseteq_nil_r in Hl.
  assert (Hp : popens s = []).
  { unfold launched in Hl. by apply fmap_nil_inv in Hl. }
  split; [done|].
  pose proof (inv_failure_list _ _ Hinv) as Hf. unfold failure_list, failures in Hf.
  rewrite Hp in Hf. simpl in Hf.
  apply Permutation_nil_r in Hf. by apply app_eq_nil in Hf as [? _].
Qed.

(** C2, as amended: for every pool of at least one worker, when the main
    thread comes to [sys.exit] the code it gives is 0 or 1; it is 0 exactly
    when the failure list is empty, that is when every launch of the tool
    ended with status zero, and 1 exactly when the failure list is not
    empty, that is when some launch ended with another status; the code is
    the one the results of the tool on the selected candidates give,
    whatever the size of the pool and the schedule. A process that ends on
    the exception of [re.compile] or on that of the loop over a list of
    candidates that is [None] ends with status 1 although nothing was
    launched and the failure list is empty, and status 0 is only that of
    [sys.exit(0)]. After a worker has ended on an exception the main thread
    never comes to [sys.exit]. A run to [sys.exit] exists whenever the
    patterns compile, the tool starts and its output decodes. *)
Theorem exit_code_iff_some_failure (cfg : config) :
  1 <= max_task cfg ->
  (forall sched s c,
     run cfg sched (init cfg) = Some s -> main s = MExited c ->
     (c = 0%Z \/ c = 1%Z) /\
     (c = 0%Z <-> failed_files s = []) /\
     (c = 1%Z <-> failed_files s <> []) /\
     (c = 0%Z <-> Forall (fun e => exited_zero e.2 = true) (popens s)) /\
     (c = 1%Z <-> Exists (fun e => exited_nonzero e.2 = true) (popens s)) /\
     (forall tool, Forall (fun e => e.2 = tool e.1.2) (popens s) ->
        c = expected_code cfg tool)) /\
  (forall sched s c,
     run cfg sched (init cfg) = Some s -> exit_status (main s) = Some c ->
     (c = 0%Z \/ c = 1%Z) /\
     (c = 0%Z -> main s = MExited 0) /\
     (forall e, main s = MRaised e -> e = ReError \/ e = TypeError ->
        c = 1%Z /\ popens s = [] /\ failed_files s = [] /\
        (e = ReError -> file_name_re cfg = None) /\
        (e = TypeError -> cpp (args cfg) = None))) /\
  (forall sched s i e name,
     run cfg sched (init cfg) = Some s ->
     workers s !! i = Some (WDead e (Some name)) ->
     forall sched' s', run cfg sched' s = Some s' ->
       forall c, main s' <> MExited c) /\
  (forall tool names R,
     cpp (args cfg) = Some names ->
     file_name_re cfg = Some R -> well_behaved tool ->
     exists sched s,
       run cfg sched (init cfg) = Some s /\
       main s = MExited (expected_code cfg tool)).
Proof.
  intros Hk. split_and!.
  - intros sched s c Hrun Hc.
    assert (Hinv : invariant cfg s) by (apply reachable_invariant; by exists sched).
    assert (Hd : drained (main s) = true) by (by rewrite Hc).
    destruct (drained_complete _ _ Hinv Hd) as (_ & Hl & Hff & Hnl & _).
    pose proof (inv_exit_code _ _ Hinv c Hc) as Hcode.
    assert (Hnil : failed_files s = [] <-> failures s = []).
    { split; intros H0; [rewrite H0 in Hff | rewrite H0 in Hff].
      - by apply Permutation_nil_l in Hff.
      - by apply Permutation_nil_r in Hff. }
    assert (H0 : c = 0%Z <-> failed_files s = []).
    { rewrite nil_length_eqb, Hcode. by destruct (length _ =? 0). }
    assert (H1 : c = 1%Z <-> failed_files s <> []).
    { rewrite nil_length_eqb, Hcode. by destruct (length _ =? 0). }
    split_and!; try done.
    + rewrite Hcode. destruct (length _ =? 0); auto.
    + by rewrite H0, Hnil, failures_nil_iff.
    + by rewrite H1, Hnil, failures_cons_iff.
    + intros tool Htool. rewrite Hcode. unfold expected_code.
      rewrite existsb_filter_length.
      assert (Hlen : length (failed_files s) = length (failing tool (matching cfg))).
      { apply Permutation_length. rewrite Hff, (failures_of_tool tool s Htool).
        unfold failing. by rewrite Hl. }
      rewrite Hlen. unfold failing.
      by destruct (length (filter _ (matching cfg))).
  - intros sched s c Hrun Hst.
    assert (Hinv : invariant cfg s) by (apply reachable_invariant; by exists sched).
    pose proof (raised_cause_run _ _ _ _ (raised_cause_init cfg) Hrun) as Hrc.
    unfold raised_cause in Hrc. split_and!.
    + destruct (main s) as [| | | | | | |e|c'] eqn:Hm; try done.
      * destruct e; simplify_eq/=; auto.
      * simpl in Hst. injection Hst as <-.
        rewrite (inv_exit_code _ _ Hinv _ Hm).
        destruct (length _ =? 0); auto.
    + intros ->. destruct (main s) as [| | | | | | |e|c'] eqn:Hm; try done.
      * destruct e; simplify_eq/=.
      * simpl in Hst. by injection Hst as ->.
    + intros e Hm He. rewrite Hm in Hst, Hrc.
      assert (Hcause : file_name_re cfg = None \/ cpp (args cfg) = None).
      { destruct He as [-> | ->]; auto. }
      destruct (nothing_selected _ _ Hinv Hcause) as [Hp Hf].
      destruct He as [-> | ->]; simpl in Hst; injection Hst as <-;
        split_and!; done.
  - intros sched s i e name Hrun Hi sched' s' Hrun' c Hc.
    assert (Hinv : invariant cfg s').
    { apply reachable_invariant. eapply reachable_run; [|exact Hrun'].
      by exists sched. }
    pose proof (dead_run _ _ _ _ _ _ _ Hi Hrun') as Hdead.
    pose proof (dead_with_task_never_drained _ _ _ _ _ Hinv Hdead) as Hd.
    by rewrite Hc in Hd.
  - intros tool names R Hcpp HR Htool.
    destruct (sequential_exits cfg tool names R Hk Hcpp HR Htool)
      as (s & Hrun & Hc & _).
    by exists (sequential cfg tool), s.
Qed.

Lemma exit_code_iff_some_failure_witness :
  1 <= max_task example_cfg /\
  run example_cfg example_sched (init example_cfg) = Some example_final /\
  main example_final = MExited 1 /\
  (1%Z = 1%Z <-> failed_files example_final <> []).
Proof.
  assert (Hk : 1 <= max_task example_cfg) by (simpl; lia).
  assert (Hrun : run example_cfg example_sched (init example_cfg)
                 = Some example_final) by (vm_compute; reflexivity).
  split_and!; [exact Hk | exact Hrun | reflexivity |].
  exact (proj1 (proj2 (proj2
    (proj1 (exit_code_iff_some_failure example_cfg Hk)
       example_sched example_final 1%Z Hrun eq_refl)))).
Defined.

(** C2, as stated, fails: without [-cpp] the process ends with status 1,
    no launch made and the failure list empty; and when the one launch ends
    with status zero and an output that is not UTF-8, the worker ends, no
    thread can step and the main thread never exits with code 0. *)
Lemma status_one_without_a_failure :
  (exists s,
     run example_cfg_no_cpp [Main; Main; Main] (init example_cfg_no_cpp) = Some s /\
     main s = MRaised TypeError /\ exit_status (main s) = Some 1%Z /\
     popens s = [] /\ failed_files s = []) /\
  run one_worker_cfg garbled_sched (init one_worker_cfg) = Some garbled /\
  popens garbled = [(0, "a.cpp", Exited 0 (String "255" "") "")] /\
  Forall (fun e => exited_zero e.2 = true) (popens garbled) /\
  failed_files garbled = [] /\
  workers garbled = [WDead UnicodeDecodeError (Some "a.cpp")] /\
  exit_status (main garbled) = None /\
  (forall a, a <> Interrupt -> exec one_worker_cfg a garbled = None) /\
  (forall sched s', run one_worker_cfg sched garbled = Some s' ->
     forall c, main s' <> MExited c).
Proof.
  split_and!; try (vm_compute; reflexivity).
  - eexists. split; [vm_compute; reflexivity|]. split_and!; reflexivity.
  - repeat constructor.
  - intros a Ha. destruct a as [| |[|i]|[|i] r|[|[|i]]]; try done.
  - intros sched s' Hrun c Hc.
    assert (Hinv : invariant one_worker_cfg s').
    { apply reachable_invariant. eapply reachable_run; [|exact Hrun].
      exists garbled_sched. vm_compute. reflexivity. }
    assert (Hdead : workers s' !! 0 = Some (WDead UnicodeDecodeError (Some "a.cpp"))).
    { eapply dead_run; [|exact Hrun]. reflexivity. }
    pose proof (dead_with_task_never_drained _ _ _ _ _ Hinv Hdead) as Hd.
    by rewrite Hc in Hd.
Qed.

(** C6, as amended: when the external binary cannot be started for a
    task, the exception ends the worker: the file name is not recorded in
    the failure list, the worker takes no further task and never marks this
    one as done, so that the queue never drains and the main thread never
    exits with a code; the other workers of the pool go on as before. *)
Theorem launch_failure_ends_the_worker (cfg : config) (s : state)
    (i : nat) (name : string) :
  reachable cfg s -> process_ended s = false ->
  workers s !! i = Some (WPopen name) ->
  exists s',
    exec cfg (Run i LaunchFailure) s = Some s' /\
    failed_files s' = failed_files s /\
    workers s' = <[i := WDead OSError (Some name)]> (workers s) /\
    unfinished_tasks s' = unfinished_tasks s /\
    (forall j input, i <> j ->
       is_Some (pc ← workers s' !! j; run_tidy_step cfg j input pc s') <->
       is_Some (pc ← workers s !! j; run_tidy_step cfg j input pc s)) /\
    (forall sched s'', run cfg sched s' = Some s'' ->
       workers s'' !! i = Some (WDead OSError (Some name)) /\
       (forall a, a = Work i \/ (exists r, a = Run i r) -> exec cfg a s'' = None) /\
       1 <= unfinished_tasks s'' /\
       main s'' <> MCheck /\ (forall c, main s'' <> MExited c) /\
       failed_files s'' ⊆+ failures s'').
Proof.
  intros Hreach Hend Hi.
  assert (Hexec : exec cfg (Run i LaunchFailure) s
                  = Some (mkState (main s)
                            (<[i := WDead OSError (Some name)]> (workers s))
                            (task_queue s) (unfinished_tasks s) (failed_files s)
                            (lock s) (console s) (gets s)
                            (popens s ++ [(i, name, LaunchFailure)]))).
  { unfold exec. rewrite Hend, Hi. done. }
  eexists. split; [exact Hexec|]. split_and!; try done.
  - intros j input Hne.
    destruct s as [m ws q u ff lk con g p]; simpl in *.
    rewrite !list_lookup_insert_ne by done.
    destruct (ws !! j) as [pc|]; simpl; [|done].
    unfold run_tidy_step, set_worker, set_lock, emit; simpl.
    destruct pc, input; simpl; try done;
      repeat match goal with
      | |- context [match ?x with _ => _ end] => destruct x
      end; split; intros [? ?]; try done; eauto.
  - intros sched s'' Hrun.
    assert (Hdead : workers s'' !! i = Some (WDead OSError (Some name))).
    { eapply dead_run; [|exact Hrun]. simpl.
      apply list_lookup_insert_eq. by eapply lookup_lt_Some. }
    assert (Hinv : invariant cfg s'').
    { apply reachable_invariant.
      eauto using reachable_run, reachable_exec. }
    pose proof (dead_with_task_never_drained _ _ _ _ _ Hinv Hdead) as Hd.
    split_and!; try done.
    + intros a [->|[r ->]]; unfold exec; destruct (process_ended s''); try done;
        by rewrite Hdead.
    + destruct (inv_accounting _ _ Hinv) as [Hu _].
      assert (holding (workers s'') <> 0); [|lia].
      intros Hh. by pose proof (holding_zero _ _ _ Hh Hdead).
    + intros Hm. by rewrite Hm in Hd.
    + intros c Hm. by rewrite Hm in Hd.
    + pose proof (inv_failure_list _ _ Hinv) as Hf. unfold failure_list in Hf.
      rewrite <- Hf. by apply submseteq_inserts_r.
Qed.

Lemma launch_failure_ends_the_worker_witness :
  reachable example_cfg example_start /\
  process_ended example_start = false /\
  workers example_start !! 0 = Some (WPopen "apple.cpp") /\
  exists s',
    exec example_cfg (Run 0 LaunchFailure) example_start = Some s' /\
    failed_files s' = failed_files example_start.
Proof.
  assert (Hreach : reachable example_cfg example_start).
  { exists [Main; Main; Main; Main; Work 0]. vm_compute. reflexivity. }
  split_and!; [exact Hreach | reflexivity | reflexivity |].
  destruct (launch_failure_ends_the_worker example_cfg example_start 0
              "apple.cpp" Hreach eq_refl eq_refl) as (s' & H1 & H2 & _).
  exists s'. exact (conj H1 H2).
Defined.

(** C6, as stated, fails: after a launch that failed the failure list is
    empty, the worker has ended, and the main thread waits for ever. *)
Lemma launch_failure_is_not_recorded :
  exists s,
    run example_cfg [Main; Main; Main; Main; Work 0; Run 0 LaunchFailure]
      (init example_cfg) = Some s /\
    failed_files s = [] /\
    workers s !! 0 = Some (WDead OSError (Some "apple.cpp")) /\
    exec example_cfg (Work 0) s = None.
Proof.
  eexists. split; [vm_compute; reflexivity|].
  split_and!; vm_compute; reflexivity.
Qed.

(** *** The interrupt *)

Lemma interrupted_step cfg a s s' :
  interrupted s -> exec cfg a s = Some s' -> interrupted s'.
Proof.
  unfold interrupted. intros Hi H.
  step_cases H s; simpl in *; try done;
    try (destruct m; try done; destruct Hi as (c1 & c2 & ->);
         eexists c1, _; rewrite <- !app_assoc; reflexivity).
  exists con, []. by rewrite <- app_assoc.
Qed.

Lemma interrupted_run cfg sched s s' :
  interrupted s -> run cfg sched s = Some s' -> interrupted s'.
Proof.
  revert s. induction sched as [|a sched IH]; intros s Hi H; simpl in H.
  - by injection H as <-.
  - destruct (exec cfg a s) as [s1|] eqn:Hs1; [|done].
    eauto using interrupted_step.
Qed.

Lemma ended_no_step cfg a s : process_ended s = true -> exec cfg a s = None.
Proof. unfold exec. by intros ->. Qed.

(** C8, as amended: an interrupt while the main thread fills the queue or
    waits for it to drain takes the main thread to the handler. The steps of
    the handler are the [print] of the notice, a newline and then the text
    [Ctrl-C detected, goodbye.], and its newline, and then the kill of the
    whole process, after which no thread steps. The handler does not flush
    the standard output: at the kill the notice is still part of what was
    written since the last flush of the stream. Whatever the threads do in
    between, [join] never returns, the main thread never exits with a code,
    and no step of the main thread touches the workers or flushes: they are
    not asked to stop. *)
Theorem interrupt_kills_the_process (cfg : config) (s : state) :
  (exists rest, main s = MEnqueue rest) \/ main s = MJoin ->
  exists s1,
    exec cfg Interrupt s = Some s1 /\ main s1 = MHandler /\
    workers s1 = workers s /\ console s1 = console s /\
    (exists s2 s3,
       exec cfg Main s1 = Some s2 /\ main s2 = MKill /\
       console s2
       = console s
         ++ [(MainThread, StdoutWrite (String "010" "Ctrl-C detected, goodbye."));
             (MainThread, StdoutWrite (String "010" ""))] /\
       exec cfg Main s2 = Some s3 /\ main s3 = MKilled /\
       console s3 = console s2 /\
       stdout_buffer (console s3)
       = stdout_buffer (console s)
         ++ [String "010" "Ctrl-C detected, goodbye."; String "010" ""] /\
       workers s3 = workers s /\ task_queue s3 = task_queue s /\
       unfinished_tasks s3 = unfinished_tasks s /\
       forall a, exec cfg a s3 = None) /\
    (forall sched s',
       run cfg sched s1 = Some s' ->
       drained (main s') = false /\
       (forall c, main s' <> MExited c) /\
       (main s' = MKilled ->
          (exists con con',
             console s'
             = con
               ++ [(MainThread,
                    StdoutWrite (String "010" "Ctrl-C detected, goodbye."));
                   (MainThread, StdoutWrite (String "010" ""))]
               ++ con') /\
          forall a, exec cfg a s' = None) /\
       (forall s'', exec cfg Main s' = Some s'' ->
          workers s'' = workers s' /\ task_queue s'' = task_queue s' /\
          lock s'' = lock s' /\
          exists out, console s'' = console s' ++ out /\
            Forall (fun e => e.2 <> StdoutFlush) out)).
Proof.
  intros Hm.
  assert (Hexec : exec cfg Interrupt s = Some (set_main MHandler s)).
  { unfold exec, interrupt_step, process_ended.
    destruct Hm as [[rest ->]| ->]; done. }
  exists (set_main MHandler s). split_and!; try done.
  - eexists _, _. split_and!; try done.
    + simpl. by rewrite <- app_assoc.
    + unfold stdout_buffer. simpl. rewrite !foldl_app. simpl.
      unfold buffer_step. simpl. by rewrite <- app_assoc.
  - intros sched s' Hrun.
    assert (Hi : interrupted s') by (by eapply interrupted_run; [|exact Hrun]).
    unfold interrupted in Hi. split_and!.
    + by destruct (main s') as [| | | | | | |[]|].
    + intros c Hc. by rewrite Hc in Hi.
    + intros Hk. rewrite Hk in Hi. split; [done|].
      intros a. apply ended_no_step. unfold process_ended. by rewrite Hk.
    + intros s'' H. unfold exec, main_step in H.
      destruct (process_ended s'); [done|].
      destruct (main s') as [| | | | | | |[]|]; simplify_eq; simpl;
        split_and!; try done;
        try (by exists []; rewrite app_nil_r).
      eexists. rewrite <- app_assoc. split; [reflexivity|].
      by repeat constructor.
Qed.

Lemma interrupt_kills_the_process_witness :
  ((exists rest, main example_start = MEnqueue rest) \/ main example_start = MJoin) /\
  exists s1,
    exec example_cfg Interrupt example_start = Some s1 /\ main s1 = MHandler.
Proof.
  assert (Hm : (exists rest, main example_start = MEnqueue rest)
               \/ main example_start = MJoin).
  { left. eexists. reflexivity. }
  split; [exact Hm|].
  destruct (interrupt_kills_the_process example_cfg example_start Hm)
    as (s1 & H1 & H2 & _).
  exists s1. exact (conj H1 H2).
Defined.

(** C8, as stated, fails for a standard output that does not pass its
    text on at once: the process is killed with the notice still in the
    buffer of the stream, nothing flushed. *)
Lemma notice_is_left_in_the_buffer :
  run example_cfg [Main; Main; Main; Main; Work 0; Interrupt; Main; Main]
    (init example_cfg) = Some example_killed /\
  main example_killed = MKilled /\
  console example_killed
  = [(MainThread, StdoutWrite (String "010" "Ctrl-C detected, goodbye."));
     (MainThread, StdoutWrite (String "010" ""))] /\
  stdout_buffer (console example_killed)
  = [String "010" "Ctrl-C detected, goodbye."; String "010" ""] /\
  (forall a, exec example_cfg a example_killed = None).
Proof.
  split_and!; try (vm_compute; reflexivity).
Qed.

(** *** Without [-cpp] *)

Lemma run_mains_to_enqueue cfg R :
  file_name_re cfg = Some R ->
  run cfg (replicate (max_task cfg) Main) (init cfg)
  = Some (mkState (MSpawn 0) (replicate (max_task cfg) WGet) [] 0 [] None [] [] []).
Proof. intros HR. unfold init. rewrite HR. apply run_spawn. Qed.

(** C9: when [-cpp] is absent from the command line the list of candidates
    is [None]; if the patterns compile, the main thread spawns the pool and
    then raises [TypeError] at the enqueue loop, and no run exits with a
    code, puts a name in the queue or launches the tool. With [-cpp] and no
    file name after it the run exits with code 0. So a run that exits with a
    code has [-cpp] on its command line. *)
Theorem missing_cpp_raises (c : cmdline) (P : nat)
    (re : string -> option (string -> bool)) (R : string -> bool) :
  let cfg := {| args := parse_args c; max_task := P; re_compile := re |} in
  file_name_re cfg = Some R ->
  (given_cpp c = None ->
     cpp (args cfg) = None /\
     (exists s, run cfg (replicate (S P) Main) (init cfg) = Some s /\
        main s = MRaised TypeError) /\
     (forall sched s, run cfg sched (init cfg) = Some s ->
        (forall code, main s <> MExited code) /\
        enqueued s = [] /\ launched s = [])) /\
  (given_cpp c = Some [] ->
     exists s, run cfg (replicate (S P) Main ++ [Main; Main; Main]) (init cfg) = Some s /\
       main s = MExited 0) /\
  (forall sched s code,
     run cfg sched (init cfg) = Some s -> main s = MExited code ->
     is_Some (given_cpp c)).
Proof.
  intros cfg HR.
  assert (Hnone : cpp (args cfg) = None ->
    forall sched s, run cfg sched (init cfg) = Some s ->
      (forall code, main s <> MExited code) /\ enqueued s = [] /\ launched s = []).
  { intros Hcpp sched s Hrun.
    assert (Hinv : invariant cfg s) by (apply reachable_invariant; by exists sched).
    pose proof (inv_needs_cpp _ _ Hinv Hcpp) as Hn.
    assert (Hm : matching cfg = []).
    { unfold matching, candidates. by rewrite Hcpp. }
    assert (He : enqueued s = []).
    { destruct (inv_fifo _ _ Hinv) as (todo & _ & Heq). rewrite Hm in Heq.
      by apply app_eq_nil in Heq as [? _]. }
    split_and!; [|done|].
    - intros code Hc. by rewrite Hc in Hn.
    - pose proof (launched_submseteq _ _ Hinv) as Hl. rewrite Hm in Hl.
      by apply submseteq_nil_r in Hl. }
  assert (Hspawn : run cfg (replicate P Main) (init cfg)
    = Some (mkState (MSpawn 0) (replicate P WGet) [] 0 [] None [] [] [])).
  { apply (run_mains_to_enqueue cfg R HR). }
  split_and!.
  - intros Hc. split_and!; [done| |by apply Hnone].
    eexists. split.
    + change (replicate (S P) Main) with (Main :: replicate P Main).
      rewrite (replicate_cons_app P Main), (run_app_Some _ _ _ _ _ Hspawn).
      simpl. unfold exec, main_step; simpl. rewrite Hc. reflexivity.
    + done.
  - intros Hc. eexists. split.
    + change (replicate (S P) Main) with (Main :: replicate P Main).
      rewrite (replicate_cons_app P Main), <- app_assoc.
      rewrite (run_app_Some _ _ _ _ _ Hspawn).
      simpl. unfold exec, main_step; simpl. rewrite Hc. reflexivity.
    + done.
  - intros sched s code Hrun Hcode.
    destruct (given_cpp c) as [l|] eqn:Hc; [by eexists|].
    destruct (Hnone Hc sched s Hrun) as [Hno _]. by destruct (Hno code).
Qed.

Lemma missing_cpp_raises_witness :
  file_name_re example_cfg_no_cpp
  = Some (Re.re_search (Re.Cat (Re.Star Re.Any) Re.Eps)) /\
  given_cpp example_no_cpp = None /\
  exists s,
    run example_cfg_no_cpp (replicate 3 Main) (init example_cfg_no_cpp) = Some s /\
    main s = MRaised TypeError.
Proof.
  assert (HR : file_name_re example_cfg_no_cpp
               = Some (Re.re_search (Re.Cat (Re.Star Re.Any) Re.Eps)))
    by (vm_compute; reflexivity).
  split_and!; [exact HR | reflexivity |].
  exact (proj1 (proj2 (proj1
    (missing_cpp_raises example_no_cpp 2 Re.library
       (Re.re_search (Re.Cat (Re.Star Re.Any) Re.Eps)) HR)
    eq_refl))).
Defined.

(** *** The output *)

(** A step that writes is a step of the holder of the lock. *)
Lemma write_holds_lock cfg s i s' :
  exclusion cfg s -> exec cfg (Work i) s = Some s' ->
  console s' <> console s -> lock s = Some i /\ lock s' = Some i.
Proof.
  intros [Hex _] H Hcon.
  unfold exec in H. destruct (process_ended s); [done|].
  destruct (workers s !! i) as [pc|] eqn:Hpc; [|done]. simpl in H.
  specialize (Hex i pc Hpc).
  destruct s as [m ws q u ff lk con g p].
  unfold run_tidy_step, set_worker, set_lock, emit in H; simpl in *.
  destruct pc; simpl in *;
    repeat match type of H with
    | context [match ?x with _ => _ end] => destruct x
    end; simplify_eq/=; try done; by rewrite Hex.
Qed.

(** C7: in every state of a run at most one worker is inside [with lock];
    what the workers wrote is a sequence of whole emissions (the invocation
    and the standard output in one write, then, if the tool wrote to its
    standard error, the flush and that text), followed by the writes the
    holder of the lock has made so far: the writes of two emissions are
    never interleaved. A worker writes only while it holds the lock, and
    when it writes the standard error the last thing the workers did to
    the console is its own flush, right after its own write. *)
Theorem emissions_are_not_interleaved (cfg : config) (s : state) :
  reachable cfg s ->
  (forall i j pci pcj,
     workers s !! i = Some pci -> workers s !! j = Some pcj ->
     in_region pci = true -> in_region pcj = true -> i = j) /\
  (exists blocks cur,
     worker_console s = (blocks ≫= emission_of cfg) ++ cur /\
     current_emission cfg s cur) /\
  (forall i s',
     exec cfg (Work i) s = Some s' -> console s' <> console s ->
     lock s = Some i /\ lock s' = Some i) /\
  (forall i s' text,
     exec cfg (Work i) s = Some s' ->
     console s' = console s ++ [(Worker i, StderrWrite text)] ->
     exists blocks name out,
       worker_console s
       = (blocks ≫= emission_of cfg)
         ++ [wrote cfg i name out; (Worker i, StdoutFlush)]).
Proof.
  intros Hreach.
  pose proof (inv_exclusion _ _ (reachable_invariant _ _ Hreach)) as Hx.
  split_and!.
  - destruct Hx as [Hex _]. intros i j pci pcj Hi Hj Hri Hrj.
    pose proof (Hex i pci Hi Hri) as H1. pose proof (Hex j pcj Hj Hrj) as H2.
    congruence.
  - by destruct Hx.
  - intros i s'. by apply write_holds_lock.
  - intros i s' text H Hcon.
    assert (Hne : console s' <> console s).
    { rewrite Hcon. intros Heq. apply (f_equal length) in Heq.
      rewrite length_app in Heq. simpl in Heq. lia. }
    destruct (write_holds_lock _ _ _ _ Hx H Hne) as [Hlk _].
    destruct Hx as [_ (blocks & cur & Hw & Hcur)].
    unfold current_emission in Hcur. rewrite Hlk in Hcur.
    destruct Hcur as (pc & Hpc & Hpart).
    unfold exec in H. destruct (process_ended s); [done|].
    rewrite Hpc in H. simpl in H.
    destruct s as [m ws q u ff lk con g p].
    unfold run_tidy_step, set_worker, set_lock, emit in H; simpl in *.
    destruct pc; simpl in *;
      repeat match type of H with
      | context [match ?x with _ => _ end] => destruct x
      end; simplify_eq/=;
      try (by apply (f_equal length) in Hcon;
              rewrite ?length_app in Hcon; simpl in Hcon; lia);
      try (apply app_inv_head in Hcon; by simplify_eq).
    destruct Hpart as [_ ->]. by exists blocks, name, out.
Qed.

Lemma emissions_are_not_interleaved_witness :
  reachable example_cfg example_middle /\
  (forall i j pci pcj,
     workers example_middle !! i = Some pci ->
     workers example_middle !! j = Some pcj ->
     in_region pci = true -> in_region pcj = true -> i = j).
Proof.
  assert (Hreach : reachable example_cfg example_middle).
  { exists (take 15 example_sched). vm_compute. reflexivity. }
  split; [exact Hreach|].
  exact (proj1 (emissions_are_not_interleaved example_cfg example_middle Hreach)).
Defined.

End PoolClaims.

(** ** More on the thread pool *)

Module PoolMoreFacts.

Import Cli Pool PoolInv PoolFacts PoolClaims PoolMore.

(** *** Bounds *)

Lemma queue_bounded_init cfg : queue_bounded cfg (init cfg).
Proof. intros _. unfold init; simpl. lia. Qed.

Lemma queue_bounded_step cfg a s s' :
  queue_bounded cfg s -> exec cfg a s = Some s' -> queue_bounded cfg s'.
Proof.
  unfold queue_bounded. intros Hq H.
  step_cases H s; simpl in *; try done; intros Hk; specialize (Hq Hk);
    rewrite ?length_app; simpl; try lia.
  apply andb_false_iff in Heqb0 as [H0|H0].
  - apply Nat.ltb_ge in H0. lia.
  - apply Nat.leb_gt in H0. lia.
Qed.

Lemma holding_le_length ws : holding ws <= length ws.
Proof.
  unfold holding. induction ws as [|w ws IH]; simpl; [done|].
  unfold holds_task at 1. destruct (task_of w); lia.
Qed.

(** *** How a worker ends *)

Lemma deaths_hold_task_init cfg : deaths_hold_task (init cfg).
Proof. intros i e t H. done. Qed.

Lemma deaths_hold_task_step cfg a s s' :
  accounting s -> deaths_hold_task s -> exec cfg a s = Some s' ->
  deaths_hold_task s'.
Proof.
  unfold deaths_hold_task. intros [Hu _] Hd H.
  step_cases H s; simpl in *; try done; intros j e' t' Hj;
    try (apply lookup_app_Some in Hj as [Hj|[_ Hj]];
         [by eapply Hd | by apply list_lookup_singleton_Some in Hj as [_ ?]]);
    try (apply list_lookup_insert_Some in Hj as [(-> & Heq & _)|[Hne Hj]];
         [simplify_eq; eauto | by eapply Hd]).
  exfalso. assert (holding ws <> 0); [|lia].
  intros Hh. by pose proof (holding_zero _ _ _ Hh Hpc).
Qed.

(** *** What is written *)

Lemma submseteq_update {A} (W U U' E w a b x : list A) :
  W ++ U ⊆+ E -> U' ++ a ≡ₚ U ++ b -> w ++ b ⊆+ a ++ x ->
  (W ++ w) ++ U' ⊆+ E ++ x.
Proof.
  intros HE HU Hw. apply (submseteq_app_inv_r _ _ a).
  transitivity ((W ++ U) ++ (w ++ b)).
  - apply Permutation_submseteq.
    rewrite <- !app_assoc. f_equiv. rewrite (app_assoc w U' a).
    rewrite (Permutation_app_comm w U'), <- app_assoc.
    rewrite (Permutation_app_comm w a), app_assoc, HU.
    rewrite <- app_assoc. f_equiv. apply Permutation_app_comm.
  - transitivity (E ++ (a ++ x)); [by apply submseteq_app|].
    apply Permutation_submseteq. rewrite <- app_assoc. f_equiv.
    apply Permutation_app_comm.
Qed.

Lemma length_update {A} (W U U' E w a b x : list A) (D D' d d' : nat) :
  length E <= length W + length U + D -> U' ++ a ≡ₚ U ++ b ->
  D' + d = D + d' ->
  length x + length a + d <= length w + length b + d' ->
  length (E ++ x) <= length (W ++ w) + length U' + D'.
Proof.
  intros HE HU HD Hx. apply Permutation_length in HU.
  rewrite !length_app in *. lia.
Qed.

(** A step of worker [i] from [old] to [new], that writes [cadd] and adds
    [padd] to the runs of the tool. *)
Lemma written_update cfg m ws q u ff lk con g p i old new
    m' q' u' ff' lk' con' g' p' cadd padd :
  ws !! i = Some old -> con' = con ++ cadd -> p' = p ++ padd ->
  omap stdout_of cadd ++ unwritten_out cfg new
    ⊆+ unwritten_out cfg old ++ expected_stdout cfg padd ->
  length (expected_stdout cfg padd) + length (unwritten_out cfg old)
    + undecoded old
    <= length (omap stdout_of cadd) + length (unwritten_out cfg new)
       + undecoded new ->
  omap stderr_of cadd ++ unwritten_err new
    ⊆+ unwritten_err old ++ expected_stderr padd ->
  length (expected_stderr padd) + length (unwritten_err old) + undecoded old
    <= length (omap stderr_of cadd) + length (unwritten_err new)
       + undecoded new ->
  written cfg (mkState m ws q u ff lk con g p) ->
  written cfg (mkState m' (<[i := new]> ws) q' u' ff' lk' con' g' p').
Proof.
  intros Hi -> -> Ho Hol He Hel (H1 & H2 & H3 & H4).
  unfold written, stdout_writes, stderr_writes, expected_stdout,
    expected_stderr in *; simpl in *.
  rewrite !omap_app, !bind_app.
  pose proof (sum_list_with_insert undecoded ws i old new Hi) as HD.
  split_and!.
  - eapply submseteq_update; [done | by apply bind_insert_perm | done].
  - eapply length_update; [done | by apply bind_insert_perm | done | done].
  - eapply submseteq_update; [done | by apply bind_insert_perm | done].
  - eapply length_update; [done | by apply bind_insert_perm | done | done].
Qed.

Lemma written_init cfg : written cfg (init cfg).
Proof.
  unfold written, init, stdout_writes, stderr_writes; simpl.
  split_and!; done.
Qed.

Lemma written_step cfg a s s' :
  written cfg s -> exec cfg a s = Some s' -> written cfg s'.
Proof.
  intros Hw H.
  step_cases H s; try done;
    try match goal with
        | H : Utf8.decode _ = Some _ |- _ => apply decode_Some in H as ->
        end;
    try (eapply written_update;
         [ exact Hpc
         | first [reflexivity | symmetry; apply app_nil_r]
         | first [reflexivity | symmetry; apply app_nil_r]
         | .. | exact Hw ];
         simpl; unfold stderr_text, stdout_text, header in *; simpl;
         rewrite ?app_nil_r; unfold stderr_text; rewrite ?Heqb; simpl;
         repeat match goal with
                | |- context [if ?c then _ else _] => destruct c
                end; simpl;
         first [ done | reflexivity | lia | apply submseteq_nil_l ]).
  - (* a thread is spawned *)
    destruct Hw as (H1 & H2 & H3 & H4).
    unfold written, stdout_writes, stderr_writes in *; simpl in *.
    rewrite !bind_app, sum_list_with_app; simpl.
    rewrite !app_nil_r, !Nat.add_0_r. done.
  - (* the notice of the handler *)
    destruct Hw as (H1 & H2 & H3 & H4).
    unfold written, stdout_writes, stderr_writes in *; simpl in *.
    rewrite !omap_app; simpl. rewrite !app_nil_r. done.
Qed.

Lemma main_silent_init cfg : main_silent (init cfg).
Proof.
  unfold main_silent, init, main_writes; simpl.
  by destruct (file_name_re cfg).
Qed.

Lemma main_silent_step cfg a s s' :
  main_silent s -> exec cfg a s = Some s' -> main_silent s'.
Proof.
  unfold main_silent, main_writes. intros Hm H.
  step_cases H s; simpl in *; rewrite ?filter_app; simpl;
    rewrite ?app_nil_r; try done; try (by left);
    try (by destruct m as [| | | | | | |[]|]).
  - right. by rewrite Hm.
Qed.

Lemma invariant_more_init cfg : invariant_more cfg (init cfg).
Proof.
  split; auto using invariant_init, queue_bounded_init, deaths_hold_task_init,
    written_init, main_silent_init.
Qed.

Lemma invariant_more_step cfg a s s' :
  invariant_more cfg s -> exec cfg a s = Some s' -> invariant_more cfg s'.
Proof.
  intros [Hb ? ? ? ?] H.
  split; eauto using invariant_step, queue_bounded_step, written_step,
    main_silent_step.
  eapply deaths_hold_task_step; [apply (inv_accounting _ _ Hb) | done..].
Qed.

Lemma invariant_more_run cfg sched s s' :
  invariant_more cfg s -> run cfg sched s = Some s' -> invariant_more cfg s'.
Proof.
  revert s. induction sched as [|a sched IH]; intros s Hi H; simpl in H.
  - by injection H as <-.
  - destruct (exec cfg a s) as [s1|] eqn:Hs1; [|done].
    eauto using invariant_more_step.
Qed.

Lemma reachable_invariant_more cfg s : reachable cfg s -> invariant_more cfg s.
Proof. intros [sched H]. eauto using invariant_more_run, invariant_more_init. Qed.

(** *** Bounds, and how workers end *)

(** X1: with a pool of at least one worker, no state of a run has more
    than [max_task] worker threads, more than [max_task] names in the queue,
    or more than twice [max_task] unfinished tasks. *)
Theorem resources_are_bounded (cfg : config) (s : state) :
  reachable cfg s -> 1 <= max_task cfg ->
  length (workers s) <= max_task cfg /\
  length (task_queue s) <= max_task cfg /\
  unfinished_tasks s <= 2 * max_task cfg.
Proof.
  intros Hreach Hk.
  destruct (reachable_invariant_more _ _ Hreach) as [Hinv Hq _ _ _].
  specialize (Hq Hk).
  assert (Hw : length (workers s) <= max_task cfg).
  { destruct (inv_pool_size _ _ Hinv) as [Hn _].
    destruct (main s); lia. }
  destruct (inv_accounting _ _ Hinv) as [Hu _].
  pose proof (holding_le_length (workers s)). lia.
Qed.

Lemma resources_are_bounded_witness :
  reachable example_cfg example_middle /\ 1 <= max_task example_cfg /\
  length (task_queue example_middle) <= max_task example_cfg.
Proof.
  assert (Hreach : reachable example_cfg example_middle).
  { exists (take 15 example_sched). vm_compute. reflexivity. }
  assert (Hk : 1 <= max_task example_cfg) by (simpl; lia).
  split_and!; [exact Hreach | exact Hk |].
  exact (proj1 (proj2 (resources_are_bounded example_cfg example_middle Hreach Hk))).
Defined.

(** X2: [task_done()] never raises: a worker that is about to call it
    finds the counter of unfinished tasks above zero. And a worker that has
    ended, on whatever exception, ended between [queue.get()] and
    [task_done()]: the task it took is not marked as done, and the counter
    still counts it. *)
Theorem task_done_never_raises (cfg : config) (s : state) :
  reachable cfg s ->
  (forall i name, workers s !! i = Some (WTaskDone name) ->
     1 <= unfinished_tasks s) /\
  (forall i e t, workers s !! i = Some (WDead e t) ->
     is_Some t /\ task_of (WDead e t) = t /\ 1 <= unfinished_tasks s) /\
  unfinished_tasks s = length (task_queue s) + holding (workers s).
Proof.
  intros Hreach.
  destruct (reachable_invariant_more _ _ Hreach) as [Hinv _ Hd _ _].
  destruct (inv_accounting _ _ Hinv) as [Hu _].
  assert (Hpos : forall i pc, workers s !! i = Some pc -> is_Some (task_of pc) ->
            1 <= unfinished_tasks s).
  { intros i pc Hi [n Hn].
    assert (holding (workers s) <> 0); [|lia].
    intros Hh. pose proof (holding_zero _ _ _ Hh Hi). congruence. }
  split_and!; [| |done].
  - intros i name Hi. by eapply Hpos.
  - intros i e t Hi. destruct (Hd _ _ _ Hi) as [_ Ht].
    split_and!; [done..|]. by eapply Hpos.
Qed.

Lemma task_done_never_raises_witness :
  reachable example_cfg example_middle /\
  unfinished_tasks example_middle
  = length (task_queue example_middle) + holding (workers example_middle).
Proof.
  assert (Hreach : reachable example_cfg example_middle).
  { exists (take 15 example_sched). vm_compute. reflexivity. }
  split; [exact Hreach|].
  exact (proj2 (proj2 (task_done_never_raises example_cfg example_middle Hreach))).
Defined.

Lemma all_idle ws n :
  length ws = n -> (forall i pc, ws !! i = Some pc -> pc = WGet) ->
  ws = replicate n WGet.
Proof.
  intros <- H. apply list_eq. intros i.
  destruct (ws !! i) as [pc|] eqn:Hi.
  - rewrite (H _ _ Hi). symmetry. apply lookup_replicate_2.
    by eapply lookup_lt_Some.
  - symmetry. apply lookup_replicate_None. by apply lookup_ge_None.
Qed.

(** Once the queue has drained every worker waits in [queue.get()]. *)
Lemma drained_idle cfg s :
  invariant_more cfg s -> drained (main s) = true ->
  forall i pc, workers s !! i = Some pc -> pc = WGet.
Proof.
  intros [Hinv _ Hd _ _] Hdr i pc Hi.
  destruct (drained_quiet _ _ Hinv Hdr) as (_ & _ & Hno).
  pose proof (Hno _ _ Hi) as Ht.
  destruct pc; try done. simpl in Ht. subst task.
  destruct (Hd _ _ _ Hi) as [_ [? ?]]. done.
Qed.

(** X3: when the main thread exits with a code, every worker of the pool
    is alive and waits in [queue.get()], the lock is free, the queue is
    empty and no task is unfinished: the threads left behind hold nothing. *)
Theorem at_exit_every_worker_waits (cfg : config) (sched : list action)
    (s : state) (c : Z) :
  run cfg sched (init cfg) = Some s -> main s = MExited c ->
  workers s = replicate (max_task cfg) WGet /\
  lock s = None /\ task_queue s = [] /\ unfinished_tasks s = 0.
Proof.
  intros Hrun Hc.
  assert (Hreach : reachable cfg s) by (by exists sched).
  destruct (reachable_invariant_more _ _ Hreach) as [Hinv _ Hd _ _].
  assert (Hdr : drained (main s) = true) by (by rewrite Hc).
  destruct (drained_quiet _ _ Hinv Hdr) as (Hu & Hq & Hno).
  pose proof (drained_idle _ _ (reachable_invariant_more _ _ Hreach) Hdr)
    as Hget.
  split_and!; try done.
  - apply all_idle; [|done].
    destruct (inv_pool_size _ _ Hinv) as [Hn _]. by rewrite Hc in Hn.
  - destruct (inv_exclusion _ _ Hinv) as [_ (blocks & cur & _ & Hcur)].
    unfold current_emission in Hcur. destruct (lock s) as [k|]; [|done].
    destruct Hcur as (pc & Hk & Hpart). rewrite (Hget _ _ Hk) in Hpart. done.
Qed.

Lemma at_exit_every_worker_waits_witness :
  run example_cfg example_sched (init example_cfg) = Some example_final /\
  main example_final = MExited 1 /\
  workers example_final = replicate (max_task example_cfg) WGet.
Proof.
  assert (Hrun : run example_cfg example_sched (init example_cfg)
                 = Some example_final) by (vm_compute; reflexivity).
  split_and!; [exact Hrun | reflexivity |].
  exact (proj1 (at_exit_every_worker_waits example_cfg example_sched
                  example_final 1%Z Hrun eq_refl)).
Defined.

(** *** No deadlock *)

Lemma busy_can_step cfg r0 s i pc :
  process_ended s = false -> workers s !! i = Some pc -> busy pc = true ->
  exists a s', (a = Work i \/ a = Run i r0) /\ exec cfg a s = Some s'.
Proof.
  intros Hend Hi Hb.
  assert (Hrun : forall r, exec cfg (Run i r) s
                           = run_tidy_step cfg i (Some r) pc s).
  { intros r. unfold exec. by rewrite Hend, Hi. }
  assert (Hwork : exec cfg (Work i) s = run_tidy_step cfg i None pc s).
  { unfold exec. by rewrite Hend, Hi. }
  destruct pc; try done.
  - exists (Run i r0). rewrite Hrun. simpl. eauto.
  - exists (Work i). rewrite Hwork. simpl. eauto.
  - exists (Work i). rewrite Hwork. simpl.
    destruct (Utf8.decode out); eauto.
  - exists (Work i). rewrite Hwork. simpl. eauto.
  - exists (Work i). rewrite Hwork. simpl.
    destruct (Utf8.decode err); eauto.
  - exists (Work i). rewrite Hwork. simpl. eauto.
  - exists (Work i). rewrite Hwork. simpl.
    destruct (unfinished_tasks s); eauto.
Qed.

Lemma idle_or_waiting pc :
  busy pc = false -> alive pc = true -> wants_lock pc = false -> pc = WGet.
Proof. by destruct pc. Qed.

Lemma holding_all_idle ws :
  (forall i pc, ws !! i = Some pc -> pc = WGet) -> holding ws = 0.
Proof.
  unfold holding. induction ws as [|w ws IH]; intros H; [done|]. simpl.
  rewrite (H 0 w eq_refl). simpl. apply IH. intros i pc Hi.
  by apply (H (S i)).
Qed.

(** The actions of the threads, the external process giving [r0]. *)
Lemma live_can_step cfg r0 s :
  invariant cfg s -> 1 <= max_task cfg -> process_ended s = false ->
  Forall (fun pc => alive pc = true) (workers s) ->
  exists a s',
    (a = Main \/ exists i, a = Work i \/ a = Run i r0) /\
    exec cfg a s = Some s'.
Proof.
  intros Hinv Hk Hend Halive.
  destruct (decide (Exists (fun pc => busy pc = true) (workers s))) as [Hb|Hb].
  { apply Exists_exists in Hb as (pc & Hin & Hb).
    apply list_elem_of_lookup in Hin as [i Hi].
    destruct (busy_can_step cfg r0 s i pc Hend Hi Hb) as (a & s' & Ha & Hs).
    exists a, s'. split; [right; by exists i | done]. }
  apply not_Exists_Forall in Hb; [|apply _].
  assert (Hnb : forall i pc, workers s !! i = Some pc ->
                  busy pc = false /\ alive pc = true).
  { intros i pc Hi. split.
    - rewrite Forall_lookup in Hb. specialize (Hb _ _ Hi). simpl in Hb.
      by destruct (busy pc).
    - rewrite Forall_lookup in Halive. by apply (Halive _ _ Hi). }
  assert (Hlock : lock s = None).
  { destruct (inv_exclusion _ _ Hinv) as [_ (blocks & cur & _ & Hcur)].
    unfold current_emission in Hcur. destruct (lock s) as [k|]; [|done].
    destruct Hcur as (pc & Hpc & Hpart). destruct (Hnb _ _ Hpc) as [Hbusy _].
    by destruct pc. }
  destruct (decide (Exists (fun pc => wants_lock pc = true) (workers s)))
    as [Hw|Hw].
  { apply Exists_exists in Hw as (pc & Hin & Hw).
    apply list_elem_of_lookup in Hin as [i Hi].
    exists (Work i). unfold exec. rewrite Hend, Hi. simpl.
    destruct pc; try done. simpl. rewrite Hlock. eauto 6. }
  apply not_Exists_Forall in Hw; [|apply _].
  assert (Hget : forall i pc, workers s !! i = Some pc -> pc = WGet).
  { intros i pc Hi. destruct (Hnb _ _ Hi). apply idle_or_waiting; try done.
    rewrite Forall_lookup in Hw. specialize (Hw _ _ Hi). simpl in Hw.
    by destruct (wants_lock pc). }
  destruct (inv_accounting _ _ Hinv) as [Hu _].
  rewrite (holding_all_idle _ Hget), Nat.add_0_r in Hu.
  destruct (inv_pool_size _ _ Hinv) as [Hn _].
  destruct (task_queue s) as [|name q] eqn:Hq.
  - (* nothing in the queue: the main thread can step *)
    exists Main. unfold exec. rewrite Hend. unfold process_ended in Hend.
    unfold main_step, queue_full. simpl in Hu. rewrite Hu, Hq. simpl.
    destruct (main s) as [[|k]|[|n rest]| | | | | | |]; try done; eauto.
    + destruct (cpp (args cfg)); eauto.
    + destruct (search_name cfg n); [|by eauto].
      replace (max_task cfg <=? 0) with false
        by (symmetry; apply Nat.leb_gt; lia).
      rewrite andb_false_r. eauto.
  - (* a name in the queue: a worker, or the spawning main thread *)
    destruct (workers s) as [|w ws] eqn:Hws.
    + exists Main. unfold exec. rewrite Hend. unfold process_ended in Hend.
      unfold main_step. simpl in Hn.
      destruct (main s) as [[|k]| | | | | | | |]; try done;
        try (simpl in Hn; lia); eauto.
    + assert (w = WGet) as -> by (by apply (Hget 0)).
      exists (Work 0). unfold exec. rewrite Hend, Hws. simpl.
      rewrite Hq. eauto 6.
Qed.

(** X4: with a pool of at least one worker, a run in which no worker has
    ended is never stuck before the process ends: in every such state some
    thread can take a step, whatever result the external process gives when
    the step is a launch. The bounded queue and the lock cannot block every
    thread at once. *)
Theorem no_deadlock (cfg : config) (r : proc_result) (s : state) :
  reachable cfg s -> 1 <= max_task cfg -> process_ended s = false ->
  Forall (fun pc => alive pc = true) (workers s) ->
  exists a s',
    (a = Main \/ exists i, a = Work i \/ a = Run i r) /\
    exec cfg a s = Some s'.
Proof.
  intros Hreach. apply live_can_step. by apply reachable_invariant.
Qed.

Lemma no_deadlock_witness :
  reachable example_cfg example_middle /\ 1 <= max_task example_cfg /\
  process_ended example_middle = false /\
  Forall (fun pc => alive pc = true) (workers example_middle) /\
  exists a s',
    (a = Main \/ exists i, a = Work i \/ a = Run i LaunchFailure) /\
    exec example_cfg a example_middle = Some s'.
Proof.
  assert (Hreach : reachable example_cfg example_middle).
  { exists (take 15 example_sched). vm_compute. reflexivity. }
  assert (Hk : 1 <= max_task example_cfg) by (simpl; lia).
  assert (Ha : Forall (fun pc => alive pc = true) (workers example_middle)).
  { repeat constructor. }
  split_and!; [exact Hreach | exact Hk | reflexivity | exact Ha |].
  exact (no_deadlock example_cfg LaunchFailure example_middle Hreach Hk
           eq_refl Ha).
Defined.

(** *** The output, all of it *)

Lemma idle_nothing_unwritten cfg ws :
  (forall i pc, ws !! i = Some pc -> pc = WGet) ->
  ws ≫= unwritten_out cfg = [] /\ ws ≫= unwritten_err = [] /\
  sum_list_with undecoded ws = 0.
Proof.
  induction ws as [|w ws IH]; intros H; [done|].
  destruct IH as (IH1 & IH2 & IH3); [intros i pc Hi; by apply (H (S i))|].
  rewrite (H 0 w eq_refl), !bind_cons, IH1, IH2. simpl. by rewrite IH3.
Qed.

(** X5: in no state of a run have the workers written a text that no run
    of the tool calls for, or written one more often than it is called
    for; and when the main thread exits with a code, what the workers wrote
    to the standard output is, up to the order, one text for each run of
    the tool (the invocation, a newline, what the tool printed), what they
    wrote to the standard error is what the tool printed there, for each
    run that printed something, and the main thread wrote nothing. *)
Theorem every_output_is_written (cfg : config) (s : state) :
  reachable cfg s ->
  stdout_writes s ⊆+ expected_stdout cfg (popens s) /\
  stderr_writes s ⊆+ expected_stderr (popens s) /\
  (forall c, main s = MExited c ->
     stdout_writes s ≡ₚ expected_stdout cfg (popens s) /\
     stderr_writes s ≡ₚ expected_stderr (popens s) /\
     main_writes s = []).
Proof.
  intros Hreach.
  pose proof (reachable_invariant_more _ _ Hreach) as Hmore.
  destruct (more_written _ _ Hmore) as (H1 & H2 & H3 & H4).
  split_and!.
  - etrans; [|exact H1]. by apply submseteq_inserts_r.
  - etrans; [|exact H3]. by apply submseteq_inserts_r.
  - intros c Hc.
    assert (Hdr : drained (main s) = true) by (by rewrite Hc).
    destruct (idle_nothing_unwritten cfg _ (drained_idle _ _ Hmore Hdr))
      as (Ho & He & Hu).
    rewrite Ho, He, Hu, ?app_nil_r in *. simpl in *.
    split_and!.
    + apply submseteq_length_Permutation; [done | lia].
    + apply submseteq_length_Permutation; [done | lia].
    + pose proof (more_main_silent _ _ Hmore) as Hm.
      unfold main_silent in Hm. by rewrite Hc in Hm.
Qed.

Lemma every_output_is_written_witness :
  reachable example_cfg example_final /\
  stdout_writes example_final
    ≡ₚ expected_stdout example_cfg (popens example_final).
Proof.
  assert (Hreach : reachable example_cfg example_final).
  { exists example_sched. vm_compute. reflexivity. }
  split; [exact Hreach|].
  exact (proj1 (proj2 (proj2 (every_output_is_written example_cfg
                                example_final Hreach)) 1%Z eq_refl)).
Defined.

(** *** The order of the queue *)

Lemma got_subsequence i s : got i s `sublist_of` (gets s).*2.
Proof.
  unfold got. apply fmap_sublist, sublist_filter.
Qed.

(** X6: in every state of a run, the names taken out of the queue so far,
    in the order in which they were taken, followed by the names still in
    the queue, are an initial segment of the selected candidates: the names
    leave the queue in the order of the command line. Each worker runs the
    tool on the names it took itself, in the order it took them, and is at
    most one launch behind. *)
Theorem queue_is_first_in_first_out (cfg : config) (s : state) :
  reachable cfg s ->
  (gets s).*2 ++ task_queue s `prefix_of` matching cfg /\
  (forall i, ran i s `prefix_of` got i s /\
             length (got i s) <= S (length (ran i s)) /\
             got i s `sublist_of` matching cfg).
Proof.
  intros Hreach. pose proof (reachable_invariant _ _ Hreach) as Hinv.
  destruct (inv_fifo _ _ Hinv) as (todo & _ & Heq).
  assert (Hpre : (gets s).*2 ++ task_queue s `prefix_of` matching cfg).
  { rewrite <- Heq. by eexists. }
  split; [done|]. intros i.
  pose proof (inv_own_launches _ _ Hinv i) as Hown.
  split_and!.
  - rewrite Hown. by eexists.
  - rewrite Hown, length_app.
    destruct (workers s !! i) as [pc|]; simpl; [destruct pc; simpl; lia | lia].
  - rewrite <- Heq. unfold enqueued.
    do 2 apply sublist_inserts_r. apply got_subsequence.
Qed.

Lemma queue_is_first_in_first_out_witness :
  reachable example_cfg example_middle /\
  (gets example_middle).*2 ++ task_queue example_middle
    `prefix_of` matching example_cfg.
Proof.
  assert (Hreach : reachable example_cfg example_middle).
  { exists (take 15 example_sched). vm_compute. reflexivity. }
  split; [exact Hreach|].
  exact (proj1 (queue_is_first_in_first_out example_cfg example_middle Hreach)).
Defined.

(** *** The failure list *)

Lemma failures_elem_of n s :
  n ∈ failures s ->
  exists i rc out err, (i, n, Exited rc out err) ∈ popens s /\ rc <> 0%Z.
Proof.
  unfold failures. intros Hn.
  apply list_elem_of_fmap in Hn as ([[i n'] r] & -> & Hin).
  apply list_elem_of_filter in Hin as [Hr Hin]. simpl in *.
  destruct r as [|rc out err]; [done|]. simpl in Hr.
  exists i, rc, out, err. split; [done|].
  intros ->. done.
Qed.

(** X7: in every state of a run the failure list holds only names on
    which the tool was run and ended with a status other than zero, each at
    most as often as it so ended; these are names taken out of the queue,
    and selected candidates. *)
Theorem failed_files_are_failures (cfg : config) (s : state) :
  reachable cfg s ->
  failed_files s ⊆+ failures s /\
  failures s ⊆+ launched s /\
  launched s ⊆+ (gets s).*2 /\
  (forall n, n ∈ failed_files s ->
     (exists i rc out err, (i, n, Exited rc out err) ∈ popens s /\ rc <> 0%Z) /\
     n ∈ candidates cfg /\ search_name cfg n = true).
Proof.
  intros Hreach. pose proof (reachable_invariant _ _ Hreach) as Hinv.
  assert (H1 : failed_files s ⊆+ failures s).
  { pose proof (inv_failure_list _ _ Hinv) as Hf. unfold failure_list in Hf.
    rewrite <- Hf. by apply submseteq_inserts_r. }
  assert (H2 : failures s ⊆+ launched s).
  { unfold failures, launched. apply fmap_submseteq, sublist_submseteq, sublist_filter. }
  split_and!; [done | done | |].
  - pose proof (inv_launches _ _ Hinv) as Hl. unfold launches in Hl.
    rewrite Hl. by apply submseteq_inserts_r.
  - intros n Hn.
    assert (Hf : n ∈ failures s) by (by eapply elem_of_submseteq).
    split; [by apply failures_elem_of|].
    assert (Hm : n ∈ matching cfg).
    { eapply elem_of_submseteq; [|by apply launched_submseteq].
      by eapply elem_of_submseteq. }
    unfold matching in Hm. apply list_elem_of_filter in Hm as [? ?]. done.
Qed.

Lemma failed_files_are_failures_witness :
  reachable example_cfg example_final /\
  failed_files example_final ⊆+ failures example_final.
Proof.
  assert (Hreach : reachable example_cfg example_final).
  { exists example_sched. vm_compute. reflexivity. }
  split; [exact Hreach|].
  exact (proj1 (failed_files_are_failures example_cfg example_final Hreach)).
Defined.

(** *** The lock *)

Lemma partial_emission_in_region cfg i pc cur :
  partial_emission cfg i pc cur -> in_region pc = true.
Proof. by destruct pc. Qed.

(** X8: in every state of a run the lock is taken exactly when some
    worker is inside [with lock], and by that worker: a worker that ended
    inside [with lock] on an output that does not decode has released it,
    and a worker that has ended holds no lock. *)
Theorem lock_is_held_inside_with (cfg : config) (s : state) (i : nat) :
  reachable cfg s ->
  (lock s = Some i <->
     exists pc, workers s !! i = Some pc /\ in_region pc = true) /\
  (forall e t, workers s !! i = Some (WDead e t) -> lock s <> Some i).
Proof.
  intros Hreach.
  destruct (inv_exclusion _ _ (reachable_invariant _ _ Hreach))
    as [Hex (blocks & cur & _ & Hcur)].
  assert (Hiff : lock s = Some i ->
            exists pc, workers s !! i = Some pc /\ in_region pc = true).
  { intros Hl. unfold current_emission in Hcur. rewrite Hl in Hcur.
    destruct Hcur as (pc & Hpc & Hpart). exists pc. split; [done|].
    by eapply partial_emission_in_region. }
  split.
  - split; [done|]. intros (pc & Hpc & Hr). by eapply Hex.
  - intros e t Hd Hl. destruct (Hiff Hl) as (pc & Hpc & Hr).
    rewrite Hd in Hpc. by simplify_eq.
Qed.

Lemma lock_is_held_inside_with_witness :
  reachable example_cfg example_middle /\
  (lock example_middle = Some 0 <->
     exists pc, workers example_middle !! 0 = Some pc /\ in_region pc = true).
Proof.
  assert (Hreach : reachable example_cfg example_middle).
  { exists (take 15 example_sched). vm_compute. reflexivity. }
  split; [exact Hreach|].
  exact (proj1 (lock_is_held_inside_with example_cfg example_middle 0 Hreach)).
Defined.

(** *** A pattern that does not compile *)

Lemma files_fragment (c : cmdline) :
  Forall (fun p => More.in_fragment p = true) (given_files c) ->
  files (parse_args c) <> [] /\
  Forall (fun p => More.in_fragment p = true) (files (parse_args c)) /\
  (Exists (fun p => More.nothing_to_repeat p = true) (files (parse_args c))
   <-> Exists (fun p => More.nothing_to_repeat p = true) (given_files c)).
Proof.
  intros H. simpl. destruct (given_files c) as [|p ps]; [|done].
  split_and!; [done | by repeat constructor |].
  rewrite Exists_nil, Exists_cons, Exists_nil. split; [|done].
  by intros [?|[]].
Qed.

(** X9: for positional patterns of the fragment (ASCII characters, none
    of [\ ( ) [ ] { } ^ $], no repetition sign right after another),
    [re.compile] raises on the joined patterns exactly when an alternative
    of one of them starts with a repetition sign, as in the pattern [*.cpp]
    of a shell; the program then ends on this exception before the [try],
    with status 1: no thread is spawned, nothing is launched and nothing
    written. Otherwise the main thread comes to the spawning of the pool. *)
Theorem nothing_to_repeat_stops_the_run (c : cmdline) (P : nat) :
  let cfg := {| args := parse_args c; max_task := P;
                re_compile := Re.library |} in
  Forall (fun p => More.in_fragment p = true) (given_files c) ->
  (main (init cfg) = MRaised ReError <->
     Exists (fun p => More.nothing_to_repeat p = true) (given_files c)) /\
  (main (init cfg) = MSpawn P <->
     Forall (fun p => More.nothing_to_repeat p = false) (given_files c)) /\
  (Exists (fun p => More.nothing_to_repeat p = true) (given_files c) ->
   forall sched s, run cfg sched (init cfg) = Some s ->
     sched = [] /\ exit_status (main s) = Some 1%Z /\ workers s = [] /\
     popens s = [] /\ console s = []).
Proof.
  intros cfg Hfrag.
  destruct (files_fragment c Hfrag) as (Hne & Hfiles & Hex).
  pose proof (ReFacts.file_name_re_fragment _ Hne Hfiles) as Hraise.
  rewrite Hex in Hraise.
  assert (Hnone : file_name_re cfg = None <->
            Exists (fun p => More.nothing_to_repeat p = true) (given_files c)).
  { rewrite <- Hraise. unfold file_name_re, Re.file_name_re; simpl.
    unfold Re.library. destruct (Re.re_compile _); simpl; split; done. }
  assert (Hiff : Forall (fun p => More.nothing_to_repeat p = false) (given_files c)
                 <-> ~ Exists (fun p => More.nothing_to_repeat p = true) (given_files c)).
  { rewrite <- Forall_Exists_neg. apply Forall_iff. intros p.
    by destruct (More.nothing_to_repeat p). }
  rewrite Hiff, <- Hnone. clear Hiff Hraise Hex.
  assert (Hmain : main (init cfg)
                  = match file_name_re cfg with
                    | Some _ => MSpawn P
                    | None => MRaised ReError
                    end) by reflexivity.
  split_and!.
  - rewrite Hmain. destruct (file_name_re cfg); split; done.
  - rewrite Hmain. destruct (file_name_re cfg); split; done.
  - intros Hbad sched s Hrun.
    assert (Hi : init cfg = mkState (MRaised ReError) [] [] 0 [] None [] [] []).
    { unfold init. by rewrite Hbad. }
    destruct sched as [|a sched].
    + simpl in Hrun. injection Hrun as <-. by rewrite Hi.
    + simpl in Hrun. rewrite (ended_no_step cfg a (init cfg)) in Hrun; [done|].
      by rewrite Hi.
Qed.

Lemma nothing_to_repeat_stops_the_run_witness :
  main (init {| args := parse_args
                  {| given_clang_tidy_binary := None;
                     given_header_filter := None;
                     given_files := ["src/.*"; "*.cpp"];
                     given_cpp := Some ["a.cpp"] |};
                max_task := 2; re_compile := Re.library |})
  = MRaised ReError.
Proof.
  refine (proj2 (proj1 (nothing_to_repeat_stops_the_run
    {| given_clang_tidy_binary := None;
       given_header_filter := None;
       given_files := ["src/.*"; "*.cpp"];
       given_cpp := Some ["a.cpp"] |} 2 _)) _).
  - repeat constructor.
  - apply Exists_cons_tl, Exists_cons_hd. reflexivity.
Defined.

(** *** Without a pattern *)

Lemma search_dot_star name :
  Re.re_search (Re.Cat (Re.Star Re.Any) Re.Eps) name = true.
Proof.
  unfold Re.re_search. by destruct (String.list_ascii_of_string name).
Qed.

(** X10: with no positional pattern on the command line the default
    pattern [.*] is used, which is found in every name: every candidate is
    selected. *)
Theorem default_pattern_selects_all (c : cmdline) (P : nat) :
  let cfg := {| args := parse_args c; max_task := P;
                re_compile := Re.library |} in
  given_files c = [] ->
  (forall name, search_name cfg name = true) /\
  matching cfg = candidates cfg.
Proof.
  intros cfg Hf.
  assert (Hall : forall name, search_name cfg name = true).
  { intros name. unfold search_name, file_name_re, cfg; simpl. rewrite Hf.
    simpl. apply search_dot_star. }
  split; [done|]. unfold matching.
  induction (candidates cfg) as [|n l IH]; [done|].
  rewrite filter_cons_True by apply Hall. by rewrite IH.
Qed.

Lemma default_pattern_selects_all_witness :
  matching {| args := parse_args
                {| given_clang_tidy_binary := None;
                   given_header_filter := None;
                   given_files := [];
                   given_cpp := Some ["a.cpp"; "b.hpp"] |};
              max_task := 2; re_compile := Re.library |}
  = ["a.cpp"; "b.hpp"].
Proof.
  exact (proj2 (default_pattern_selects_all
    {| given_clang_tidy_binary := None; given_header_filter := None;
       given_files := []; given_cpp := Some ["a.cpp"; "b.hpp"] |} 2 eq_refl)).
Defined.

(** *** Every run is finite *)

Lemma steps_left_step cfg a s s' :
  exec cfg a s = Some s' -> steps_left cfg s' < steps_left cfg s.
Proof.
  intros H. unfold steps_left.
  step_cases H s;
    try match goal with
        | |- context [<[?i := ?new]> ?ws] =>
            pose proof (sum_list_with_insert rank_worker ws i _ new Hpc) as Hh;
            simpl in Hh
        end;
    unfold rank_main, candidates;
    rewrite ?sum_list_with_app, ?length_app;
    repeat match goal with
           | H : cpp _ = _ |- _ => rewrite H
           end;
    simpl; try lia.
Qed.

Lemma steps_left_run cfg sched s s' :
  run cfg sched s = Some s' ->
  length sched + steps_left cfg s' <= steps_left cfg s.
Proof.
  revert s. induction sched as [|a sched IH]; intros s H; simpl in H.
  - injection H as <-. simpl. lia.
  - destruct (exec cfg a s) as [s1|] eqn:Hs1; [|done]. simpl in H.
    apply IH in H. apply steps_left_step in Hs1. simpl. lia.
Qed.

(** X11: every run is finite. A step of a thread, the end of an external
    process or an interrupt takes the program closer to its end: from a
    state [s] no schedule is longer than [steps_left cfg s], and a run from
    the start takes at most [max_task + 6] steps and ten for each
    candidate. *)
Theorem every_run_is_finite (cfg : config) (sched : list action)
    (s s' : state) :
  run cfg sched s = Some s' ->
  length sched + steps_left cfg s' <= steps_left cfg s /\
  (s = init cfg ->
     length sched <= max_task cfg + 6 + 10 * length (candidates cfg)).
Proof.
  intros Hrun. pose proof (steps_left_run _ _ _ _ Hrun) as Hle.
  split; [done|]. intros ->.
  assert (steps_left cfg (init cfg)
          <= max_task cfg + 6 + 10 * length (candidates cfg)); [|lia].
  unfold steps_left, init. simpl. destruct (file_name_re cfg); simpl; lia.
Qed.

Lemma every_run_is_finite_witness :
  run example_cfg example_sched (init example_cfg) = Some example_final /\
  length example_sched <= 2 + 6 + 10 * 3.
Proof.
  assert (Hrun : run example_cfg example_sched (init example_cfg)
                 = Some example_final) by (vm_compute; reflexivity).
  split; [exact Hrun|].
  exact (proj2 (every_run_is_finite example_cfg example_sched
                  (init example_cfg) example_final Hrun) eq_refl).
Defined.

(** *** A tool that behaves *)

Lemma came_from_app p p' i pc : came_from p i pc -> came_from (p ++ p') i pc.
Proof.
  destruct pc as [| | | | | | | | |[] t]; simpl; try done;
    try (intros (rc & H); exists rc; apply elem_of_app; by left).
  - intros H. apply elem_of_app. by left.
  - intros (n & -> & H). exists n. split; [done|]. apply elem_of_app. by left.
  - intros (n & rc & o & e & -> & H & Hd). exists n, rc, o, e.
    split_and!; [done| |done]. apply elem_of_app. by left.
  - intros (n & rc & o & e & -> & H). exists n, rc, o, e.
    split; [done|]. apply elem_of_app. by left.
Qed.

Lemma provenance_init cfg : provenance (init cfg).
Proof. intros i pc H. done. Qed.

Lemma provenance_step cfg a s s' :
  provenance s -> exec cfg a s = Some s' -> provenance s'.
Proof.
  unfold provenance. intros Hp H.
  step_cases H s; simpl in *; try done; intros j pc' Hj;
    try (apply lookup_app_Some in Hj as [Hj|[_ Hj]];
         [by eapply Hp
         | apply list_lookup_singleton_Some in Hj as [_ <-]; done]);
    try (pose proof (Hp _ _ Hpc) as Hold; simpl in Hold;
         apply list_lookup_insert_Some in Hj as [(-> & <- & _)|[Hne Hj]];
         [ simpl; try match type of Hold with ex _ => destruct Hold as [? ?] end;
           first [ done
                 | by eauto
                 | by (apply elem_of_app; right; apply list_elem_of_here)
                 | by (eexists; split; [done|];
                       apply elem_of_app; right; apply list_elem_of_here)
                 | by (eexists _, _, _, _; split_and!; eauto) ]
         | try apply came_from_app; by eapply Hp ]).
Qed.

Lemma provenance_run cfg sched s s' :
  provenance s -> run cfg sched s = Some s' -> provenance s'.
Proof.
  revert s. induction sched as [|a sched IH]; intros s Hi H; simpl in H.
  - by injection H as <-.
  - destruct (exec cfg a s) as [s1|] eqn:Hs1; [|done].
    eauto using provenance_step.
Qed.

Lemma decode_None b : Utf8.decode b = None -> Utf8.well_formed b = false.
Proof. unfold Utf8.decode. by destruct (Utf8.well_formed b). Qed.

Lemma no_write_error_init cfg : no_write_error (init cfg).
Proof.
  unfold no_write_error, init; simpl. split; [|done].
  by destruct (file_name_re cfg).
Qed.

Lemma no_write_error_step cfg a s s' :
  no_fault a = true -> no_write_error s -> exec cfg a s = Some s' ->
  no_write_error s'.
Proof.
  unfold no_write_error. intros Ha [Hm Hw] H.
  step_cases H s; simpl in *; try done;
    (split; [try done; by destruct m as [| | | | | | |[]|] |]);
    intros j t' Hj;
    try (apply lookup_app_Some in Hj as [Hj|[_ Hj]];
         [by eapply Hw | by apply list_lookup_singleton_Some in Hj as [_ ?]]);
    try (apply list_lookup_insert_Some in Hj as [(-> & Heq & _)|[Hne Hj]];
         [by simplify_eq | by eapply Hw]);
    by eapply Hw.
Qed.

Lemma no_write_error_run cfg sched s s' :
  Forall (fun a => no_fault a = true) sched ->
  no_write_error s -> run cfg sched s = Some s' -> no_write_error s'.
Proof.
  intros Hall. revert s.
  induction Hall as [|a sched Ha _ IH]; intros s Hw H; simpl in H.
  - by injection H as <-.
  - destruct (exec cfg a s) as [s1|] eqn:Hs1; [|done].
    eauto using no_write_error_step.
Qed.

(** Why a worker has ended. *)
Lemma dead_cause cfg s i e t :
  invariant_more cfg s -> provenance s ->
  workers s !! i = Some (WDead e t) ->
  exists n r, t = Some n /\ (i, n, r) ∈ popens s /\
    (decodable r = false \/ e = WriteError).
Proof.
  intros Hmore Hp Hi.
  destruct (more_deaths_hold_task _ _ Hmore _ _ _ Hi) as [[->|[->| ->]] _];
    pose proof (Hp _ _ Hi) as Hc; simpl in Hc.
  - destruct Hc as (n & -> & Hin). exists n, LaunchFailure. auto.
  - destruct Hc as (n & rc & o & e & -> & Hin & Hd).
    exists n, (Exited rc o e). split_and!; [done..|]. left. simpl.
    apply andb_false_iff.
    destruct Hd as [Hd|Hd]; apply decode_None in Hd; auto.
  - destruct Hc as (n & rc & o & e & -> & Hin).
    exists n, (Exited rc o e). auto.
Qed.

Lemma decodable_alive cfg s :
  invariant_more cfg s -> provenance s -> no_write_error s ->
  Forall (fun e => decodable e.2 = true) (popens s) ->
  Forall (fun pc => alive pc = true) (workers s).
Proof.
  intros Hmore Hp [_ Hw] Hall. apply Forall_lookup. intros i pc Hi.
  destruct pc as [| | | | | | | | |e t]; try done. exfalso.
  rewrite Forall_forall in Hall.
  destruct (dead_cause _ _ _ _ _ Hmore Hp Hi) as (n & r & _ & Hin & [Hd| ->]).
  - specialize (Hall _ Hin). simpl in Hall. congruence.
  - by eapply Hw.
Qed.

(** X12: a worker that has ended did so on a run of the tool of its own:
    one that did not start, one whose output does not decode, or one during
    whose emission a [write] or a [flush] raised. So on a run on which no
    [write] and no [flush] raises, in a state in which every run of the tool
    so far started and printed texts that decode, every worker of the pool
    is alive. *)
Theorem workers_outlive_a_tool_that_behaves (cfg : config)
    (sched : list action) (s : state) :
  run cfg sched (init cfg) = Some s ->
  (forall i e t, workers s !! i = Some (WDead e t) ->
     exists n r, t = Some n /\ (i, n, r) ∈ popens s /\
       (decodable r = false \/
        e = WriteError /\ Exists (fun a => no_fault a = false) sched)) /\
  (Forall (fun a => no_fault a = true) sched ->
   Forall (fun e => decodable e.2 = true) (popens s) ->
   Forall (fun pc => alive pc = true) (workers s)).
Proof.
  intros Hrun.
  assert (Hreach : reachable cfg s) by (by exists sched).
  pose proof (reachable_invariant_more _ _ Hreach) as Hmore.
  assert (Hp : provenance s) by eauto using provenance_run, provenance_init.
  split.
  - intros i e t Hi.
    destruct (dead_cause _ _ _ _ _ Hmore Hp Hi) as (n & r & Ht & Hin & Hc).
    exists n, r. split_and!; [done..|].
    destruct Hc as [Hc| ->]; [by left|]. right. split; [done|].
    destruct (decide (Forall (fun a => no_fault a = true) sched)) as [Hall|Hex].
    + destruct (no_write_error_run _ _ _ _ Hall (no_write_error_init cfg) Hrun)
        as [_ Hw]. by destruct (Hw i t).
    + apply not_Forall_Exists in Hex; [|apply _].
      eapply Exists_impl; [exact Hex|]. simpl. intros a Ha.
      by destruct (no_fault a).
  - intros Hall Hdec. eapply decodable_alive; [done..| |done].
    eauto using no_write_error_run, no_write_error_init.
Qed.

Lemma workers_outlive_a_tool_that_behaves_witness :
  run example_cfg (take 15 example_sched) (init example_cfg)
    = Some example_middle /\
  Forall (fun a => no_fault a = true) (take 15 example_sched) /\
  Forall (fun e => decodable e.2 = true) (popens example_middle) /\
  Forall (fun pc => alive pc = true) (workers example_middle).
Proof.
  assert (Hrun : run example_cfg (take 15 example_sched) (init example_cfg)
                 = Some example_middle) by (vm_compute; reflexivity).
  assert (Hs : Forall (fun a => no_fault a = true) (take 15 example_sched)).
  { repeat constructor. }
  assert (Hd : Forall (fun e => decodable e.2 = true) (popens example_middle)).
  { repeat constructor. }
  split_and!; [exact Hrun | exact Hs | exact Hd |].
  exact (proj2 (workers_outlive_a_tool_that_behaves example_cfg
                  (take 15 example_sched) example_middle Hrun) Hs Hd).
Defined.

(** *** A run comes to the exit *)

Lemma on_course_step cfg a s s' names :
  cpp (args cfg) = Some names -> of_thread a = true ->
  on_course (main s) = true -> exec cfg a s = Some s' ->
  on_course (main s') = true.
Proof.
  intros Hcpp Ha Hm H.
  step_cases H s; simpl in *; try done; congruence.
Qed.

Lemma on_course_run cfg sched s s' names :
  cpp (args cfg) = Some names -> Forall (fun a => of_thread a = true) sched ->
  on_course (main s) = true -> run cfg sched s = Some s' ->
  on_course (main s') = true.
Proof.
  intros Hcpp Hall. revert s.
  induction Hall as [|a sched Ha _ IH]; intros s Hm H; simpl in H.
  - by injection H as <-.
  - destruct (exec cfg a s) as [s1|] eqn:Hs1; [|done].
    eauto using on_course_step.
Qed.

Lemma of_thread_no_fault sched :
  Forall (fun a => of_thread a = true) sched ->
  Forall (fun a => no_fault a = true) sched.
Proof. intros H. eapply Forall_impl; [exact H|]. by intros []. Qed.

(** X13: with the patterns compiled, [-cpp] given and a pool of at least
    one worker, a run without interrupt, on which no [write] and no [flush]
    raises and every run of the tool started and printed texts that decode,
    is never stuck short of the exit: in each of its states either the main
    thread has exited with a code or some thread can take a step, whatever
    the external process gives when the step is a launch. With the bound on
    the length of a run, every such run comes to the exit. *)
Theorem runs_come_to_the_exit (cfg : config) (names : list string)
    (R : string -> bool) (r : proc_result) (sched : list action) (s : state) :
  1 <= max_task cfg -> cpp (args cfg) = Some names ->
  file_name_re cfg = Some R ->
  run cfg sched (init cfg) = Some s ->
  Forall (fun a => of_thread a = true) sched ->
  Forall (fun e => decodable e.2 = true) (popens s) ->
  (exists c, main s = MExited c) \/
  (exists a s',
     (a = Main \/ exists i, a = Work i \/ a = Run i r) /\
     exec cfg a s = Some s').
Proof.
  intros Hk Hcpp HR Hrun Hsched Hdec.
  assert (Hreach : reachable cfg s) by (by exists sched).
  pose proof (reachable_invariant_more _ _ Hreach) as Hmore.
  assert (Hp : provenance s) by eauto using provenance_run, provenance_init.
  assert (Hnw : no_write_error s).
  { eapply no_write_error_run; [by apply of_thread_no_fault | | done].
    apply no_write_error_init. }
  assert (Hm : on_course (main s) = true).
  { eapply on_course_run; [done | done | | done].
    unfold init. by rewrite HR. }
  destruct (main s) as [| | | | | | | |c] eqn:Hmain; try done;
    try (right; apply live_can_step;
         [apply Hmore | done | unfold process_ended; by rewrite Hmain
         | by eapply decodable_alive]).
  left. by exists c.
Qed.

Lemma runs_come_to_the_exit_witness :
  run example_cfg (take 15 example_sched) (init example_cfg)
    = Some example_middle /\
  ((exists c, main example_middle = MExited c) \/
   (exists a s',
      (a = Main \/ exists i, a = Work i \/ a = Run i LaunchFailure) /\
      exec example_cfg a example_middle = Some s')).
Proof.
  assert (Hrun : run example_cfg (take 15 example_sched) (init example_cfg)
                 = Some example_middle) by (vm_compute; reflexivity).
  assert (Hk : 1 <= max_task example_cfg) by (simpl; lia).
  assert (Hs : Forall (fun a => of_thread a = true) (take 15 example_sched)).
  { repeat constructor. }
  assert (Hd : Forall (fun e => decodable e.2 = true) (popens example_middle)).
  { repeat constructor. }
  split; [exact Hrun|].
  exact (runs_come_to_the_exit example_cfg
           ["apple.cpp"; "cherry.hpp"; "banana.cpp"]
           (Re.re_search
              (Re.Alt (Re.Cat (Re.Chr "a") (Re.Cat (Re.Star Re.Any) Re.Eps))
                      (Re.Cat (Re.Chr "b") (Re.Cat (Re.Star Re.Any) Re.Eps))))
           LaunchFailure (take 15 example_sched) example_middle
           Hk eq_refl eq_refl Hrun Hs Hd).
Defined.

(** *** A tool that prints ASCII *)

Lemma well_formed_ascii b : More.isascii b = true -> Utf8.well_formed b = true.
Proof.
  induction b as [|c b IH]; [done|]. intros H.
  apply andb_true_iff in H as [Hc Hb]. cbn [Utf8.well_formed].
  rewrite Hc. by apply IH.
Qed.

(** X23: an output made of ASCII characters decodes, to itself. So on
    a run on which no [write] and no [flush] raises, in a state in which
    every run of the tool so far started and printed nothing but ASCII on
    both streams, no worker has ended, and, with a pool of at least one
    worker, some thread can take a step as long as the process has not
    ended. *)
Theorem ascii_output_never_ends_a_worker (cfg : config) (r : proc_result)
    (sched : list action) (s : state) :
  run cfg sched (init cfg) = Some s ->
  Forall (fun a => no_fault a = true) sched ->
  Forall (fun e => exists rc out err, e.2 = Exited rc out err /\
            More.isascii out = true /\ More.isascii err = true) (popens s) ->
  Forall (fun e => forall rc out err, e.2 = Exited rc out err ->
            Utf8.decode out = Some out /\ Utf8.decode err = Some err)
         (popens s) /\
  (forall i e t, workers s !! i <> Some (WDead e t)) /\
  (1 <= max_task cfg -> process_ended s = false ->
     exists a s',
       (a = Main \/ exists i, a = Work i \/ a = Run i r) /\
       exec cfg a s = Some s').
Proof.
  intros Hrun Hsched Hall.
  assert (Hreach : reachable cfg s) by (by exists sched).
  pose proof (reachable_invariant_more _ _ Hreach) as Hmore.
  assert (Hp : provenance s) by eauto using provenance_run, provenance_init.
  assert (Hnw : no_write_error s)
    by eauto using no_write_error_run, no_write_error_init.
  assert (Hdec : Forall (fun e => decodable e.2 = true) (popens s)).
  { eapply Forall_impl; [exact Hall|]. simpl.
    intros e (rc & out & err & -> & Ho & He). simpl.
    by rewrite !well_formed_ascii. }
  pose proof (decodable_alive _ _ Hmore Hp Hnw Hdec) as Halive.
  split_and!.
  - eapply Forall_impl; [exact Hall|]. simpl.
    intros e (rc & out & err & -> & Ho & He) rc' out' err' [= <- <- <-].
    unfold Utf8.decode. by rewrite !well_formed_ascii.
  - intros i e t Hi. rewrite Forall_lookup in Halive.
    by specialize (Halive _ _ Hi).
  - intros Hk Hend. apply live_can_step; [apply Hmore | done..].
Qed.

Lemma ascii_output_never_ends_a_worker_witness :
  run example_cfg (take 15 example_sched) (init example_cfg)
    = Some example_middle /\
  (forall i e t, workers example_middle !! i <> Some (WDead e t)).
Proof.
  assert (Hrun : run example_cfg (take 15 example_sched) (init example_cfg)
                 = Some example_middle) by (vm_compute; reflexivity).
  assert (Hs : Forall (fun a => no_fault a = true) (take 15 example_sched)).
  { repeat constructor. }
  split; [exact Hrun|].
  refine (proj1 (proj2 (ascii_output_never_ends_a_worker example_cfg
                          LaunchFailure (take 15 example_sched)
                          example_middle Hrun Hs _))).
  repeat constructor; simpl; eexists _, _, _; split_and!; reflexivity.
Defined.

End PoolMoreFacts.

(** ** More on the parts of the program *)

Module InvocationMore.

Import Invocation.

(** X14: the argument vector tells the file name, the binary and the
    header filter apart: two invocations are equal only if they were built
    from the same three arguments; and an invocation has four tokens
    without a header filter and five with one. *)
Theorem get_tidy_invocation_inj (f b f' b' : string) (hf hf' : option string) :
  (get_tidy_invocation f b hf = get_tidy_invocation f' b' hf' ->
     f = f' /\ b = b' /\ hf = hf') /\
  length (get_tidy_invocation f b hf)
  = match hf with Some _ => 5 | None => 4 end.
Proof.
  split; [|by destruct hf].
  unfold get_tidy_invocation.
  destruct hf as [h|], hf' as [h'|]; simpl; intros H; simplify_eq; done.
Qed.

End InvocationMore.

Module MergeMore.

Import Merge More.

(** *** Merging of the replacement files *)

Lemma filter_none {A} (P : A -> Prop) `{!forall x, Decision (P x)} (l : list A) :
  Forall (fun x => ~ P x) l -> filter P l = [].
Proof.
  induction 1 as [|x l Hx _ IH]; [done|].
  by rewrite filter_cons_False.
Qed.

(** Without the [yaml] module the loop raises at the first file. *)
Lemma merge_loop_without_yaml globbed merged :
  merge_loop false globbed merged
  = match globbed with [] => Returns merged | _ => Raises AttributeError end.
Proof. by destruct globbed as [|[name c] rest]. Qed.

(** X15: when the import of the [yaml] module failed, the helper raises
    [AttributeError] as soon as the directory holds a [*.yaml] file, whatever
    the file holds, and nothing is written; with no such file it leaves the
    target empty. *)
Theorem without_the_yaml_module (tmpdir : list (string * file_content)) :
  (Exists (fun e => glob_yaml e.1 = true) tmpdir ->
     merge_replacement_files false tmpdir = Raises AttributeError) /\
  (Forall (fun e => glob_yaml e.1 = false) tmpdir ->
     merge_replacement_files false tmpdir = Returns Blank).
Proof.
  unfold merge_replacement_files. rewrite merge_loop_without_yaml. split.
  - intros Hex. apply Exists_exists in Hex as (e & Hin & Hg).
    assert (He : e ∈ filter (fun e => glob_yaml e.1 = true) tmpdir)
      by (by apply list_elem_of_filter).
    destruct (filter _ tmpdir); [by apply elem_of_nil in He | done].
  - intros Hall. rewrite filter_none; [done|].
    eapply Forall_impl; [exact Hall|]. simpl. intros e He. by rewrite He.
Qed.

(** The loop over a directory in two parts. *)
Lemma merge_loop_app b g1 g2 merged :
  merge_loop b (g1 ++ g2) merged
  = merged' ← merge_loop b g1 merged; merge_loop b g2 merged'.
Proof.
  revert merged. induction g1 as [|[name c] g1 IH]; intros merged; [done|].
  cbn [app merge_loop].
  destruct (safe_load b c) as [content|e]; [|done].
  cbn [mbind result_bind].
  destruct (negb (truthy content)); [apply IH|].
  destruct (get content mergekey (YSeq [])) as [v|e]; [|done].
  cbn [mbind result_bind].
  destruct (iterate v) as [items|e]; [|done].
  cbn [mbind result_bind]. apply IH.
Qed.

(** The loop goes through a file exactly when the file is mergeable. *)
Lemma merge_loop_one name c merged :
  (mergeable c = true ->
     exists items, merge_loop true [(name, c)] merged = Returns (merged ++ items)) /\
  (mergeable c = false ->
     exists e, merge_loop true [(name, c)] merged = Raises e).
Proof.
  destruct c as [|doc|]; cbn [merge_loop safe_load mbind result_bind mergeable].
  - split; [|done]. intros _. exists []. by rewrite app_nil_r.
  - destruct (truthy doc) eqn:Ht; cbn [negb orb].
    + destruct doc as [| | | | |m]; cbn [get mbind result_bind];
        try (split; [done | by eauto]).
      destruct (m !! mergekey) as [[| | | | |]|]; cbn [default iterate mbind result_bind];
        (split; intros ?; first [done | by eauto]).
    + split; [|done]. intros _. exists []. by rewrite app_nil_r.
  - split; [done|]. eauto.
Qed.

Lemma merge_loop_returns globbed merged :
  (exists merged', merge_loop true globbed merged = Returns merged') <->
  Forall (fun e => mergeable e.2 = true) globbed.
Proof.
  revert merged. induction globbed as [|[name c] globbed IH]; intros merged.
  - split; [done|]. intros _. by exists merged.
  - change ((name, c) :: globbed) with ([(name, c)] ++ globbed).
    rewrite merge_loop_app, Forall_app, Forall_singleton. cbn [snd].
    destruct (merge_loop_one name c merged) as [Hyes Hno].
    destruct (mergeable c).
    + destruct (Hyes eq_refl) as [items ->]. cbn [mbind result_bind].
      rewrite IH. tauto.
    + destruct (Hno eq_refl) as [e ->]. cbn [mbind result_bind].
      split; [by intros [? ?] | by intros [? _]].
Qed.

(** X16: with the [yaml] module imported, the helper returns, rather
    than raises, exactly when every [*.yaml] file of the directory is empty,
    holds a document that Python treats as false, or holds a mapping whose
    ['Diagnostics'], if it has one, is a list, a string or a mapping; the
    other files of the directory do not matter. *)
Theorem merge_returns_iff_mergeable (tmpdir : list (string * file_content)) :
  (exists c, merge_replacement_files true tmpdir = Returns c) <->
  Forall (fun e => glob_yaml e.1 = true -> mergeable e.2 = true) tmpdir.
Proof.
  assert (Hall : Forall (fun e => glob_yaml e.1 = true -> mergeable e.2 = true) tmpdir
     <-> Forall (fun e => mergeable e.2 = true)
           (filter (fun e => glob_yaml e.1 = true) tmpdir)).
  { rewrite !Forall_forall. split.
    - intros H e He. apply list_elem_of_filter in He as [Hg He]. by apply H.
    - intros H e He Hg. apply H. by apply list_elem_of_filter. }
  rewrite Hall, <- (merge_loop_returns _ []).
  unfold merge_replacement_files. split.
  - intros [c Hc].
    destruct (merge_loop true _ []) as [merged|e]; [by eauto | done].
  - intros [merged ->]. cbn [mbind result_bind].
    destruct (negb _); by eauto.
Qed.

Lemma merge_replacement_files_shape b tmpdir c :
  merge_replacement_files b tmpdir = Returns c ->
  c = Blank \/
  exists merged, merged <> [] /\ c = Document (YMap (merged_document merged)).
Proof.
  unfold merge_replacement_files.
  destruct (merge_loop b _ []) as [merged|e]; [|done].
  cbn [mbind result_bind].
  destruct merged as [|d merged]; simpl; intros [= <-]; [by left|].
  right. by exists (d :: merged).
Qed.

Lemma merged_document_size merged : size (merged_document merged) = 2.
Proof.
  unfold merged_document.
  rewrite map_size_insert_None by (by rewrite lookup_singleton_ne).
  by rewrite map_size_singleton.
Qed.

(** X17: what the helper leaves in the target is either no byte at all
    or a mapping with a non-empty list of diagnostics; and merging a
    directory that holds just this file under a [*.yaml] name gives the same
    content again. *)
Theorem merged_file_is_a_fixed_point (b : bool)
    (tmpdir : list (string * file_content)) (c : file_content) (name : string) :
  merge_replacement_files b tmpdir = Returns c -> glob_yaml name = true ->
  (c = Blank \/
   exists merged, merged <> [] /\ c = Document (YMap (merged_document merged))) /\
  merge_replacement_files true [(name, c)] = Returns c.
Proof.
  intros Hc Hg. pose proof (merge_replacement_files_shape _ _ _ Hc) as Hs.
  split; [done|].
  unfold merge_replacement_files.
  rewrite filter_cons_True by done. rewrite filter_nil.
  destruct Hs as [->|(merged & Hne & ->)]; [reflexivity|].
  cbn [merge_loop safe_load mbind result_bind truthy].
  rewrite merged_document_size. cbn [Nat.eqb negb get mbind result_bind].
  destruct (MergeFacts.merged_document_lookup merged) as (_ & Hd & _).
  unfold mergekey. rewrite Hd. cbn [default iterate mbind result_bind app].
  destruct merged; done.
Qed.

Lemma merged_file_is_a_fixed_point_witness :
  merge_replacement_files true
    [("a.yaml", Document (YMap {[ "Diagnostics" := YSeq [YInt 1; YInt 2] ]}))]
  = Returns (Document (YMap (merged_document [YInt 1; YInt 2]))) /\
  merge_replacement_files true
    [("merged.yaml", Document (YMap (merged_document [YInt 1; YInt 2])))]
  = Returns (Document (YMap (merged_document [YInt 1; YInt 2]))).
Proof.
  assert (H : merge_replacement_files true
    [("a.yaml", Document (YMap {[ "Diagnostics" := YSeq [YInt 1; YInt 2] ]}))]
    = Returns (Document (YMap (merged_document [YInt 1; YInt 2]))))
    by reflexivity.
  split; [exact H|].
  exact (proj2 (merged_file_is_a_fixed_point true _ _ "merged.yaml" H eq_refl)).
Defined.

(** X18: the files are merged in order and the first exception ends
    the call: when the helper raises on a directory it raises the same
    exception on this directory followed by any other files, and on this
    directory with any file in front that [*.yaml] does not match. *)
Theorem first_error_wins (b : bool) (d1 d2 : list (string * file_content))
    (e : exn) :
  merge_replacement_files b d1 = Raises e ->
  merge_replacement_files b (d1 ++ d2) = Raises e /\
  (forall name c, glob_yaml name = false ->
     merge_replacement_files b ((name, c) :: d1) = Raises e).
Proof.
  unfold merge_replacement_files. intros H.
  assert (Hl : merge_loop b (filter (fun e => glob_yaml e.1 = true) d1) []
               = Raises e).
  { destruct (merge_loop b _ []) as [merged|e']; 
      cbn [mbind result_bind] in H; [by destruct (negb _) | by injection H as ->]. }
  split.
  - by rewrite filter_app, merge_loop_app, Hl.
  - intros name c Hg. rewrite filter_cons_False by (simpl; by rewrite Hg).
    by rewrite Hl.
Qed.

Lemma first_error_wins_witness :
  merge_replacement_files true [("fixes.yaml", Document (YSeq [YStr "x"]))]
  = Raises AttributeError /\
  merge_replacement_files true
    ([("fixes.yaml", Document (YSeq [YStr "x"]))] ++ [("b.yaml", Blank)])
  = Raises AttributeError.
Proof.
  assert (H : merge_replacement_files true
                [("fixes.yaml", Document (YSeq [YStr "x"]))]
              = Raises AttributeError) by reflexivity.
  split; [exact H|].
  exact (proj1 (first_error_wins true _ [("b.yaml", Blank)] AttributeError H)).
Defined.

End MergeMore.

Module ReMore.

Import Re ReFacts More.

(** *** The selection *)

(** X19: for patterns of the fragment (ASCII characters, none of
    [\ ( ) [ ] { } ^ $], no repetition sign right after another) and an
    ASCII name, the selection depends on the set of the patterns and grows
    with it: a name selected by the patterns of one list is selected by
    every list of patterns that compile and that holds these patterns, in
    whatever order and with whatever others. *)
Theorem selection_grows_with_the_patterns (ps qs : list string)
    (name : string) :
  ps <> [] ->
  Forall (fun p => in_fragment p = true) ps ->
  Forall (fun p => in_fragment p = true) qs ->
  isascii name = true ->
  Forall (fun p => nothing_to_repeat p = false) qs ->
  (forall p, p ∈ ps -> p ∈ qs) ->
  selected ps name = Some true -> selected qs name = Some true.
Proof.
  intros Hne Hps Hqs Hname Hok Hsub Hsel.
  assert (Hne' : qs <> []).
  { destruct ps as [|p ps]; [done|]. intros ->.
    specialize (Hsub p (list_elem_of_here _ _)). by apply elem_of_nil in Hsub. }
  apply (selected_fragment ps name Hne Hps) in Hsel
    as (_ & p & r & pre & u & post & Hp & Hr & Heq & Hu).
  apply (selected_fragment qs name Hne' Hqs). split; [done|].
  exists p, r, pre, u, post. auto.
Qed.

Lemma selection_grows_with_the_patterns_witness :
  selected ["b.*"; "pp"; "a.*"] "apple.cpp" = Some true.
Proof.
  refine (selection_grows_with_the_patterns ["a.*"] ["b.*"; "pp"; "a.*"]
            "apple.cpp" _ _ _ eq_refl _ _ eq_refl).
  - discriminate.
  - repeat constructor.
  - repeat constructor.
  - repeat constructor.
  - intros p Hp. apply list_elem_of_singleton in Hp as ->.
    do 2 apply list_elem_of_further. apply list_elem_of_here.
Defined.

(** A pattern of literal characters compiles to their sequence. *)
Lemma is_literal_inv c :
  is_literal c = true ->
  is_unsupported c = false /\ is_repeat c = false /\
  Ascii.eqb c "." = false /\ Ascii.eqb c "|" = false.
Proof.
  unfold is_literal. rewrite negb_true_iff, !orb_false_iff. tauto.
Qed.

Lemma parse_branch_literal cs :
  forallb is_literal cs = true -> parse_branch cs = Some (literal cs).
Proof.
  induction cs as [|c cs IH]; [done|]. intros H.
  apply andb_true_iff in H as [Hc Hcs]. specialize (IH Hcs).
  apply is_literal_inv in Hc as (Hu & Hr & Hd & _).
  cbn [parse_branch]. rewrite Hu, Hr. cbn [orb].
  unfold atom_of. rewrite Hd.
  destruct cs as [|q cs']; [done|].
  pose proof Hcs as Hq. apply andb_true_iff in Hq as [Hq _].
  apply is_literal_inv in Hq as (_ & Hqr & _ & _). rewrite Hqr.
  rewrite IH. done.
Qed.

Lemma split_bar_literal cs :
  forallb is_literal cs = true -> split_bar cs = [cs].
Proof.
  induction cs as [|c cs IH]; [done|]. intros H.
  apply andb_true_iff in H as [Hc Hcs].
  apply is_literal_inv in Hc as (_ & _ & _ & Hb).
  simpl. rewrite Hb, (IH Hcs). done.
Qed.

Lemma matches_literal cs u : matches (literal cs) u <-> u = cs.
Proof.
  revert u. induction cs as [|c cs IH]; intros u; simpl.
  - split; [by inversion 1 | intros ->; constructor].
  - split.
    + inversion 1 as [| | |r1 r2 u1 u2 H1 H2| | | |]; subst.
      inversion H1; subst. apply IH in H2 as ->. done.
    + intros ->. apply (m_cat _ _ [c] cs); [constructor | by apply IH].
Qed.

(** X20: a pattern that has none of the characters with a meaning of
    their own for [re] selects exactly the names in which it occurs, at
    whatever position. *)
Theorem plain_pattern_is_a_substring (pattern name : string) :
  plain pattern = true ->
  selected [pattern] name = Some true <->
  exists pre post,
    String.list_ascii_of_string name
    = pre ++ String.list_ascii_of_string pattern ++ post.
Proof.
  unfold plain. intros Hp.
  assert (HR : re_compile pattern
               = Some (literal (String.list_ascii_of_string pattern))).
  { unfold re_compile, parse. rewrite (split_bar_literal _ Hp). simpl.
    rewrite (parse_branch_literal _ Hp). done. }
  unfold selected, file_name_re. simpl. rewrite HR. simpl.
  assert (forall b : bool, Some b = Some true <-> b = true) as ->.
  { intros b. split; [by intros [= ->] | by intros ->]. }
  rewrite re_search_spec. split.
  - intros (pre & u & post & Heq & Hu). apply matches_literal in Hu as ->.
    eauto.
  - intros (pre & post & Heq).
    exists pre, (String.list_ascii_of_string pattern), post.
    split; [done|]. by apply matches_literal.
Qed.

Lemma plain_pattern_is_a_substring_witness :
  plain "main" = true /\
  (selected ["main"] "src/main.cpp" = Some true <->
   exists pre post,
     String.list_ascii_of_string "src/main.cpp"
     = pre ++ String.list_ascii_of_string "main" ++ post).
Proof.
  split; [reflexivity|].
  exact (plain_pattern_is_a_substring "main" "src/main.cpp" eq_refl).
Defined.

End ReMore.

Module PathFacts.

Import Path.

(** *** Paths *)

Lemma prefix_cons a s1 b s2 :
  String.prefix (String a s1) (String b s2)
  = if ascii_dec a b then String.prefix s1 s2 else false.
Proof. reflexivity. Qed.

Lemma prefix_nil s : String.prefix "" s = true.
Proof. by destruct s. Qed.

Lemma isabs_cons c s : isabs (String c s) = Ascii.eqb c "/".
Proof.
  unfold isabs. rewrite prefix_cons, prefix_nil.
  destruct (ascii_dec "/" c) as [<-|Hne]; [done|].
  symmetry. apply Ascii.eqb_neq. congruence.
Qed.

Lemma isabs_inv s : isabs s = true <-> exists rest, s = String "/" rest.
Proof.
  split.
  - destruct s as [|c s]; [done|]. rewrite isabs_cons.
    intros ->%Ascii.eqb_eq. eauto.
  - intros [rest ->]. by rewrite isabs_cons.
Qed.

Lemma isabs_join a b : isabs (join a b) = isabs a || isabs b.
Proof.
  unfold join. fold (isabs b).
  destruct (isabs b) eqn:Hb; [by rewrite orb_true_r|]. rewrite orb_false_r.
  destruct a as [|c a]; [done|].
  destruct (_ || _);
    change (String c a +:+ ?t) with (String c (a +:+ t));
    by rewrite !isabs_cons.
Qed.

Lemma initial_slashes_abs path :
  initial_slashes path = 0 <-> isabs path = false.
Proof.
  unfold initial_slashes. fold (isabs path).
  destruct (isabs path); [|done]. by destruct (_ && _).
Qed.

Lemma initial_slashes_le path : initial_slashes path <= 2.
Proof.
  unfold initial_slashes. destruct (String.prefix "/" path); [|lia].
  destruct (_ && _); lia.
Qed.

(** The components [normpath] keeps. *)
Lemma split_no_sep path : Forall (fun comp => no_sep comp = true) (split path).
Proof.
  induction path as [|c path IH]; simpl; [by repeat constructor|].
  destruct (Ascii.eqb c "/") eqn:Hc; [by constructor|].
  destruct (split path) as [|comp comps]; simpl.
  - repeat constructor. simpl. by rewrite Hc.
  - apply Forall_cons in IH as [H1 H2]. constructor; [|done].
    simpl. by rewrite Hc, H1.
Qed.

Lemma Forall_removelast {A} (P : A -> Prop) (l : list A) :
  Forall P l -> Forall P (removelast l).
Proof.
  induction 1 as [|x l Hx Hl IH]; [done|]. simpl.
  destruct l; [done|]. by constructor.
Qed.

Lemma push_kept initial comps comp :
  Forall (kept initial) comps -> no_sep comp = true ->
  Forall (kept initial) (push initial comps comp).
Proof.
  intros Hall Hc. unfold push.
  destruct (String.eqb_spec comp ""); [done|].
  destruct (String.eqb_spec comp "."); [done|]. cbn [orb].
  destruct (_ || _) eqn:Hcond; [|by apply Forall_removelast].
  apply Forall_app. split; [done|]. apply Forall_singleton.
  split_and!; try done. intros Hi ->.
  rewrite String.eqb_refl in Hcond. cbn [negb orb] in Hcond.
  apply Nat.eqb_neq in Hi. rewrite Hi in Hcond. cbn [andb orb] in Hcond.
  apply andb_true_iff in Hcond as [_ Hlast].
  destruct (last comps) as [x|] eqn:Hx; [|done]. cbn [from_option] in Hlast.
  apply String.eqb_eq in Hlast as <-.
  apply last_Some_elem_of in Hx. rewrite Forall_forall in Hall.
  destruct (Hall _ Hx) as (_ & _ & _ & Hdd). apply Hdd; [|done].
  by apply Nat.eqb_neq.
Qed.

Lemma foldl_push_kept initial comps l :
  Forall (kept initial) comps -> Forall (fun comp => no_sep comp = true) l ->
  Forall (kept initial) (foldl (push initial) comps l).
Proof.
  intros Hc Hl. revert comps Hc.
  induction Hl as [|comp l Hcomp _ IH]; intros comps Hc; [done|].
  simpl. apply IH. by apply push_kept.
Qed.

Lemma kept_plain comp : kept 1 comp -> plain_comp comp = true.
Proof.
  intros (H1 & H2 & H3 & H4). unfold plain_comp. rewrite H3.
  destruct (String.eqb_spec comp ""); [done|].
  destruct (String.eqb_spec comp "."); [done|].
  destruct (String.eqb_spec comp ".."); [by destruct H4|]. done.
Qed.

Lemma kept_weaken initial comp : initial <> 0 -> kept initial comp -> kept 1 comp.
Proof. intros Hi (H1 & H2 & H3 & H4). split_and!; auto. Qed.

Lemma concat_kept_relative initial comps :
  Forall (kept initial) comps -> isabs (String.concat "/" comps) = false.
Proof.
  destruct 1 as [|comp comps (Hne & _ & Hsep & _) _]; [done|].
  destruct comp as [|c comp]; [done|]. simpl in Hsep.
  apply andb_true_iff in Hsep as [Hc _]. apply negb_true_iff in Hc.
  destruct comps as [|x xs]; cbn [String.concat];
    [|change (String c comp +:+ ?t) with (String c (comp +:+ t))];
    by rewrite isabs_cons.
Qed.

Lemma slashes_app n t : slashes (S n) +:+ t = String "/" (slashes n +:+ t).
Proof. reflexivity. Qed.

(** What [normpath] returns. *)
Lemma normpath_shape path :
  path <> "" ->
  exists comps,
    Forall (kept (initial_slashes path)) comps /\
    normpath path
    = if initial_slashes path =? 0
      then (if String.length (String.concat "/" comps) =? 0 then "."
            else String.concat "/" comps)
      else slashes (initial_slashes path) +:+ String.concat "/" comps.
Proof.
  intros Hne. unfold normpath.
  destruct path as [|c path]; [done|]. cbn [String.length Nat.eqb].
  set (p := String c path).
  exists (foldl (push (initial_slashes p)) [] (split p)).
  split; [apply foldl_push_kept; [done | apply split_no_sep]|].
  destruct (initial_slashes p) as [|n]; [done|]. cbn [Nat.eqb].
  by rewrite slashes_app.
Qed.

Lemma isabs_normpath path : isabs (normpath path) = isabs path.
Proof.
  destruct path as [|c path]; [done|].
  destruct (normpath_shape (String c path)) as (comps & Hk & ->); [done|].
  destruct (initial_slashes (String c path)) as [|n] eqn:Hi.
  - apply initial_slashes_abs in Hi. rewrite Hi. cbn [Nat.eqb].
    pose proof (concat_kept_relative _ _ Hk) as Hrel.
    by destruct (String.length _ =? 0).
  - cbn [Nat.eqb]. rewrite slashes_app, isabs_cons.
    destruct (isabs (String c path)) eqn:Ha; [done|].
    apply initial_slashes_abs in Ha. congruence.
Qed.

Lemma normpath_nonempty path : normpath path <> "".
Proof.
  unfold normpath. destruct (String.length path =? 0); [done|].
  match goal with |- (if String.length ?p =? 0 then _ else _) <> _ =>
    destruct p end; done.
Qed.

(** X21: the result of [make_absolute] is absolute exactly when the
    file name or the directory is: a relative directory gives a relative
    result. The result is never the empty string, and an absolute file name
    is returned as it is. *)
Theorem make_absolute_is_absolute_iff (f directory : string) :
  isabs (make_absolute f directory) = isabs f || isabs directory /\
  make_absolute f directory <> "" /\
  (isabs f = true -> make_absolute f directory = f).
Proof.
  unfold make_absolute. destruct (isabs f) eqn:Hf.
  - split_and!; [done| |done]. intros ->. done.
  - split_and!; [|apply normpath_nonempty|done].
    by rewrite isabs_normpath, isabs_join, Hf, orb_comm.
Qed.

(** X22: for a relative file name and an absolute directory the result
    of [make_absolute] is a normal path: one or two slashes, then names
    separated by single slashes, none of them empty, [.] or [..]. Making it
    absolute again, against whatever directory, changes nothing. *)
Theorem make_absolute_is_normal (f directory : string) :
  isabs f = false -> isabs directory = true ->
  (exists k comps,
     1 <= k <= 2 /\ Forall (fun comp => plain_comp comp = true) comps /\
     make_absolute f directory = slashes k +:+ String.concat "/" comps) /\
  (forall directory',
     make_absolute (make_absolute f directory) directory'
     = make_absolute f directory).
Proof.
  intros Hf Hd.
  assert (Hj : isabs (join directory f) = true)
    by (by rewrite isabs_join, Hd).
  assert (Habs : isabs (make_absolute f directory) = true).
  { unfold make_absolute. rewrite Hf. by rewrite isabs_normpath. }
  split.
  - unfold make_absolute. rewrite Hf.
    destruct (normpath_shape (join directory f)) as (comps & Hk & ->).
    { intros Heq. by rewrite Heq in Hj. }
    pose proof (initial_slashes_le (join directory f)) as Hle.
    destruct (initial_slashes (join directory f)) as [|n] eqn:Hi.
    { apply initial_slashes_abs in Hi. congruence. }
    exists (S n), comps. split_and!; [lia | lia | | done].
    eapply Forall_impl; [exact Hk|]. intros comp Hc.
    by apply kept_plain, (kept_weaken (S n)).
  - intros d'. unfold make_absolute at 1. by rewrite Habs.
Qed.

Lemma make_absolute_is_normal_witness :
  make_absolute "../b/./c.cpp" "/src/a" = "/src/b/c.cpp" /\
  make_absolute (make_absolute "../b/./c.cpp" "/src/a") "/tmp"
  = make_absolute "../b/./c.cpp" "/src/a".
Proof.
  split; [reflexivity|].
  exact (proj2 (make_absolute_is_normal "../b/./c.cpp" "/src/a" eq_refl eq_refl)
           "/tmp").
Defined.

End PathFacts.
